(** * Lab02Code.py: one-hop and n-hop mix message format

    A shallow embedding of [src/Lab02Mix/Lab02Code.py] (client encoders
    [mix_client_one_hop], [mix_client_n_hop]; relay decoders
    [mix_server_one_hop], [mix_server_n_hop]) and the properties of its
    specification that can be stated over it.

    Conventions of the embedding:
    - Python [bytes] are [list byte]; Python [int] and petlib [Bn] are [Z]
      (petlib's [Bn * Bn] is the unreduced integer product).
    - The petlib primitives (elliptic-curve group, SHA-512, HMAC, AES-CTR)
      are external to the repository: they are the operations of the class
      [Primitives], and what the proofs use about them are the fields of
      [PrimitivesLaws].
    - Exceptions and [print] are effects: a computation returns either an
      exception or a value, together with the lines it wrote to stdout.
    - [G.order().random()] is the only source of randomness; the sampled
      scalar is the first argument of the client encoders. *)

From Stdlib.Strings Require Import String Byte.
From Stdlib Require Import ZArith List Bool Lia Sorted Permutation.
Import ListNotations.

(** ** Bytes *)

Definition bytes := list byte.

Definition byte_of_Z (z : Z) : byte :=
  match Byte.of_N (Z.to_N (z mod 256)) with
  | Some b => b
  | None => x00
  end.

Definition Z_of_byte (b : byte) : Z := Z.of_N (Byte.to_N b).

(** Python slice [l[a:b]] for [0 <= a <= b]. *)
Definition slice {A} (a b : nat) (l : list A) : list A := firstn (b - a) (skipn a l).

(** [Bn.from_binary]: big-endian bytes to integer. *)
Definition from_binary (bs : bytes) : Z :=
  fold_left (fun acc b => (acc * 256 + Z_of_byte b)%Z) bs 0%Z.

(** [secure_compare]: equality of two byte strings. *)
Fixpoint secure_compare (a b : bytes) : bool :=
  match a, b with
  | [], [] => true
  | x :: a', y :: b' => Byte.eqb x y && secure_compare a' b'
  | _, _ => false
  end.

(** Bit [k] of a byte flipped, and bit [k] of byte [i] of a buffer flipped. *)
Definition byte_xor (a b : byte) : byte :=
  let '(a0, (a1, (a2, (a3, (a4, (a5, (a6, a7))))))) := Byte.to_bits a in
  let '(b0, (b1, (b2, (b3, (b4, (b5, (b6, b7))))))) := Byte.to_bits b in
  Byte.of_bits (xorb a0 b0, (xorb a1 b1, (xorb a2 b2, (xorb a3 b3,
               (xorb a4 b4, (xorb a5 b5, (xorb a6 b6, xorb a7 b7))))))).

Definition flip_bit (k : nat) (b : byte) : byte :=
  byte_xor b (byte_of_Z (2 ^ Z.of_nat k)).

Fixpoint flip_bit_at (i k : nat) (bs : bytes) : bytes :=
  match bs, i with
  | [], _ => []
  | b :: bs', O => flip_bit k b :: bs'
  | b :: bs', S i' => b :: flip_bit_at i' k bs'
  end.

(** ** Exceptions, stdout and the monad of the code *)

Inductive exn : Type :=
| MalformedInput     (* Exception("Malformed input message") *)
| HmacCheckFailure   (* Exception("HMAC check failure") *)
| IndexError         (* list index out of range *)
| StructError        (* struct.error of pack / unpack *)
| AssertionError.    (* a failed assert *)

(** The arguments of one [print] call. *)
Inductive pyval : Type :=
| PyStr (s : string)
| PyInt (n : Z)
| PyBytes (b : bytes)
| PyList (l : list bytes).

Definition stdout := list (list pyval).

Definition M (A : Type) : Type := ((exn + A) * stdout)%type.

Definition ret {A} (a : A) : M A := (inr a, []).
Definition raise {A} (e : exn) : M A := (inl e, []).
Definition bind {A B} (m : M A) (f : A -> M B) : M B :=
  match m with
  | (inl e, out) => (inl e, out)
  | (inr a, out) => let (r, out') := f a in (r, out ++ out')
  end.
Definition print (args : list pyval) : M unit := (inr tt, [args]).
Definition py_assert (b : bool) : M unit :=
  if b then ret tt else raise AssertionError.

(** What a computation returns (or raises), and what it wrote. *)
Definition value {A} (m : M A) : exn + A := fst m.
Definition printed {A} (m : M A) : stdout := snd m.

Declare Scope py_scope.
Delimit Scope py_scope with py.
Notation "x <- m ;; k" := (bind m (fun x => k))
  (at level 61, m at next level, right associativity) : py_scope.
Notation "' pat <- m ;; k" := (bind m (fun x => match x with pat => k end))
  (at level 61, pat pattern, m at next level, right associativity) : py_scope.
Notation "m ;;; k" := (bind m (fun _ => k))
  (at level 61, right associativity) : py_scope.
Open Scope py_scope.

(** ** struct.pack / struct.unpack and list operations *)

(** [l[i]]. *)
Definition index {A} (l : list A) (i : nat) : M A :=
  match nth_error l i with
  | Some x => ret x
  | None => raise IndexError
  end.

(** [l.pop(j)], returning the list that remains. *)
Definition list_pop {A} (l : list A) (j : nat) : M (list A) :=
  if j <? length l then ret (firstn j l ++ skipn (S j) l) else raise IndexError.

(** [l.insert(j, x)]: an index past the end appends. *)
Definition list_insert {A} (l : list A) (j : nat) (x : A) : list A :=
  firstn j l ++ x :: skipn j l.

Definition in_H (n : Z) : bool := ((0 <=? n) && (n <=? 65535))%Z.

(** The [Ns] field of a format: truncated or zero-padded to [sz] bytes. *)
Definition pack_s (sz : nat) (s : bytes) : bytes :=
  firstn sz s ++ repeat x00 (sz - length s).

(** [pack("!H<sz>s", n, s)]: network byte order. *)
Definition pack_net_H_s (sz : nat) (n : Z) (s : bytes) : M bytes :=
  if in_H n
  then ret (byte_of_Z (n / 256) :: byte_of_Z (n mod 256) :: pack_s sz s)
  else raise StructError.

(** [unpack("!H<sz>s", buf)]. *)
Definition unpack_net_H_s (sz : nat) (buf : bytes) : M (nat * bytes) :=
  if length buf =? 2 + sz then
    match buf with
    | hi :: lo :: field =>
        ret (Z.to_nat (Z_of_byte hi * 256 + Z_of_byte lo), field)
    | _ => raise StructError
    end
  else raise StructError.

(** [pack("H14s", n, s)]: native byte order (little-endian hosts), no padding
    between the two fields. *)
Definition pack_H14s (n : Z) (s : bytes) : M bytes :=
  if in_H n
  then ret (byte_of_Z (n mod 256) :: byte_of_Z (n / 256) :: pack_s 14 s)
  else raise StructError.

Definition zeros (n : nat) : bytes := repeat x00 n.

(** ** Messages

    The two namedtuples, over the type of points. *)

Record OneHopMixMessage (Pt : Type) : Type := mkOneHop {
  oh_ec_public_key : Pt;
  oh_hmac : bytes;
  oh_address : bytes;
  oh_message : bytes
}.

Record NHopMixMessage (Pt : Type) : Type := mkNHop {
  ec_public_key : Pt;
  hmacs : list bytes;
  address : bytes;
  message : bytes
}.

(** An entry of the n-hop relay's [out_queue]: a decoded tuple when
    [final], a message for the next mix otherwise. *)
Inductive out_msg (Pt : Type) : Type :=
| Deliver (t : bytes * bytes)
| Forward (m : NHopMixMessage Pt).

#[global] Arguments mkOneHop {Pt}.
#[global] Arguments oh_ec_public_key {Pt}.
#[global] Arguments oh_hmac {Pt}.
#[global] Arguments oh_address {Pt}.
#[global] Arguments oh_message {Pt}.
#[global] Arguments mkNHop {Pt}.
#[global] Arguments ec_public_key {Pt}.
#[global] Arguments hmacs {Pt}.
#[global] Arguments address {Pt}.
#[global] Arguments message {Pt}.
#[global] Arguments Deliver {Pt}.
#[global] Arguments Forward {Pt}.

(** ** The petlib primitives *)

Class Primitives : Type := {
  EcPt : Type;
  (** [G.generator()] *)
  generator : EcPt;
  (** [G.check_point(p)] *)
  check_point : EcPt -> bool;
  (** [k * p], [p.pt_mul(k)] *)
  pt_mul : Z -> EcPt -> EcPt;
  (** [p.export()] *)
  export : EcPt -> bytes;
  (** [sha512(d).digest()] *)
  sha512 : bytes -> bytes;
  (** HMAC-SHA512 of all the data fed to an [Hmac] object, under a key *)
  hmac_sha512 : bytes -> bytes -> bytes;
  (** [Cipher("AES-128-CTR").enc(key, iv)]: [update] and [finalize] *)
  enc_update : bytes -> bytes -> bytes -> bytes;
  enc_finalize : bytes -> bytes -> bytes -> bytes
}.

Section Code.
Context {P : Primitives}.

(** An [Hmac(b"sha512", key)] object: its key and the data fed so far. *)
Record Hmac : Type := mkHmac { hkey : bytes; hdata : bytes }.
Definition Hmac_new (key : bytes) : Hmac := mkHmac key [].
Definition update (h : Hmac) (d : bytes) : Hmac := mkHmac (hkey h) (hdata h ++ d).
Definition digest (h : Hmac) : bytes := hmac_sha512 (hkey h) (hdata h).

Definition aes_ctr_enc_dec (key iv input : bytes) : bytes :=
  let output := enc_update key iv input in
  output ++ enc_finalize key iv input.

(** ** sorted() on (address, message) tuples *)

Fixpoint bytes_compare (a b : bytes) : comparison :=
  match a, b with
  | [], [] => Eq
  | [], _ :: _ => Lt
  | _ :: _, [] => Gt
  | x :: a', y :: b' =>
      match N.compare (Byte.to_N x) (Byte.to_N y) with
      | Eq => bytes_compare a' b'
      | c => c
      end
  end.

Definition tuple_compare (s t : bytes * bytes) : comparison :=
  match bytes_compare (fst s) (fst t) with
  | Eq => bytes_compare (snd s) (snd t)
  | c => c
  end.

Definition tuple_leb (s t : bytes * bytes) : bool :=
  match tuple_compare s t with
  | Gt => false
  | _ => true
  end.

Fixpoint insort (x : bytes * bytes) (l : list (bytes * bytes)) : list (bytes * bytes) :=
  match l with
  | [] => [x]
  | y :: l' => if tuple_leb x y then x :: l else y :: insort x l'
  end.

(** [sorted(l)]: the order is total and equal tuples are identical, so any
    sorting algorithm returns the list Python's does. *)
Definition sorted (l : list (bytes * bytes)) : list (bytes * bytes) :=
  fold_right insort [] l.

(** ** mix_server_one_hop *)

Definition mix_server_one_hop_body (private_key : Z) (msg : OneHopMixMessage EcPt)
  : M (bytes * bytes) :=
  (* Check elements and lengths *)
  if negb (check_point (oh_ec_public_key msg))
     || negb (length (oh_hmac msg) =? 20)
     || negb (length (oh_address msg) =? 258)
     || negb (length (oh_message msg) =? 1002)
  then raise MalformedInput
  else
    (* First get a shared key *)
    let shared_element := pt_mul private_key (oh_ec_public_key msg) in
    let key_material := sha512 (export shared_element) in
    let hmac_key := slice 0 16 key_material in
    let address_key := slice 16 32 key_material in
    let message_key := slice 32 48 key_material in
    (* Check the HMAC *)
    let h := Hmac_new hmac_key in
    let h := update h (oh_address msg) in
    let h := update h (oh_message msg) in
    let expected_mac := digest h in
    if negb (secure_compare (oh_hmac msg) (firstn 20 expected_mac))
    then raise HmacCheckFailure
    else
      (* Decrypt the address and the message *)
      let iv := zeros 16 in
      let address_plaintext := aes_ctr_enc_dec address_key iv (oh_address msg) in
      let message_plaintext := aes_ctr_enc_dec message_key iv (oh_message msg) in
      (* Decode the address and message *)
      '(address_len, address_full) <- unpack_net_H_s 256 address_plaintext ;;
      '(message_len, message_full) <- unpack_net_H_s 1000 message_plaintext ;;
      ret (firstn address_len address_full, firstn message_len message_full).

Fixpoint mix_server_one_hop_loop (private_key : Z)
    (message_list : list (OneHopMixMessage EcPt)) (out_queue : list (bytes * bytes))
  : M (list (bytes * bytes)) :=
  match message_list with
  | [] => ret out_queue
  | msg :: rest =>
      output <- mix_server_one_hop_body private_key msg ;;
      mix_server_one_hop_loop private_key rest (out_queue ++ [output])
  end.

Definition mix_server_one_hop (private_key : Z)
    (message_list : list (OneHopMixMessage EcPt)) : M (list (bytes * bytes)) :=
  out_queue <- mix_server_one_hop_loop private_key message_list [] ;;
  ret (sorted out_queue).

(** ** mix_client_one_hop *)

Definition mix_client_one_hop (private_key : Z) (public_key : EcPt)
    (address message : bytes) : M (OneHopMixMessage EcPt) :=
  py_assert (check_point public_key) ;;;
  py_assert (length address <=? 256) ;;;
  py_assert (length message <=? 1000) ;;;
  (* Encode the address and message *)
  address_plaintext <- pack_net_H_s 256 (Z.of_nat (length address)) address ;;
  message_plaintext <- pack_net_H_s 1000 (Z.of_nat (length message)) message ;;
  (* Generate a fresh public key *)
  let client_public_key := pt_mul private_key generator in
  let shared_element := pt_mul private_key public_key in
  let key_material := sha512 (export shared_element) in
  let hmac_key := slice 0 16 key_material in
  let address_key := slice 16 32 key_material in
  let message_key := slice 32 48 key_material in
  let iv := zeros 16 in
  let address_cipher := aes_ctr_enc_dec address_key iv address_plaintext in
  let message_cipher := aes_ctr_enc_dec message_key iv message_plaintext in
  let h := Hmac_new hmac_key in
  let h := update h address_cipher in
  let h := update h message_cipher in
  let expected_mac := firstn 20 (digest h) in
  ret (mkOneHop client_public_key expected_mac address_cipher message_cipher).

(** ** mix_server_n_hop *)

(** The loop [for i, other_mac in enumerate(msg.hmacs[1:])] that decrypts
    the remaining MACs, from index [i] on. *)
Fixpoint decrypt_hmacs (hmac_key : bytes) (i : nat) (others : list bytes)
    (new_hmacs : list bytes) : M (list bytes) :=
  match others with
  | [] => ret new_hmacs
  | other_mac :: rest =>
      (* Ensure the IV is different for each hmac *)
      iv <- pack_H14s (Z.of_nat i) (zeros 14) ;;
      let hmac_plaintext := aes_ctr_enc_dec hmac_key iv other_mac in
      decrypt_hmacs hmac_key (S i) rest (new_hmacs ++ [hmac_plaintext])
  end.

Definition mix_server_n_hop_body (private_key : Z) (final : bool)
    (msg : NHopMixMessage EcPt) : M (out_msg EcPt) :=
  (* Check elements and lengths; [or] evaluates left to right and
     [isinstance(msg.hmacs, list)] holds of every [list bytes] *)
  malformed <-
    (if negb (check_point (ec_public_key msg)) then ret true
     else
       mac0 <- index (hmacs msg) 0 ;;
       ret (negb (length mac0 =? 20)
            || negb (length (address msg) =? 258)
            || negb (length (message msg) =? 1002))) ;;
  if malformed : bool then raise MalformedInput
  else
    (* First get a shared key *)
    let shared_element := pt_mul private_key (ec_public_key msg) in
    let key_material := sha512 (export shared_element) in
    let hmac_key := slice 0 16 key_material in
    let address_key := slice 16 32 key_material in
    let message_key := slice 32 48 key_material in
    (* Extract a blinding factor for the public_key *)
    let blinding_factor := from_binary (skipn 48 key_material) in
    let new_ec_public_key := pt_mul blinding_factor (ec_public_key msg) in
    (* Check the HMAC *)
    let h := Hmac_new hmac_key in
    let h := fold_left update (skipn 1 (hmacs msg)) h in
    let h := update h (address msg) in
    let h := update h (message msg) in
    let expected_mac := digest h in
    print [PyStr "Server: "; PyBytes (firstn 20 expected_mac)] ;;;
    mac0 <- index (hmacs msg) 0 ;;
    if negb (secure_compare mac0 (firstn 20 expected_mac))
    then raise HmacCheckFailure
    else
      (* Decrypt the hmacs, address and the message *)
      new_hmacs <- decrypt_hmacs hmac_key 0 (skipn 1 (hmacs msg)) [] ;;
      let iv := zeros 16 in
      let address_plaintext := aes_ctr_enc_dec address_key iv (address msg) in
      let message_plaintext := aes_ctr_enc_dec message_key iv (message msg) in
      if final then
        (* Decode the address and message *)
        '(address_len, address_full) <- unpack_net_H_s 256 address_plaintext ;;
        '(message_len, message_full) <- unpack_net_H_s 1000 message_plaintext ;;
        ret (Deliver (firstn address_len address_full,
                      firstn message_len message_full))
      else
        (* Pass the new mix message to the next mix *)
        ret (Forward (mkNHop new_ec_public_key new_hmacs
                             address_plaintext message_plaintext)).

Fixpoint mix_server_n_hop_loop (private_key : Z) (final : bool)
    (message_list : list (NHopMixMessage EcPt)) (out_queue : list (out_msg EcPt))
  : M (list (out_msg EcPt)) :=
  match message_list with
  | [] => ret out_queue
  | msg :: rest =>
      out <- mix_server_n_hop_body private_key final msg ;;
      mix_server_n_hop_loop private_key final rest (out_queue ++ [out])
  end.

Definition mix_server_n_hop (private_key : Z)
    (message_list : list (NHopMixMessage EcPt)) (final : bool) : M (list (out_msg EcPt)) :=
  mix_server_n_hop_loop private_key final message_list [].

(** ** mix_client_n_hop *)

(** [enumerate(l)]. *)
Definition enumerate {A} (l : list A) : list (nat * A) :=
  combine (seq 0 (length l)) l.

(** The loop [for i, hop_public_key in enumerate(public_keys)], from index
    [i] on, with the lists [key_materials] and [private_keys] it appends to. *)
Fixpoint key_schedule (i : nat) (public_keys : list EcPt)
    (key_materials : list bytes) (private_keys : list Z)
  : M (list bytes * list Z) :=
  match public_keys with
  | [] => ret (key_materials, private_keys)
  | hop_public_key :: rest =>
      (* First get a shared key for each mix *)
      priv_i <- index private_keys i ;;
      let shared_element := pt_mul priv_i hop_public_key in
      let key_material := sha512 (export shared_element) in
      (* Extract a blinding factor for this key material *)
      let blinding_factor := from_binary (skipn 48 key_material) in
      (* Get a new private key using the blinding factor for the next mix *)
      let new_ec_private_key := (blinding_factor * priv_i)%Z in
      key_schedule (S i) rest (key_materials ++ [key_material])
                   (private_keys ++ [new_ec_private_key])
  end.

(** The loop [for j, other_mac in enumerate(hmacs[:counter])], from index [j]
    on: [snapshot] is what is left of the slice, [hmacs] the list it
    rewrites in place. *)
Fixpoint encrypt_hmacs (hmac_key : bytes) (j : nat) (snapshot : list bytes)
    (h : Hmac) (hmacs : list bytes) : M (Hmac * list bytes) :=
  match snapshot with
  | [] => ret (h, hmacs)
  | other_mac :: rest =>
      (* iv different for each mac *)
      iv <- pack_H14s (Z.of_nat j) (zeros 14) ;;
      let hmac_cipher := aes_ctr_enc_dec hmac_key iv other_mac in
      (* Add this cipher to the HMAC for the current mix *)
      let h := update h hmac_cipher in
      (* Replace the HMAC for the mixes after the current one by their cipher *)
      hmacs <- list_pop hmacs j ;;
      let hmacs := list_insert hmacs j hmac_cipher in
      encrypt_hmacs hmac_key (S j) rest h hmacs
  end.

(** The state of the reverse loop: [address_cipher], [message_cipher],
    [hmacs] and [counter]. *)
Definition layer_state : Type := (bytes * bytes * list bytes * nat)%type.

(** One iteration of [for i, key_material in reversed(list(enumerate(key_materials)))];
    [n] is [len(key_materials)]. *)
Definition layering_body (n : nat) (st : layer_state) (item : nat * bytes)
  : M layer_state :=
  let '(address_cipher, message_cipher, hmacs, counter) := st in
  let '(i, key_material) := item in
  (* Use different parts of the shared key for different operations *)
  let hmac_key := slice 0 16 key_material in
  let address_key := slice 16 32 key_material in
  let message_key := slice 32 48 key_material in
  (* Encrypt the address and the message *)
  let iv := zeros 16 in
  let address_cipher := aes_ctr_enc_dec address_key iv address_cipher in
  let message_cipher := aes_ctr_enc_dec message_key iv message_cipher in
  (* Create HMAC *)
  let h := Hmac_new hmac_key in
  print [PyInt (Z.of_nat n - Z.of_nat i - 1)] ;;;
  (* Encrypt other mac for the mixes after the current one *)
  '(h, hmacs) <- encrypt_hmacs hmac_key 0 (firstn counter hmacs) h hmacs ;;
  (* Add the address and message cipher to the HMAC *)
  let h := update h address_cipher in
  let h := update h message_cipher in
  (* Insert the HMAC at the list top *)
  let expected_mac := firstn 20 (digest h) in
  let hmacs := list_insert hmacs 0 expected_mac in
  ret (address_cipher, message_cipher, hmacs, S counter).

Fixpoint layering (n : nat) (items : list (nat * bytes)) (st : layer_state)
  : M layer_state :=
  match items with
  | [] => ret st
  | item :: rest =>
      st' <- layering_body n st item ;;
      layering n rest st'
  end.

Definition mix_client_n_hop (private_key : Z) (public_keys : list EcPt)
    (address message : bytes) : M (NHopMixMessage EcPt) :=
  (* assert G.check_point(public_key) is commented out in the source *)
  py_assert (length address <=? 256) ;;;
  py_assert (length message <=? 1000) ;;;
  (* Encode the address and message *)
  address_plaintext <- pack_net_H_s 256 (Z.of_nat (length address)) address ;;
  message_plaintext <- pack_net_H_s 1000 (Z.of_nat (length message)) message ;;
  (* Generate a fresh public key *)
  let client_public_key := pt_mul private_key generator in
  (* Create the shared elements and key materials for each of the hops *)
  '(key_materials, private_keys) <-
     key_schedule 0 public_keys [] [private_key] ;;
  (* Initialization, then the iteration in reverse *)
  '(address_cipher, message_cipher, hmacs, counter) <-
     layering (length key_materials) (rev (enumerate key_materials))
              (address_plaintext, message_plaintext, [], 0) ;;
  print [PyStr "Client: "; PyList hmacs] ;;;
  ret (mkNHop client_public_key hmacs address_cipher message_cipher).

End Code.

(** ** analyze_trace

    Users are Python ints. A [Counter] is a dict: its keys, in the order
    in which they were first inserted, with their counts. *)

(** [x in l]. *)
Definition py_in (x : Z) (l : list Z) : bool := existsb (Z.eqb x) l.

(** [c[x] += 1], as [Counter.update] does for each element. *)
Fixpoint Counter_incr (c : list (Z * Z)) (x : Z) : list (Z * Z) :=
  match c with
  | [] => [(x, 1%Z)]
  | (y, k) :: c' =>
      if Z.eqb y x then (y, (k + 1)%Z) :: c' else (y, k) :: Counter_incr c' x
  end.

(** [Counter(l)]. *)
Definition Counter (l : list Z) : list (Z * Z) := fold_left Counter_incr l [].

(** [sorted(items, key=itemgetter(1), reverse=True)]: the sort is stable,
    so items of equal count keep their order. *)
Fixpoint insert_by_count (x : Z * Z) (l : list (Z * Z)) : list (Z * Z) :=
  match l with
  | [] => [x]
  | y :: l' => if (snd x <? snd y)%Z then y :: insert_by_count x l' else x :: l
  end.

Definition sorted_by_count (c : list (Z * Z)) : list (Z * Z) :=
  fold_right insert_by_count [] c.

(** [c.most_common(n)] for an int [n]: [heapq.nlargest(n, c.items(),
    key=itemgetter(1))], which is [sorted(..., reverse=True)[:n]] for
    [n >= 0] and empty for [n <= 0]. *)
Definition most_common (n : Z) (c : list (Z * Z)) : list (Z * Z) :=
  if (n <=? 0)%Z then [] else firstn (Z.to_nat n) (sorted_by_count c).

(** The loop [for senders, receivers in trace]. *)
Fixpoint analyze_trace_loop (trace : list (list Z * list Z)) (target : Z)
    (all_suspects : list Z) : list Z :=
  match trace with
  | [] => all_suspects
  | (senders, receivers) :: rest =>
      if py_in target senders
      then analyze_trace_loop rest target (all_suspects ++ receivers)
      else analyze_trace_loop rest target all_suspects
  end.

Definition analyze_trace (trace : list (list Z * list Z))
    (target_number_of_friends : Z) (target : Z) : list Z :=
  (* Create a list of all receivers who appear at times when our target is
     sending a message *)
  let all_suspects := analyze_trace_loop trace target [] in
  (* Extract the receivers who appear most often *)
  let suspects := Counter all_suspects in
  let suspects := most_common target_number_of_friends suspects in
  map fst suspects.

(** ** generate_trace

    The function draws from [random]. A computation that draws is the set
    of the results it can have: an exception or a value. [random.sample]
    yields any selection of [k] elements at distinct positions of the
    population, in any order, [random.choice] any element of a non-empty
    sequence, [random.shuffle] any arrangement of the list. *)

Inductive trace_exn : Type :=
| ValueError          (* random.sample: sample larger than population or negative *)
| IndexError_choice.  (* random.choice of an empty sequence *)

Definition ND (A : Type) : Type := trace_exn + A -> Prop.

Definition nd_ret {A} (a : A) : ND A := fun r => r = inr a.
Definition nd_raise {A} (e : trace_exn) : ND A := fun r => r = inl e.
Definition nd_bind {A B} (m : ND A) (f : A -> ND B) : ND B :=
  fun r => (exists e, m (inl e) /\ r = inl e) \/ (exists a, m (inr a) /\ f a r).

Declare Scope nd_scope.
Delimit Scope nd_scope with nd.
Notation "x <~ m ;; k" := (nd_bind m (fun x => k))
  (at level 61, m at next level, right associativity) : nd_scope.

(** [s] is a selection of [k] elements of the population. *)
Definition is_sample (population : list Z) (k : Z) (s : list Z) : Prop :=
  Z.of_nat (length s) = k /\ exists rest, Permutation (s ++ rest) population.

Definition random_sample (population : list Z) (k : Z) : ND (list Z) :=
  fun r =>
    if ((0 <=? k) && (k <=? Z.of_nat (length population)))%Z
    then exists s, r = inr s /\ is_sample population k s
    else r = inl ValueError.

Definition random_choice (seq : list Z) : ND Z :=
  fun r =>
    match seq with
    | [] => r = inl IndexError_choice
    | _ :: _ => exists x, r = inr x /\ In x seq
    end.

Definition random_shuffle {A} (l : list A) : ND (list A) :=
  fun r => exists l', r = inr l' /\ Permutation l l'.

(** [range(a, b)]. *)
Definition py_range (a b : Z) : list Z :=
  map (fun i => (a + Z.of_nat i)%Z) (seq 0 (Z.to_nat (b - a))).

(** [sorted(l)] on ints. *)
Fixpoint insert_int (x : Z) (l : list Z) : list Z :=
  match l with
  | [] => [x]
  | y :: l' => if (x <=? y)%Z then x :: l else y :: insert_int x l'
  end.

Definition sorted_int (l : list Z) : list Z := fold_right insert_int [] l.

(** The first loop, [count] iterations left: traces in which Alice (user 0)
    is not sending. *)
Fixpoint quiet_rounds (count : nat) (others all_users : list Z) (threshold_size : Z)
    (trace : list (list Z * list Z)) : ND (list (list Z * list Z)) :=
  match count with
  | O => nd_ret trace
  | S count' =>
      (s <~ random_sample others threshold_size ;;
       let senders := sorted_int s in
       r <~ random_sample all_users threshold_size ;;
       let receivers := sorted_int r in
       quiet_rounds count' others all_users threshold_size
                    (trace ++ [(senders, receivers)]))%nd
  end.

(** The second loop: traces in which Alice (user 0) is sending. *)
Fixpoint target_rounds (count : nat) (others all_users : list Z) (threshold_size : Z)
    (targets_friends : list Z) (trace : list (list Z * list Z))
  : ND (list (list Z * list Z)) :=
  match count with
  | O => nd_ret trace
  | S count' =>
      (s <~ random_sample others (threshold_size - 1) ;;
       let senders := sorted_int (0%Z :: s) in
       (* Alice sends to a friend *)
       friend <~ random_choice targets_friends ;;
       r <~ random_sample all_users (threshold_size - 1) ;;
       let receivers := sorted_int (friend :: r) in
       target_rounds count' others all_users threshold_size targets_friends
                     (trace ++ [(senders, receivers)]))%nd
  end.

Definition generate_trace (number_of_users threshold_size number_of_rounds : Z)
    (targets_friends : list Z) : ND (list (list Z * list Z)) :=
  let others := py_range 1 number_of_users in
  let all_users := py_range 0 number_of_users in
  (trace <~ quiet_rounds (Z.to_nat (number_of_rounds / 2)) others all_users
                         threshold_size [] ;;
   trace <~ target_rounds (Z.to_nat (number_of_rounds / 2)) others all_users
                          threshold_size targets_friends trace ;;
   random_shuffle trace)%nd.

(** ** What the proofs use of the primitives

    Scalars act on the group ([a * (b * p) = (a b) * p]); every multiple of a
    valid point, and the generator, pass [check_point]; SHA-512 and
    HMAC-SHA512 digests are 64 bytes; AES-CTR under a 16-byte key and a
    16-byte IV keeps the length of its input and is its own inverse. *)
Class PrimitivesLaws (P : Primitives) : Prop := {
  pt_mul_mul : forall a b p, pt_mul a (pt_mul b p) = pt_mul (a * b) p;
  check_point_generator : check_point generator = true;
  check_point_mul : forall a p, check_point p = true -> check_point (pt_mul a p) = true;
  sha512_length : forall d, length (sha512 d) = 64;
  hmac_sha512_length : forall k d, length (hmac_sha512 k d) = 64;
  aes_ctr_length : forall k iv x,
    length k = 16 -> length iv = 16 ->
    length (aes_ctr_enc_dec k iv x) = length x;
  aes_ctr_involutive : forall k iv x,
    length k = 16 -> length iv = 16 ->
    aes_ctr_enc_dec k iv (aes_ctr_enc_dec k iv x) = x
}.

(** * Definitions of the statements

    Names for what the code computes: the layers the client builds, the
    checks of the relay and what it passes on, a cascade of relays, a
    tampered message. The lemmas of the proofs relate each to the code. *)

Section Model.
Context {P : Primitives}.

(** The envelope [pack("!H<sz>s", len(s), s)] writes, and what [unpack]
    followed by the truncation to the declared length reads from a buffer. *)
Definition envelope (sz : nat) (s : bytes) : bytes :=
  byte_of_Z (Z.of_nat (length s) / 256) :: byte_of_Z (Z.of_nat (length s) mod 256)
    :: pack_s sz s.

Definition open_envelope (buf : bytes) : bytes :=
  match buf with
  | hi :: lo :: field => firstn (Z.to_nat (Z_of_byte hi * 256 + Z_of_byte lo)) field
  | _ => []
  end.

(** The IV that [pack("H14s", j, b"\x00"*14)] gives list position [j]. *)
Definition position_iv (j : nat) : bytes :=
  byte_of_Z (Z.of_nat j mod 256) :: byte_of_Z (Z.of_nat j / 256)
    :: pack_s 14 (zeros 14).

(** The MACs of positions [j], [j+1], ... each passed through AES-CTR under
    [hmac_key] and the IV of its position. *)
Fixpoint crypt_hmacs (hmac_key : bytes) (j : nat) (macs : list bytes) : list bytes :=
  match macs with
  | [] => []
  | mac :: rest =>
      aes_ctr_enc_dec hmac_key (position_iv j) mac :: crypt_hmacs hmac_key (S j) rest
  end.

(** ** Layers of an n-hop message *)

(** Address ciphertext, message ciphertext and MAC list. *)
Definition layer : Type := (bytes * bytes * list bytes)%type.

(** What one iteration of the reverse loop does to the three fields. *)
Definition wrap (key_material : bytes) (inner : layer) : layer :=
  let '(a, m, hs) := inner in
  let hmac_key := slice 0 16 key_material in
  let a' := aes_ctr_enc_dec (slice 16 32 key_material) (zeros 16) a in
  let m' := aes_ctr_enc_dec (slice 32 48 key_material) (zeros 16) m in
  let hs' := crypt_hmacs hmac_key 0 hs in
  (a', m', firstn 20 (hmac_sha512 hmac_key (concat hs' ++ a' ++ m')) :: hs').

(** The layers for key materials [km_0 .. km_(n-1)]: the last is applied
    first, the first is outermost. *)
Definition onion (key_materials : list bytes) (core : layer) : layer :=
  fold_right wrap core key_materials.

(** ** The client's key chain *)

(** The key material of each hop, and the private key that follows it,
    starting from private key [priv]. *)
Fixpoint client_key_materials (priv : Z) (public_keys : list EcPt) : list bytes :=
  match public_keys with
  | [] => []
  | hop_public_key :: rest =>
      let key_material := sha512 (export (pt_mul priv hop_public_key)) in
      key_material
        :: client_key_materials (from_binary (skipn 48 key_material) * priv)%Z rest
  end.

Fixpoint client_private_keys (priv : Z) (public_keys : list EcPt) : list Z :=
  match public_keys with
  | [] => []
  | hop_public_key :: rest =>
      let key_material := sha512 (export (pt_mul priv hop_public_key)) in
      let next := (from_binary (skipn 48 key_material) * priv)%Z in
      next :: client_private_keys next rest
  end.

(** ** The encoded message *)

(** The message [mix_client_n_hop] returns. *)
Definition encoded (private_key : Z) (public_keys : list EcPt)
    (address message : bytes) : NHopMixMessage EcPt :=
  let '(a, m, hs) :=
    onion (client_key_materials private_key public_keys)
          (envelope 256 address, envelope 1000 message, []) in
  mkNHop (pt_mul private_key generator) hs a m.

(** ** The relay's checks and outputs *)

Definition relay_key_material (private_key : Z) (pk : EcPt) : bytes :=
  sha512 (export (pt_mul private_key pk)).

(** The checks of "Check elements and lengths", all passed. *)
Definition format_ok (msg : NHopMixMessage EcPt) : bool :=
  check_point (ec_public_key msg)
  && match hmacs msg with
     | [] => false
     | mac0 :: _ => length mac0 =? 20
     end
  && (length (address msg) =? 258)
  && (length (message msg) =? 1002).

(** [expected_mac[:20]] as the relay computes it. *)
Definition expected_mac (private_key : Z) (msg : NHopMixMessage EcPt) : bytes :=
  let km := relay_key_material private_key (ec_public_key msg) in
  firstn 20 (hmac_sha512 (slice 0 16 km)
               (concat (skipn 1 (hmacs msg)) ++ address msg ++ message msg)).

Definition mac_ok (private_key : Z) (msg : NHopMixMessage EcPt) : bool :=
  match hmacs msg with
  | [] => false
  | mac0 :: _ => secure_compare mac0 (expected_mac private_key msg)
  end.

(** The message a relay passes on, and the tuple a final relay delivers. *)
Definition peeled (private_key : Z) (msg : NHopMixMessage EcPt) : NHopMixMessage EcPt :=
  let km := relay_key_material private_key (ec_public_key msg) in
  mkNHop (pt_mul (from_binary (skipn 48 km)) (ec_public_key msg))
         (crypt_hmacs (slice 0 16 km) 0 (skipn 1 (hmacs msg)))
         (aes_ctr_enc_dec (slice 16 32 km) (zeros 16) (address msg))
         (aes_ctr_enc_dec (slice 32 48 km) (zeros 16) (message msg)).

Definition delivered (private_key : Z) (msg : NHopMixMessage EcPt) : bytes * bytes :=
  (open_envelope (address (peeled private_key msg)),
   open_envelope (message (peeled private_key msg))).

(** The line the relay prints before it compares the MACs. *)
Definition server_line (private_key : Z) (msg : NHopMixMessage EcPt) : list pyval :=
  [PyStr "Server: "; PyBytes (expected_mac private_key msg)].

(** ** A cascade of relays *)

(** What the next mix receives of a relay's output queue. *)
Definition forwarded (outs : list (out_msg EcPt)) : list (NHopMixMessage EcPt) :=
  flat_map (fun out => match out with
                       | Forward m => [m]
                       | Deliver _ => []
                       end) outs.

(** A batch passed through relays that all forward. *)
Fixpoint relay_chain (private_keys : list Z) (batch : list (NHopMixMessage EcPt))
  : M (list (NHopMixMessage EcPt)) :=
  match private_keys with
  | [] => ret batch
  | r :: rest =>
      outs <- mix_server_n_hop r batch false ;;
      relay_chain rest (forwarded outs)
  end.

(** A batch passed through the relays in order, the last one with
    [final=True]. *)
Fixpoint cascade (private_keys : list Z) (batch : list (NHopMixMessage EcPt))
  : M (list (out_msg EcPt)) :=
  match private_keys with
  | [] => ret (map Forward batch)
  | r :: rest =>
      match rest with
      | [] => mix_server_n_hop r batch true
      | _ :: _ =>
          outs <- mix_server_n_hop r batch false ;;
          cascade rest (forwarded outs)
      end
  end.

(** The public key of a relay's key pair. *)
Definition public_key_of (private_key : Z) : EcPt := pt_mul private_key generator.

(** A message whose layers were built from private key [priv] for the
    relays [public_keys] around [core]. *)
Definition sealed (priv : Z) (public_keys : list EcPt) (core : layer) : NHopMixMessage EcPt :=
  let '(a, m, hs) := onion (client_key_materials priv public_keys) core in
  mkNHop (pt_mul priv generator) hs a m.

(** ** The one-hop mix *)

Definition oh_format_ok (msg : OneHopMixMessage EcPt) : bool :=
  check_point (oh_ec_public_key msg)
  && (length (oh_hmac msg) =? 20)
  && (length (oh_address msg) =? 258)
  && (length (oh_message msg) =? 1002).

Definition oh_expected_mac (private_key : Z) (msg : OneHopMixMessage EcPt) : bytes :=
  let km := relay_key_material private_key (oh_ec_public_key msg) in
  firstn 20 (hmac_sha512 (slice 0 16 km) (oh_address msg ++ oh_message msg)).

Definition oh_delivered (private_key : Z) (msg : OneHopMixMessage EcPt) : bytes * bytes :=
  let km := relay_key_material private_key (oh_ec_public_key msg) in
  (open_envelope (aes_ctr_enc_dec (slice 16 32 km) (zeros 16) (oh_address msg)),
   open_envelope (aes_ctr_enc_dec (slice 32 48 km) (zeros 16) (oh_message msg))).

(** The message [mix_client_one_hop] returns. *)
Definition oh_encoded (private_key : Z) (public_key : EcPt)
    (address message : bytes) : OneHopMixMessage EcPt :=
  let km := sha512 (export (pt_mul private_key public_key)) in
  let a := aes_ctr_enc_dec (slice 16 32 km) (zeros 16) (envelope 256 address) in
  let m := aes_ctr_enc_dec (slice 32 48 km) (zeros 16) (envelope 1000 message) in
  mkOneHop (pt_mul private_key generator)
           (firstn 20 (hmac_sha512 (slice 0 16 km) (a ++ m))) a m.

(** ** The blinded key chain *)

(** What a relay computes from the public key of an incoming message
    (lines "First get a shared key" and "Extract a blinding factor"). *)
Definition relay_shared_element (private_key : Z) (incoming : EcPt) : EcPt :=
  pt_mul private_key incoming.

Definition relay_next_public_key (private_key : Z) (incoming : EcPt) : EcPt :=
  pt_mul (from_binary (skipn 48 (relay_key_material private_key incoming))) incoming.

(** The public key each relay of a cascade finds in the message it
    receives, when the first one finds [pk]. *)
Fixpoint incoming_public_keys (pk : EcPt) (relays : list Z) : list EcPt :=
  match relays with
  | [] => []
  | r :: rest => pk :: incoming_public_keys (relay_next_public_key r pk) rest
  end.

(** The five outcomes of the relay's loop body on a message. *)
Inductive body_outcome (r : Z) (final : bool) (msg : NHopMixMessage EcPt) : Prop :=
| outcome_malformed :
    format_ok msg = false ->
    hmacs msg <> [] \/ check_point (ec_public_key msg) = false ->
    mix_server_n_hop_body r final msg = raise MalformedInput ->
    body_outcome r final msg
| outcome_index_error :
    check_point (ec_public_key msg) = true ->
    hmacs msg = [] ->
    mix_server_n_hop_body r final msg = raise IndexError ->
    body_outcome r final msg
| outcome_mac_failure :
    format_ok msg = true ->
    mac_ok r msg = false ->
    mix_server_n_hop_body r final msg = (inl HmacCheckFailure, [server_line r msg]) ->
    body_outcome r final msg
| outcome_struct_error :
    format_ok msg = true ->
    mac_ok r msg = true ->
    (65537 < Z.of_nat (length (hmacs msg)))%Z ->
    mix_server_n_hop_body r final msg = (inl StructError, [server_line r msg]) ->
    body_outcome r final msg
| outcome_accepted :
    format_ok msg = true ->
    mac_ok r msg = true ->
    (Z.of_nat (length (hmacs msg)) <= 65537)%Z ->
    mix_server_n_hop_body r final msg
    = (inr (if final then Deliver (delivered r msg) else Forward (peeled r msg)),
       [server_line r msg]) ->
    body_outcome r final msg.

(** ** Wire size *)

(** The size of a one-hop message laid out as
    [point | mac | address_ciphertext | message_ciphertext]. *)
Definition oh_wire_length (msg : OneHopMixMessage EcPt) : nat :=
  length (export (oh_ec_public_key msg)) + length (oh_hmac msg)
  + length (oh_address msg) + length (oh_message msg).

(** ** Order of the outputs *)

Definition tuple_le (s t : bytes * bytes) : Prop := tuple_leb s t = true.

(** The tuples among the entries of an output queue. *)
Definition tuples (outs : list (out_msg EcPt)) : list (bytes * bytes) :=
  flat_map (fun out => match out with
                       | Deliver t => [t]
                       | Forward _ => []
                       end) outs.

(** ** Exceptions of the client's loops *)

(** The exceptions the loops of [mix_client_n_hop] can raise. *)
Definition loop_error (e : exn) : Prop := e = StructError \/ e = IndexError.

(** ** Tampered messages *)

(** The three fields a MAC protects or is. *)
Inductive field : Type := Mac0 | Address | Message.

(** Bit [k] of byte [i] of a field of a message flipped. *)
Definition tamper (f : field) (i k : nat) (msg : NHopMixMessage EcPt) : NHopMixMessage EcPt :=
  match f with
  | Mac0 =>
      mkNHop (ec_public_key msg)
             (match hmacs msg with
              | [] => []
              | mac0 :: rest => flip_bit_at i k mac0 :: rest
              end)
             (address msg) (message msg)
  | Address =>
      mkNHop (ec_public_key msg) (hmacs msg)
             (flip_bit_at i k (address msg)) (message msg)
  | Message =>
      mkNHop (ec_public_key msg) (hmacs msg)
             (address msg) (flip_bit_at i k (message msg))
  end.

Definition field_length (f : field) (msg : NHopMixMessage EcPt) : nat :=
  match f with
  | Mac0 => length (hd [] (hmacs msg))
  | Address => length (address msg)
  | Message => length (message msg)
  end.

Definition oh_tamper (f : field) (i k : nat) (msg : OneHopMixMessage EcPt) : OneHopMixMessage EcPt :=
  match f with
  | Mac0 =>
      mkOneHop (oh_ec_public_key msg) (flip_bit_at i k (oh_hmac msg))
               (oh_address msg) (oh_message msg)
  | Address =>
      mkOneHop (oh_ec_public_key msg) (oh_hmac msg)
               (flip_bit_at i k (oh_address msg)) (oh_message msg)
  | Message =>
      mkOneHop (oh_ec_public_key msg) (oh_hmac msg)
               (oh_address msg) (flip_bit_at i k (oh_message msg))
  end.

Definition oh_field_length (f : field) (msg : OneHopMixMessage EcPt) : nat :=
  match f with
  | Mac0 => length (oh_hmac msg)
  | Address => length (oh_address msg)
  | Message => length (oh_message msg)
  end.

(** ** A one-hop message as an n-hop message *)

(** The n-hop message with the same public key and fields and the single
    MAC of a one-hop message. *)
Definition as_n_hop (msg : OneHopMixMessage EcPt) : NHopMixMessage EcPt :=
  mkNHop (oh_ec_public_key msg) [oh_hmac msg] (oh_address msg) (oh_message msg).

(** ** Traffic analysis *)

(** The receivers of the rounds in which [target] sends, round after round. *)
Definition suspects_of (trace : list (list Z * list Z)) (target : Z) : list Z :=
  flat_map (fun round => if py_in target (fst round) then snd round else []) trace.

(** How often [x] was a receiver while [target] was sending. *)
Definition score (trace : list (list Z * list Z)) (target x : Z) : Z :=
  Z.of_nat (count_occ Z.eq_dec (suspects_of trace target) x).

(** ** Batches through a cascade *)

(** The client's private key for the hop after relay [r], from the private
    key [x] of this hop. *)
Definition next_private_key (r x : Z) : Z :=
  (from_binary (skipn 48 (sha512 (export (pt_mul x (public_key_of r))))) * x)%Z.

(** A core of the right field sizes, with room for [n] more MACs. *)
Definition core_ok (n : nat) (core : layer) : Prop :=
  length (fst (fst core)) = 258 /\ length (snd (fst core)) = 1002 /\
  (Z.of_nat (n + length (snd core)) <= 65537)%Z.

(** A counter [c] holds the counts of the list [l]: its keys are the
    distinct elements of [l], each with its number of occurrences. *)
Definition counts_of (l : list Z) (c : list (Z * Z)) : Prop :=
  NoDup (map fst c) /\
  (forall x, In x (map fst c) <-> In x l) /\
  (forall x k, In (x, k) c -> k = Z.of_nat (count_occ Z.eq_dec l x)).

(** Counts in decreasing order. *)
Definition count_ge (a b : Z * Z) : Prop := (snd b <= snd a)%Z.

(** ** Generated traces *)

(** The number of rounds of a trace in which [target] is a sender. *)
Definition rounds_of (target : Z) (trace : list (list Z * list Z)) : nat :=
  length (filter (fun round => py_in target (fst round)) trace).

(** A round of the first loop, and a round of the second loop, of
    [generate_trace]. *)
Definition quiet_round (number_of_users threshold_size : Z)
    (round : list Z * list Z) : Prop :=
  is_sample (py_range 1 number_of_users) threshold_size (fst round) /\
  is_sample (py_range 0 number_of_users) threshold_size (snd round).

Definition target_round (number_of_users threshold_size : Z) (targets_friends : list Z)
    (round : list Z * list Z) : Prop :=
  exists s friend r,
    is_sample (py_range 1 number_of_users) (threshold_size - 1) s /\
    In friend targets_friends /\
    is_sample (py_range 0 number_of_users) (threshold_size - 1) r /\
    Permutation (fst round) (0%Z :: s) /\
    Permutation (snd round) (friend :: r).

End Model.

(** * A small instance of the primitives

    The laws of [PrimitivesLaws] hold of the following model: the group of
    integers modulo 257 under addition with generator 1, digests computed
    from the XOR of the input bytes, and a stream cipher that XORs every
    byte with one pad byte derived from key and IV. It is the instance at
    which the theorems above are applied to concrete messages. *)

Definition xor_all (bs : bytes) : byte := fold_right byte_xor x00 bs.

Definition toy_digest (d : bytes) : bytes :=
  map (fun i => byte_of_Z (Z.of_nat i * 7 + 3 * Z_of_byte (xor_all d)
                           + Z.of_nat (length d)))
      (seq 0 64).

Definition toy_hmac (k d : bytes) : bytes :=
  byte_xor (xor_all k) (xor_all d) :: repeat (xor_all k) 63.

Definition toy_pad (k iv : bytes) : byte := byte_xor (xor_all k) (xor_all iv).

#[global] Instance toy : Primitives := {|
  EcPt := Z;
  generator := 1%Z;
  check_point := fun p => ((0 <=? p) && (p <? 257))%Z;
  pt_mul := fun a p => ((a * p) mod 257)%Z;
  export := fun p => [byte_of_Z p; byte_of_Z (p / 256)];
  sha512 := toy_digest;
  hmac_sha512 := toy_hmac;
  enc_update := fun k iv x => map (byte_xor (toy_pad k iv)) x;
  enc_finalize := fun _ _ _ => []
|}.

(** The address [b"alice"] and the message [b"hi"]. *)
Definition alice : bytes := ["a"; "l"; "i"; "c"; "e"]%byte.
Definition hi : bytes := ["h"; "i"]%byte.

(** ** Two messages for one final relay, and two malformed ones *)

Definition bob : bytes := ["b"; "o"; "b"]%byte.

(** Messages to [bob] and to [alice] for the relay with private key 11. *)
Definition to_bob : NHopMixMessage EcPt := encoded 5 [public_key_of 11] bob hi.
Definition to_alice : NHopMixMessage EcPt := encoded 7 [public_key_of 11] alice hi.

(** A message with an empty address ciphertext, and [to_alice] with the
    lowest bit of its MAC flipped. *)
Definition truncated : NHopMixMessage EcPt :=
  mkNHop (public_key_of 5) [zeros 20] [] [].
Definition forged : NHopMixMessage EcPt := tamper Mac0 0 0 to_alice.

(** A message whose two length prefixes are 65535. *)
Definition oversized : NHopMixMessage EcPt :=
  sealed 5 [public_key_of 11]
         (xff :: xff :: repeat "A"%byte 256, xff :: xff :: repeat "B"%byte 1000, []).

(** ** Inputs for the one-hop relay, an overlong MAC list, and traces *)

(** One-hop messages to [bob] and to [alice] for the relay with private
    key 11. *)
Definition oh_to_bob : OneHopMixMessage EcPt := oh_encoded 5 (public_key_of 11) bob hi.
Definition oh_to_alice : OneHopMixMessage EcPt := oh_encoded 7 (public_key_of 11) alice hi.

(** [to_alice] followed by 65537 empty MACs, under the MAC that fits them. *)
Definition padded (mac0 : bytes) : NHopMixMessage EcPt :=
  mkNHop (ec_public_key to_alice) (mac0 :: repeat [] (Z.to_nat 65537))
         (address to_alice) (message to_alice).
Definition overlong : NHopMixMessage EcPt := padded (expected_mac 11 (padded [])).

(** Three rounds; user 0 sends in the first and the last, user 2 receives in
    both. *)
Definition observed : list (list Z * list Z) :=
  [([0; 1], [2; 3]); ([1; 2], [0; 3]); ([0; 3], [1; 2])]%Z.

(** A trace of [generate_trace 4 2 2 [3]]: the round of the second loop
    comes first. *)
Definition generated : list (list Z * list Z) :=
  [([0; 2], [1; 3]); ([1; 3], [0; 2])]%Z.

(** ** The same instance with a MAC that tells nothing apart

    Every MAC is 64 zero bytes. The laws of [PrimitivesLaws] hold of this
    instance too: they ask of the MAC its length only. *)

Definition weak : Primitives := {|
  EcPt := Z;
  generator := 1%Z;
  check_point := fun p => ((0 <=? p) && (p <? 257))%Z;
  pt_mul := fun a p => ((a * p) mod 257)%Z;
  export := fun p => [byte_of_Z p; byte_of_Z (p / 256)];
  sha512 := toy_digest;
  hmac_sha512 := fun _ _ => repeat x00 64;
  enc_update := fun k iv x => map (byte_xor (toy_pad k iv)) x;
  enc_finalize := fun _ _ _ => []
|}.

(** * Proofs *)

#[global] Arguments slice : simpl never.
#[global] Arguments zeros : simpl never.
#[global] Arguments pack_s : simpl never.

Section Proofs.
Context {P : Primitives} {L : PrimitivesLaws P}.

(** ** The monad *)

Lemma bind_ret_l {A B} (a : A) (f : A -> M B) : bind (ret a) f = f a.
Proof. unfold bind, ret. destruct (f a); reflexivity. Qed.

Lemma bind_raise {A B} (e : exn) (f : A -> M B) : bind (raise e) f = raise e.
Proof. reflexivity. Qed.

Lemma value_bind {A B} (m : M A) (f : A -> M B) :
  value (bind m f) =
  match value m with
  | inl e => inl e
  | inr a => value (f a)
  end.
Proof.
  destruct m as [[e | a] out]; simpl; [reflexivity |].
  destruct (f a); reflexivity.
Qed.

Lemma printed_bind {A B} (m : M A) (f : A -> M B) :
  printed (bind m f) =
  match value m with
  | inl _ => printed m
  | inr a => printed m ++ printed (f a)
  end.
Proof.
  destruct m as [[e | a] out]; simpl; [reflexivity |].
  destruct (f a); reflexivity.
Qed.

Lemma bind_print {B} (args : list pyval) (f : unit -> M B) :
  bind (print args) f = (value (f tt), args :: printed (f tt)).
Proof. unfold bind, print. destruct (f tt); reflexivity. Qed.

Lemma bind_value_inr {A B} (m : M A) (f : A -> M B) (a : A) :
  value m = inr a -> value (bind m f) = value (f a).
Proof. intros H. rewrite value_bind, H. reflexivity. Qed.

Lemma bind_value_inl {A B} (m : M A) (f : A -> M B) (e : exn) :
  value m = inl e -> value (bind m f) = inl e.
Proof. intros H. rewrite value_bind, H. reflexivity. Qed.

(** ** Bytes, pack and unpack *)

Lemma Z_of_byte_of_Z (z : Z) : (0 <= z < 256)%Z -> Z_of_byte (byte_of_Z z) = z.
Proof.
  intros Hz. unfold Z_of_byte, byte_of_Z.
  rewrite Z.mod_small by lia.
  destruct (Byte.of_N (Z.to_N z)) as [b |] eqn:E.
  - apply Byte.to_of_N in E. rewrite E. lia.
  - apply Byte.of_N_None_iff in E. lia.
Qed.

Lemma secure_compare_refl (a : bytes) : secure_compare a a = true.
Proof.
  induction a as [| x a IH]; simpl; [reflexivity |].
  rewrite (Byte.byte_dec_lb eq_refl), IH. reflexivity.
Qed.

Lemma secure_compare_eq (a b : bytes) : secure_compare a b = true -> a = b.
Proof.
  revert b. induction a as [| x a IH]; intros [| y b]; simpl; try discriminate.
  - reflexivity.
  - intros H. apply andb_true_iff in H. destruct H as [Hx Hab].
    apply Byte.byte_dec_bl in Hx. subst y. f_equal. apply IH, Hab.
Qed.

Lemma secure_compare_neq (a b : bytes) : a <> b -> secure_compare a b = false.
Proof.
  intros H. destruct (secure_compare a b) eqn:E; [| reflexivity].
  apply secure_compare_eq in E. contradiction.
Qed.

Lemma byte_xor_involutive (k x : byte) : byte_xor k (byte_xor k x) = x.
Proof.
  transitivity (Byte.of_bits (Byte.to_bits x)); [| apply Byte.of_bits_to_bits].
  unfold byte_xor.
  destruct (Byte.to_bits k) as (k0 & k1 & k2 & k3 & k4 & k5 & k6 & k7).
  destruct (Byte.to_bits x) as (x0 & x1 & x2 & x3 & x4 & x5 & x6 & x7).
  rewrite Byte.to_bits_of_bits.
  rewrite <- !xorb_assoc, !xorb_nilpotent, !xorb_false_l. reflexivity.
Qed.

Lemma byte_xor_diag (k : byte) : byte_xor k k = x00.
Proof.
  unfold byte_xor.
  destruct (Byte.to_bits k) as (k0 & k1 & k2 & k3 & k4 & k5 & k6 & k7).
  rewrite !xorb_nilpotent. reflexivity.
Qed.

Lemma flip_bit_neq (k : nat) (b : byte) : k < 8 -> flip_bit k b <> b.
Proof.
  intros Hk H. unfold flip_bit in H.
  assert (E : byte_of_Z (2 ^ Z.of_nat k) = x00).
  { rewrite <- (byte_xor_involutive b (byte_of_Z (2 ^ Z.of_nat k))), H.
    apply byte_xor_diag. }
  do 8 (destruct k as [| k]; [discriminate E |]). lia.
Qed.

Lemma flip_bit_at_length (i k : nat) (bs : bytes) :
  length (flip_bit_at i k bs) = length bs.
Proof.
  revert i. induction bs as [| b bs IH]; intros [| i]; cbn; auto.
Qed.

Lemma flip_bit_at_neq (i k : nat) (bs : bytes) :
  i < length bs -> k < 8 -> flip_bit_at i k bs <> bs.
Proof.
  revert i. induction bs as [| b bs IH]; intros [| i] Hi Hk H; cbn in *; try lia.
  - inversion H. eapply flip_bit_neq; eassumption.
  - inversion H. eapply (IH i); [lia | exact Hk | assumption].
Qed.

Lemma flip_bit_at_app_l (i k : nat) (a b : bytes) :
  i < length a -> flip_bit_at i k (a ++ b) = flip_bit_at i k a ++ b.
Proof.
  revert i. induction a as [| x a IH]; intros [| i] Hi; cbn in *; try lia.
  - reflexivity.
  - rewrite IH by lia. reflexivity.
Qed.

Lemma flip_bit_at_app_r (i k : nat) (a b : bytes) :
  flip_bit_at (length a + i) k (a ++ b) = a ++ flip_bit_at i k b.
Proof.
  induction a as [| x a IH]; cbn; [reflexivity |].
  rewrite IH. reflexivity.
Qed.

Lemma pack_s_length (sz : nat) (s : bytes) : length (pack_s sz s) = sz.
Proof.
  unfold pack_s. rewrite length_app, length_firstn, repeat_length. lia.
Qed.

Lemma firstn_pack_s (sz : nat) (s : bytes) :
  length s <= sz -> firstn (length s) (pack_s sz s) = s.
Proof.
  intros H. unfold pack_s.
  rewrite (firstn_all2 (n := sz) s) by exact H.
  rewrite firstn_app, firstn_all, Nat.sub_diag. simpl. apply app_nil_r.
Qed.

Lemma in_H_of_nat (n : nat) :
  (Z.of_nat n <= 65535)%Z -> in_H (Z.of_nat n) = true.
Proof.
  intros H. unfold in_H. apply andb_true_iff. split; apply Z.leb_le; lia.
Qed.

Lemma envelope_length (sz : nat) (s : bytes) : length (envelope sz s) = 2 + sz.
Proof. unfold envelope. simpl. rewrite pack_s_length. reflexivity. Qed.

Lemma pack_envelope (sz : nat) (s : bytes) :
  (Z.of_nat (length s) <= 65535)%Z ->
  pack_net_H_s sz (Z.of_nat (length s)) s = ret (envelope sz s).
Proof.
  intros H. unfold pack_net_H_s. rewrite in_H_of_nat by exact H. reflexivity.
Qed.

Lemma unpack_open (sz : nat) (buf : bytes) :
  length buf = 2 + sz ->
  exists n field,
    unpack_net_H_s sz buf = ret (n, field) /\
    length field = sz /\
    firstn n field = open_envelope buf.
Proof.
  intros H. unfold unpack_net_H_s.
  replace (length buf =? 2 + sz) with true by (symmetry; apply Nat.eqb_eq; exact H).
  destruct buf as [| hi [| lo field]]; try discriminate.
  eexists. eexists. split; [reflexivity |]. split.
  - simpl in H. lia.
  - reflexivity.
Qed.

Lemma open_envelope_length (sz : nat) (buf : bytes) :
  length buf = 2 + sz -> length (open_envelope buf) <= sz.
Proof.
  intros H. destruct buf as [| hi [| lo field]]; try discriminate.
  simpl in *. rewrite length_firstn. lia.
Qed.

Lemma open_envelope_envelope (sz : nat) (s : bytes) :
  length s <= sz -> (Z.of_nat sz <= 65535)%Z ->
  open_envelope (envelope sz s) = s.
Proof.
  intros Hs Hsz. unfold open_envelope, envelope.
  set (n := Z.of_nat (length s)).
  assert (Hn : (0 <= n < 65536)%Z) by lia.
  rewrite !Z_of_byte_of_Z.
  - replace (n / 256 * 256 + n mod 256)%Z with n.
    + unfold n. rewrite Nat2Z.id. apply firstn_pack_s. exact Hs.
    + rewrite (Z.div_mod n 256) at 1 by lia. lia.
  - apply Z.mod_pos_bound. lia.
  - split; [apply Z.div_pos; lia | apply Z.div_lt_upper_bound; lia].
Qed.

Lemma pack_H14s_ok (j : nat) :
  (Z.of_nat j <= 65535)%Z ->
  exists iv, pack_H14s (Z.of_nat j) (zeros 14) = ret iv /\ length iv = 16.
Proof.
  intros Hj. unfold pack_H14s. rewrite in_H_of_nat by lia.
  eexists. split; [reflexivity |]. simpl. reflexivity.
Qed.

Lemma slice_length {A} (a b : nat) (l : list A) :
  b <= length l -> length (slice a b l) = b - a.
Proof.
  intros H. unfold slice. rewrite length_firstn, length_skipn. lia.
Qed.

(** ** The loops over the MAC list *)

Lemma position_iv_length (j : nat) : length (position_iv j) = 16.
Proof. reflexivity. Qed.

Lemma pack_H14s_position (j : nat) :
  (Z.of_nat j <= 65535)%Z -> pack_H14s (Z.of_nat j) (zeros 14) = ret (position_iv j).
Proof.
  intros Hj. unfold pack_H14s. rewrite in_H_of_nat by exact Hj. reflexivity.
Qed.

Lemma crypt_hmacs_length (k : bytes) (j : nat) (macs : list bytes) :
  length (crypt_hmacs k j macs) = length macs.
Proof.
  revert j. induction macs as [| mac rest IH]; intros j; simpl; [reflexivity |].
  rewrite IH. reflexivity.
Qed.

Lemma crypt_hmacs_involutive (k : bytes) (j : nat) (macs : list bytes) :
  length k = 16 -> crypt_hmacs k j (crypt_hmacs k j macs) = macs.
Proof.
  intros Hk. revert j. induction macs as [| mac rest IH]; intros j; simpl.
  - reflexivity.
  - rewrite aes_ctr_involutive by (exact Hk || apply position_iv_length).
    rewrite IH. reflexivity.
Qed.

Lemma crypt_hmacs_entry_length (k : bytes) (j : nat) (macs : list bytes) :
  length k = 16 ->
  Forall (fun mac => length mac = 20) macs ->
  Forall (fun mac => length mac = 20) (crypt_hmacs k j macs).
Proof.
  intros Hk H. revert j. induction H as [| mac rest Hmac Hrest IH]; intros j; simpl.
  - constructor.
  - constructor; [| apply IH].
    rewrite aes_ctr_length by (exact Hk || apply position_iv_length). exact Hmac.
Qed.

(** The relay's loop over [msg.hmacs[1:]]. *)
Lemma decrypt_hmacs_eq (k : bytes) (others : list bytes) :
  forall (i : nat) (acc : list bytes),
    (Z.of_nat (i + length others) <= 65536)%Z ->
    decrypt_hmacs k i others acc = ret (acc ++ crypt_hmacs k i others).
Proof.
  induction others as [| mac rest IH]; intros i acc Hb; simpl.
  - rewrite app_nil_r. reflexivity.
  - simpl in Hb. rewrite pack_H14s_position by lia. rewrite bind_ret_l.
    rewrite IH by (simpl; lia). rewrite <- app_assoc. reflexivity.
Qed.

(** Past position 65535 the positional IV cannot be packed. *)
Lemma decrypt_hmacs_overflow (k : bytes) (others : list bytes) :
  forall (i : nat) (acc : list bytes),
    (Z.of_nat i <= 65536)%Z ->
    (65536 < Z.of_nat (i + length others))%Z ->
    decrypt_hmacs k i others acc = raise StructError.
Proof.
  induction others as [| mac rest IH]; intros i acc Hi Hb; simpl.
  - simpl in Hb. lia.
  - simpl in Hb. unfold pack_H14s.
    destruct (in_H (Z.of_nat i)) eqn:E; [| reflexivity].
    rewrite bind_ret_l.
    unfold in_H in E. apply andb_true_iff in E. destruct E as [_ E].
    apply Z.leb_le in E. apply IH; simpl; lia.
Qed.

Lemma fold_left_update (macs : list bytes) (h : Hmac) :
  fold_left update macs h = mkHmac (hkey h) (hdata h ++ concat macs).
Proof.
  revert h. induction macs as [| mac rest IH]; intros h; simpl.
  - rewrite app_nil_r. destruct h; reflexivity.
  - rewrite IH. simpl. rewrite <- app_assoc. reflexivity.
Qed.

(** The digest of an [Hmac] object fed a list of MACs, then the address,
    then the message. *)
Lemma digest_updates (k : bytes) (macs : list bytes) (a m : bytes) :
  digest (update (update (fold_left update macs (Hmac_new k)) a) m)
  = hmac_sha512 k (concat macs ++ a ++ m).
Proof.
  rewrite fold_left_update. unfold digest, update, Hmac_new. simpl.
  rewrite <- app_assoc. reflexivity.
Qed.

(** The client's loop over [hmacs[:counter]]: the entries of [snapshot] are
    replaced, in place, by their ciphertexts, which are fed to [h]. *)
Lemma encrypt_hmacs_eq (k : bytes) (snapshot : list bytes) :
  forall (j : nat) (done : list bytes) (h : Hmac),
    length done = j ->
    (Z.of_nat (j + length snapshot) <= 65536)%Z ->
    encrypt_hmacs k j snapshot h (done ++ snapshot)
    = ret (fold_left update (crypt_hmacs k j snapshot) h,
           done ++ crypt_hmacs k j snapshot).
Proof.
  induction snapshot as [| mac rest IH]; intros j done h Hd Hb; simpl.
  - reflexivity.
  - simpl in Hb. rewrite pack_H14s_position by lia. rewrite bind_ret_l.
    unfold list_pop.
    replace (j <? length (done ++ mac :: rest)) with true.
    2:{ symmetry. apply Nat.ltb_lt. rewrite length_app. simpl. lia. }
    rewrite bind_ret_l. unfold list_insert.
    assert (E1 : firstn j (done ++ mac :: rest) = done).
    { subst j. rewrite firstn_app, firstn_all, Nat.sub_diag. simpl. apply app_nil_r. }
    assert (E2 : skipn (S j) (done ++ mac :: rest) = rest).
    { subst j. rewrite skipn_app, skipn_all2 by lia.
      replace (S (length done) - length done) with 1 by lia. reflexivity. }
    rewrite E1, E2.
    assert (E3 : firstn j (done ++ rest) = done).
    { subst j. rewrite firstn_app, firstn_all, Nat.sub_diag. simpl. apply app_nil_r. }
    assert (E4 : skipn j (done ++ rest) = rest).
    { subst j. rewrite skipn_app, skipn_all, Nat.sub_diag. reflexivity. }
    rewrite E3, E4.
    set (c := aes_ctr_enc_dec k (position_iv j) mac).
    replace (done ++ c :: rest) with ((done ++ [c]) ++ rest)
      by (rewrite <- app_assoc; reflexivity).
    rewrite IH.
    + rewrite <- app_assoc. reflexivity.
    + rewrite length_app. simpl. lia.
    + lia.
Qed.

(** ** The client's reverse loop *)

Lemma wrap_hmacs_length (km : bytes) (inner : layer) :
  length (snd (wrap km inner)) = S (length (snd inner)).
Proof.
  destruct inner as [[a m] hs]. simpl. rewrite crypt_hmacs_length. reflexivity.
Qed.

Lemma onion_hmacs_length (kms : list bytes) (core : layer) :
  length (snd (onion kms core)) = length kms + length (snd core).
Proof.
  induction kms as [| km rest IH]; simpl; [reflexivity |].
  rewrite wrap_hmacs_length, IH. reflexivity.
Qed.

Lemma layering_body_value (n i : nat) (km : bytes) (inner : layer) :
  (Z.of_nat (length (snd inner)) <= 65536)%Z ->
  value (layering_body n (inner, length (snd inner)) (i, km))
  = inr (wrap km inner, S (length (snd inner))).
Proof.
  destruct inner as [[a m] hs]. simpl. intros Hb.
  rewrite firstn_all.
  pose proof (encrypt_hmacs_eq (slice 0 16 km) hs 0 [] (Hmac_new (slice 0 16 km))
                eq_refl Hb) as E.
  simpl in E. rewrite E. rewrite bind_ret_l.
  unfold value, list_insert. simpl.
  rewrite digest_updates. reflexivity.
Qed.

Lemma layering_value (n : nat) (items : list (nat * bytes)) :
  forall (inner : layer),
    (Z.of_nat (length (snd inner) + length items) <= 65537)%Z ->
    value (layering n items (inner, length (snd inner)))
    = inr (fold_left (fun l item => wrap (snd item) l) items inner,
           length (snd inner) + length items).
Proof.
  induction items as [| [i km] rest IH]; intros inner Hb; simpl.
  - rewrite Nat.add_0_r. reflexivity.
  - simpl in Hb.
    rewrite (bind_value_inr _ _ _ (layering_body_value n i km inner ltac:(lia))).
    rewrite <- wrap_hmacs_length with (km := km).
    rewrite IH.
    + rewrite wrap_hmacs_length. f_equal. f_equal. lia.
    + rewrite wrap_hmacs_length. lia.
Qed.

Lemma map_snd_enumerate {A} (l : list A) : map snd (enumerate l) = l.
Proof.
  unfold enumerate. generalize 0.
  induction l as [| x l IH]; intros k; simpl; [reflexivity |].
  rewrite IH. reflexivity.
Qed.

Lemma enumerate_length {A} (l : list A) : length (enumerate l) = length l.
Proof.
  unfold enumerate. rewrite length_combine, length_seq. lia.
Qed.

Lemma layering_onion (kms : list bytes) (a m : bytes) :
  (Z.of_nat (length kms) <= 65537)%Z ->
  value (layering (length kms) (rev (enumerate kms)) (a, m, [], 0))
  = inr (onion kms (a, m, []), length kms).
Proof.
  intros Hb.
  etransitivity.
  - apply (layering_value (length kms) (rev (enumerate kms)) (a, m, [])).
    simpl. rewrite length_rev, enumerate_length. exact Hb.
  - simpl. rewrite length_rev, enumerate_length. f_equal. f_equal.
    rewrite <- fold_left_rev_right, rev_involutive. unfold onion.
    rewrite <- (map_snd_enumerate kms) at 2.
    generalize (enumerate kms). intros l.
    induction l as [| x l IH]; simpl; [reflexivity |].
    rewrite IH. reflexivity.
Qed.

(** ** The client's forward loop *)

Lemma client_key_materials_length (priv : Z) (pubs : list EcPt) :
  length (client_key_materials priv pubs) = length pubs.
Proof.
  revert priv. induction pubs as [| pk rest IH]; intros priv; simpl; [reflexivity |].
  rewrite IH. reflexivity.
Qed.

Lemma key_schedule_eq (pubs : list EcPt) :
  forall (i : nat) (kms : list bytes) (privs : list Z) (priv : Z),
    length privs = i ->
    key_schedule i pubs kms (privs ++ [priv])
    = ret (kms ++ client_key_materials priv pubs,
           privs ++ priv :: client_private_keys priv pubs).
Proof.
  induction pubs as [| pk rest IH]; intros i kms privs priv Hi;
    cbn [key_schedule client_key_materials client_private_keys].
  - rewrite app_nil_r. reflexivity.
  - unfold index. subst i.
    rewrite nth_error_app2 by lia. rewrite Nat.sub_diag. cbn [nth_error].
    rewrite bind_ret_l.
    rewrite IH by (rewrite length_app; simpl; lia).
    rewrite <- !app_assoc. reflexivity.
Qed.

Lemma mix_client_n_hop_value (private_key : Z) (public_keys : list EcPt)
    (address message : bytes) :
  length address <= 256 ->
  length message <= 1000 ->
  (Z.of_nat (length public_keys) <= 65537)%Z ->
  value (mix_client_n_hop private_key public_keys address message)
  = inr (encoded private_key public_keys address message).
Proof.
  intros Ha Hm Hn. unfold mix_client_n_hop.
  replace (length address <=? 256) with true by (symmetry; apply Nat.leb_le; exact Ha).
  replace (length message <=? 1000) with true by (symmetry; apply Nat.leb_le; exact Hm).
  unfold py_assert. rewrite !bind_ret_l.
  rewrite !pack_envelope by lia. rewrite !bind_ret_l.
  pose proof (key_schedule_eq public_keys 0 [] [] private_key eq_refl) as E.
  simpl in E. rewrite E. rewrite bind_ret_l.
  rewrite value_bind, layering_onion
    by (rewrite client_key_materials_length; exact Hn).
  unfold encoded.
  destruct (onion _ _) as [[a m] hs]. reflexivity.
Qed.

(** ** The relay's loop body, outcome by outcome *)

Lemma relay_key_material_length (r : Z) (pk : EcPt) :
  length (relay_key_material r pk) = 64.
Proof. apply sha512_length. Qed.

Lemma key_slices_length (km : bytes) :
  length km = 64 ->
  length (slice 0 16 km) = 16 /\ length (slice 16 32 km) = 16
  /\ length (slice 32 48 km) = 16.
Proof.
  intros H. repeat split; rewrite slice_length; rewrite ?H; lia.
Qed.

Lemma body_invalid_point (r : Z) (final : bool) (msg : NHopMixMessage EcPt) :
  check_point (ec_public_key msg) = false ->
  mix_server_n_hop_body r final msg = raise MalformedInput.
Proof.
  intros H. unfold mix_server_n_hop_body. rewrite H. reflexivity.
Qed.

Lemma body_no_hmacs (r : Z) (final : bool) (msg : NHopMixMessage EcPt) :
  check_point (ec_public_key msg) = true ->
  hmacs msg = [] ->
  mix_server_n_hop_body r final msg = raise IndexError.
Proof.
  intros H1 H2. unfold mix_server_n_hop_body. rewrite H1, H2. reflexivity.
Qed.

Lemma body_bad_length (r : Z) (final : bool) (msg : NHopMixMessage EcPt) :
  hmacs msg <> [] ->
  format_ok msg = false ->
  mix_server_n_hop_body r final msg = raise MalformedInput.
Proof.
  intros Hne Hf. unfold mix_server_n_hop_body, format_ok in *.
  destruct (check_point (ec_public_key msg)); [| reflexivity].
  destruct (hmacs msg) as [| mac0 rest]; [contradiction |].
  cbn [negb index nth_error]. rewrite bind_ret_l.
  destruct (length mac0 =? 20), (length (address msg) =? 258),
    (length (message msg) =? 1002); try discriminate; reflexivity.
Qed.

Ltac enter_body Hf :=
  unfold mix_server_n_hop_body, format_ok in *;
  destruct (check_point (ec_public_key _)); [| discriminate Hf];
  destruct (length (address _) =? 258); [| rewrite !andb_false_r in Hf; discriminate Hf];
  destruct (length (message _) =? 1002); [| rewrite !andb_false_r in Hf; discriminate Hf].

Lemma body_mac_failure (r : Z) (final : bool) (msg : NHopMixMessage EcPt) :
  format_ok msg = true ->
  mac_ok r msg = false ->
  mix_server_n_hop_body r final msg = (inl HmacCheckFailure, [server_line r msg]).
Proof.
  intros Hf Hm. unfold mac_ok, server_line, expected_mac, relay_key_material in *.
  enter_body Hf.
  destruct (hmacs msg) as [| mac0 rest] eqn:Hh; [discriminate Hf |].
  cbn [index nth_error]. rewrite !bind_ret_l.
  destruct (length mac0 =? 20); [| discriminate Hf].
  cbn [negb orb]. rewrite ?bind_ret_l. cbv zeta.
  rewrite bind_print, ?bind_ret_l, digest_updates.
  cbn [skipn] in *. rewrite Hm. reflexivity.
Qed.

Lemma body_accepted (r : Z) (final : bool) (msg : NHopMixMessage EcPt) :
  format_ok msg = true ->
  mac_ok r msg = true ->
  (Z.of_nat (length (hmacs msg)) <= 65537)%Z ->
  mix_server_n_hop_body r final msg
  = (inr (if final then Deliver (delivered r msg) else Forward (peeled r msg)),
     [server_line r msg]).
Proof.
  intros Hf Hm Hb.
  assert (Hlen : length (address msg) = 258 /\ length (message msg) = 1002).
  { unfold format_ok in Hf. rewrite !andb_true_iff in Hf.
    destruct Hf as [[_ Ha] Hmsg]. split; apply Nat.eqb_eq; assumption. }
  destruct Hlen as [Hla Hlm].
  unfold mac_ok, server_line, delivered, peeled, expected_mac in *.
  pose proof (key_slices_length _ (relay_key_material_length r (ec_public_key msg)))
    as (Hk1 & Hk2 & Hk3).
  unfold relay_key_material in *.
  enter_body Hf.
  destruct (hmacs msg) as [| mac0 rest] eqn:Hh; [discriminate Hf |].
  cbn [index nth_error]. rewrite !bind_ret_l.
  destruct (length mac0 =? 20); [| discriminate Hf].
  cbn [negb orb]. rewrite ?bind_ret_l. cbv zeta.
  rewrite bind_print, ?bind_ret_l, digest_updates.
  cbn [skipn length] in *. rewrite Hm. cbn [negb].
  rewrite decrypt_hmacs_eq by (cbn [Nat.add]; lia).
  rewrite bind_ret_l. cbn [app].
  destruct final; [| reflexivity].
  destruct (unpack_open 256 (aes_ctr_enc_dec
              (slice 16 32 (sha512 (export (pt_mul r (ec_public_key msg)))))
              (zeros 16) (address msg))) as (n1 & f1 & E1 & _ & T1).
  { rewrite aes_ctr_length by (assumption || reflexivity). exact Hla. }
  destruct (unpack_open 1000 (aes_ctr_enc_dec
              (slice 32 48 (sha512 (export (pt_mul r (ec_public_key msg)))))
              (zeros 16) (message msg))) as (n2 & f2 & E2 & _ & T2).
  { rewrite aes_ctr_length by (assumption || reflexivity). exact Hlm. }
  rewrite E1, bind_ret_l, E2, bind_ret_l. cbn [address message].
  rewrite T1, T2. reflexivity.
Qed.

(** ** Batches *)

Lemma loop_cons_value (r : Z) (final : bool) (msg : NHopMixMessage EcPt)
    (rest : list (NHopMixMessage EcPt)) (acc : list (out_msg EcPt)) :
  value (mix_server_n_hop_loop r final (msg :: rest) acc) =
  match value (mix_server_n_hop_body r final msg) with
  | inl e => inl e
  | inr out => value (mix_server_n_hop_loop r final rest (acc ++ [out]))
  end.
Proof. cbn [mix_server_n_hop_loop]. apply value_bind. Qed.

(** When every message of the batch decodes, the outputs come out in
    arrival order. *)
Lemma loop_all_decoded (r : Z) (final : bool) (batch : list (NHopMixMessage EcPt))
    (outs : list (out_msg EcPt)) :
  Forall2 (fun msg out => value (mix_server_n_hop_body r final msg) = inr out)
          batch outs ->
  forall acc, value (mix_server_n_hop_loop r final batch acc) = inr (acc ++ outs).
Proof.
  induction 1 as [| msg out batch outs Hm _ IH]; intros acc.
  - rewrite app_nil_r. reflexivity.
  - rewrite loop_cons_value, Hm, IH, <- app_assoc. reflexivity.
Qed.

(** The first message that fails ends the loop with its exception. *)
Lemma loop_first_failure (r : Z) (final : bool) (good : list (NHopMixMessage EcPt))
    (outs : list (out_msg EcPt)) (bad : NHopMixMessage EcPt) (rest : list (NHopMixMessage EcPt))
    (e : exn) :
  Forall2 (fun msg out => value (mix_server_n_hop_body r final msg) = inr out)
          good outs ->
  value (mix_server_n_hop_body r final bad) = inl e ->
  forall acc, value (mix_server_n_hop_loop r final (good ++ bad :: rest) acc) = inl e.
Proof.
  intros Hg Hb. induction Hg as [| msg out good outs Hm _ IH]; intros acc.
  - cbn [app]. rewrite loop_cons_value, Hb. reflexivity.
  - cbn [app]. rewrite loop_cons_value, Hm. apply IH.
Qed.

Lemma mix_server_n_hop_single (r : Z) (final : bool) (msg : NHopMixMessage EcPt)
    (out : out_msg EcPt) :
  value (mix_server_n_hop_body r final msg) = inr out ->
  value (mix_server_n_hop r [msg] final) = inr [out].
Proof.
  intros H. unfold mix_server_n_hop.
  apply (loop_all_decoded r final [msg] [out]). constructor; [exact H | constructor].
Qed.

(** ** A message through its cascade *)

Lemma encoded_sealed (x : Z) (pubs : list EcPt) (a m : bytes) :
  encoded x pubs a m = sealed x pubs (envelope 256 a, envelope 1000 m, []).
Proof. reflexivity. Qed.

Lemma check_point_public (x : Z) : check_point (pt_mul x generator) = true.
Proof. apply check_point_mul, check_point_generator. Qed.

(** Both ends of a hop derive the same shared element. *)
Lemma shared_element_agree (client_priv relay_priv : Z) :
  pt_mul relay_priv (pt_mul client_priv generator)
  = pt_mul client_priv (public_key_of relay_priv).
Proof.
  unfold public_key_of. rewrite !pt_mul_mul. f_equal. apply Z.mul_comm.
Qed.

Lemma wrap_lengths (km : bytes) (inner : layer) :
  length km = 64 ->
  length (fst (fst (wrap km inner))) = length (fst (fst inner)) /\
  length (snd (fst (wrap km inner))) = length (snd (fst inner)).
Proof.
  intros Hk. destruct (key_slices_length km Hk) as (_ & H2 & H3).
  destruct inner as [[a m] hs]. cbn [wrap fst snd].
  split; apply aes_ctr_length; assumption || reflexivity.
Qed.

Lemma client_key_materials_64 (x : Z) (pubs : list EcPt) :
  Forall (fun km => length km = 64) (client_key_materials x pubs).
Proof.
  revert x. induction pubs as [| pk rest IH]; intros x; cbn [client_key_materials].
  - constructor.
  - constructor; [apply sha512_length | apply IH].
Qed.

Lemma onion_lengths (kms : list bytes) (core : layer) :
  Forall (fun km => length km = 64) kms ->
  length (fst (fst (onion kms core))) = length (fst (fst core)) /\
  length (snd (fst (onion kms core))) = length (snd (fst core)).
Proof.
  induction 1 as [| km rest Hk _ IH]; cbn [onion fold_right].
  - split; reflexivity.
  - destruct (wrap_lengths km (fold_right wrap core rest) Hk) as [E1 E2].
    rewrite E1, E2. exact IH.
Qed.

Lemma sealed_lengths (x : Z) (pubs : list EcPt) (core : layer) :
  length (hmacs (sealed x pubs core)) = length pubs + length (snd core) /\
  length (address (sealed x pubs core)) = length (fst (fst core)) /\
  length (message (sealed x pubs core)) = length (snd (fst core)).
Proof.
  unfold sealed.
  pose proof (onion_hmacs_length (client_key_materials x pubs) core) as Hh.
  pose proof (onion_lengths _ core (client_key_materials_64 x pubs)) as [Ha Hm].
  rewrite client_key_materials_length in Hh.
  destruct (onion _ _) as [[a m] hs]. cbn in *. auto.
Qed.

(** The relay whose key pair the outermost layer was built for accepts the
    message and strips exactly that layer; the public key it passes on is
    the one of the client's next private key. *)
Lemma peel_sealed (x r : Z) (pubs : list EcPt) (core : layer) :
  length (fst (fst core)) = 258 ->
  length (snd (fst core)) = 1002 ->
  let msg := sealed x (public_key_of r :: pubs) core in
  let km := sha512 (export (pt_mul x (public_key_of r))) in
  format_ok msg = true /\
  mac_ok r msg = true /\
  peeled r msg = sealed (from_binary (skipn 48 km) * x)%Z pubs core.
Proof.
  intros Ha Hm msg km.
  pose proof (sealed_lengths (from_binary (skipn 48 km) * x)%Z pubs core)
    as (_ & Hla & Hlm).
  subst msg. unfold sealed in *.
  cbn [client_key_materials onion fold_right]. fold km.
  fold (onion (client_key_materials (from_binary (skipn 48 km) * x) pubs) core) in *.
  destruct (onion _ core) as [[a m] hs] eqn:Eo.
  cbn [address message] in Hla, Hlm.
  assert (Hk : length km = 64) by apply sha512_length.
  destruct (key_slices_length km Hk) as (Hk1 & Hk2 & Hk3).
  cbn [wrap].
  assert (Ekm : relay_key_material r (pt_mul x generator) = km).
  { unfold relay_key_material, km. rewrite shared_element_agree. reflexivity. }
  split; [| split].
  - unfold format_ok. cbn [ec_public_key hmacs address message].
    rewrite check_point_public.
    rewrite !aes_ctr_length by (assumption || reflexivity).
    rewrite length_firstn, hmac_sha512_length, Hla, Hlm, Ha, Hm. reflexivity.
  - unfold mac_ok, expected_mac. cbn [ec_public_key hmacs address message skipn].
    rewrite Ekm. apply secure_compare_refl.
  - unfold peeled. cbn [ec_public_key hmacs address message skipn].
    rewrite Ekm.
    rewrite crypt_hmacs_involutive by exact Hk1.
    rewrite !aes_ctr_involutive by (assumption || reflexivity).
    rewrite pt_mul_mul. reflexivity.
Qed.

Lemma cascade_sealed (rs : list Z) :
  forall (x : Z) (core : layer),
    rs <> [] ->
    length (fst (fst core)) = 258 ->
    length (snd (fst core)) = 1002 ->
    (Z.of_nat (length rs + length (snd core)) <= 65537)%Z ->
    value (cascade rs [sealed x (map public_key_of rs) core])
    = inr [Deliver (open_envelope (fst (fst core)), open_envelope (snd (fst core)))].
Proof.
  induction rs as [| r rest IH]; intros x core Hne Ha Hm Hb; [contradiction |].
  cbn [map].
  destruct (peel_sealed x r (map public_key_of rest) core Ha Hm) as (Hf & Hmac & Hp).
  pose proof (sealed_lengths x (public_key_of r :: map public_key_of rest) core)
    as (Hl & _ & _).
  cbn [length] in Hl, Hb. rewrite length_map in Hl.
  destruct rest as [| r' rest'].
  - cbn [cascade]. apply mix_server_n_hop_single.
    rewrite body_accepted by (assumption || lia).
    unfold delivered. rewrite Hp.
    unfold sealed. cbn [map client_key_materials onion fold_right].
    destruct core as [[a m] hs]. reflexivity.
  - cbn [cascade].
    rewrite (bind_value_inr _ _ [Forward (peeled r (sealed x (public_key_of r
               :: map public_key_of (r' :: rest')) core))]).
    + cbn [forwarded flat_map app]. rewrite Hp. apply IH.
      * discriminate.
      * exact Ha.
      * exact Hm.
      * cbn [length] in *. lia.
    + apply mix_server_n_hop_single.
      rewrite body_accepted by (assumption || lia). reflexivity.
Qed.

(** A message passed through the first relays [rs1] of its cascade
    [rs1 ++ rs2]: what arrives at the next relay is the message the client
    would build for [rs2] from the private key of that hop. *)
Lemma relay_chain_sealed (rs1 : list Z) :
  forall (rs2 : list Z) (x : Z) (core : layer),
    length (fst (fst core)) = 258 ->
    length (snd (fst core)) = 1002 ->
    (Z.of_nat (length rs1 + length rs2 + length (snd core)) <= 65537)%Z ->
    exists x',
      nth_error (x :: client_private_keys x (map public_key_of (rs1 ++ rs2)))
                (length rs1) = Some x' /\
      value (relay_chain rs1 [sealed x (map public_key_of (rs1 ++ rs2)) core])
      = inr [sealed x' (map public_key_of rs2) core].
Proof.
  induction rs1 as [| r rest IH]; intros rs2 x core Ha Hm Hb.
  - exists x. split; reflexivity.
  - cbn [app map relay_chain].
    destruct (peel_sealed x r (map public_key_of (rest ++ rs2)) core Ha Hm)
      as (Hf & Hmac & Hp).
    pose proof (sealed_lengths x (public_key_of r :: map public_key_of (rest ++ rs2)) core)
      as (Hl & _ & _).
    cbn [length] in Hl, Hb. rewrite length_map, length_app in Hl.
    destruct (IH rs2 (from_binary (skipn 48 (sha512 (export (pt_mul x (public_key_of r)))))
                      * x)%Z core Ha Hm ltac:(lia)) as (x' & Hn & Hx').
    exists x'. split.
    + cbn [client_private_keys length nth_error]. exact Hn.
    + rewrite (bind_value_inr _ _ [Forward (peeled r (sealed x (public_key_of r
                 :: map public_key_of (rest ++ rs2)) core))]).
      * cbn [forwarded flat_map app]. rewrite Hp. exact Hx'.
      * apply mix_server_n_hop_single.
        rewrite body_accepted by (assumption || lia). reflexivity.
Qed.

(** ** The one-hop mix *)

Lemma oh_body_malformed (r : Z) (msg : OneHopMixMessage EcPt) :
  oh_format_ok msg = false ->
  mix_server_one_hop_body r msg = raise MalformedInput.
Proof.
  unfold oh_format_ok, mix_server_one_hop_body. intros H.
  destruct (check_point _), (length (oh_hmac msg) =? 20),
    (length (oh_address msg) =? 258), (length (oh_message msg) =? 1002);
    try discriminate H; reflexivity.
Qed.

Lemma oh_body_mac_failure (r : Z) (msg : OneHopMixMessage EcPt) :
  oh_format_ok msg = true ->
  secure_compare (oh_hmac msg) (oh_expected_mac r msg) = false ->
  mix_server_one_hop_body r msg = raise HmacCheckFailure.
Proof.
  unfold oh_format_ok, oh_expected_mac, relay_key_material, mix_server_one_hop_body.
  intros Hf Hm.
  destruct (check_point _), (length (oh_hmac msg) =? 20),
    (length (oh_address msg) =? 258), (length (oh_message msg) =? 1002);
    try discriminate Hf.
  cbn [negb orb]. cbv zeta.
  unfold digest, update, Hmac_new. cbn [hkey hdata app].
  rewrite Hm. reflexivity.
Qed.

Lemma oh_body_accepted (r : Z) (msg : OneHopMixMessage EcPt) :
  oh_format_ok msg = true ->
  secure_compare (oh_hmac msg) (oh_expected_mac r msg) = true ->
  mix_server_one_hop_body r msg = ret (oh_delivered r msg).
Proof.
  intros Hf Hm.
  assert (Hlen : length (oh_address msg) = 258 /\ length (oh_message msg) = 1002).
  { unfold oh_format_ok in Hf. rewrite !andb_true_iff in Hf.
    destruct Hf as [[_ Ha] Hmsg]. split; apply Nat.eqb_eq; assumption. }
  destruct Hlen as [Hla Hlm].
  pose proof (key_slices_length _ (relay_key_material_length r (oh_ec_public_key msg)))
    as (Hk1 & Hk2 & Hk3).
  unfold oh_format_ok, oh_expected_mac, oh_delivered, relay_key_material,
    mix_server_one_hop_body in *.
  destruct (check_point _), (length (oh_hmac msg) =? 20),
    (length (oh_address msg) =? 258), (length (oh_message msg) =? 1002);
    try discriminate Hf.
  cbn [negb orb]. cbv zeta.
  unfold digest, update, Hmac_new. cbn [hkey hdata app].
  rewrite Hm. cbn [negb].
  destruct (unpack_open 256 (aes_ctr_enc_dec
              (slice 16 32 (sha512 (export (pt_mul r (oh_ec_public_key msg)))))
              (zeros 16) (oh_address msg))) as (n1 & f1 & E1 & _ & T1).
  { rewrite aes_ctr_length by (assumption || reflexivity). exact Hla. }
  destruct (unpack_open 1000 (aes_ctr_enc_dec
              (slice 32 48 (sha512 (export (pt_mul r (oh_ec_public_key msg)))))
              (zeros 16) (oh_message msg))) as (n2 & f2 & E2 & _ & T2).
  { rewrite aes_ctr_length by (assumption || reflexivity). exact Hlm. }
  rewrite E1, bind_ret_l, E2, bind_ret_l, T1, T2. reflexivity.
Qed.

Lemma oh_loop_cons_value (r : Z) (msg : OneHopMixMessage EcPt)
    (rest : list (OneHopMixMessage EcPt)) (acc : list (bytes * bytes)) :
  value (mix_server_one_hop_loop r (msg :: rest) acc) =
  match value (mix_server_one_hop_body r msg) with
  | inl e => inl e
  | inr out => value (mix_server_one_hop_loop r rest (acc ++ [out]))
  end.
Proof. cbn [mix_server_one_hop_loop]. apply value_bind. Qed.

Lemma oh_loop_all_decoded (r : Z) (batch : list (OneHopMixMessage EcPt))
    (outs : list (bytes * bytes)) :
  Forall2 (fun msg out => value (mix_server_one_hop_body r msg) = inr out) batch outs ->
  forall acc, value (mix_server_one_hop_loop r batch acc) = inr (acc ++ outs).
Proof.
  induction 1 as [| msg out batch outs Hm _ IH]; intros acc.
  - rewrite app_nil_r. reflexivity.
  - rewrite oh_loop_cons_value, Hm, IH, <- app_assoc. reflexivity.
Qed.

Lemma oh_loop_first_failure (r : Z) (good : list (OneHopMixMessage EcPt))
    (outs : list (bytes * bytes)) (bad : OneHopMixMessage EcPt)
    (rest : list (OneHopMixMessage EcPt)) (e : exn) :
  Forall2 (fun msg out => value (mix_server_one_hop_body r msg) = inr out) good outs ->
  value (mix_server_one_hop_body r bad) = inl e ->
  forall acc, value (mix_server_one_hop_loop r (good ++ bad :: rest) acc) = inl e.
Proof.
  intros Hg Hb. induction Hg as [| msg out good outs Hm _ IH]; intros acc.
  - cbn [app]. rewrite oh_loop_cons_value, Hb. reflexivity.
  - cbn [app]. rewrite oh_loop_cons_value, Hm. apply IH.
Qed.

(** The loop either raises or returns one output per message. *)
Lemma oh_loop_inversion (r : Z) (batch : list (OneHopMixMessage EcPt)) :
  forall (acc queue : list (bytes * bytes)),
    value (mix_server_one_hop_loop r batch acc) = inr queue ->
    exists outs,
      queue = acc ++ outs /\
      Forall2 (fun msg out => value (mix_server_one_hop_body r msg) = inr out)
              batch outs.
Proof.
  induction batch as [| msg rest IH]; intros acc queue H.
  - exists []. cbn in H. inversion H. rewrite app_nil_r. split; constructor.
  - rewrite oh_loop_cons_value in H.
    destruct (value (mix_server_one_hop_body r msg)) as [e | out] eqn:E;
      [discriminate |].
    destruct (IH _ _ H) as (outs & Hq & Hall).
    exists (out :: outs). split.
    + rewrite Hq, <- app_assoc. reflexivity.
    + constructor; assumption.
Qed.

Lemma mix_server_one_hop_value (r : Z) (batch : list (OneHopMixMessage EcPt)) :
  value (mix_server_one_hop r batch) =
  match value (mix_server_one_hop_loop r batch []) with
  | inl e => inl e
  | inr queue => inr (sorted queue)
  end.
Proof. unfold mix_server_one_hop. rewrite value_bind. reflexivity. Qed.

Lemma mix_client_one_hop_eq (private_key : Z) (public_key : EcPt)
    (address message : bytes) :
  check_point public_key = true ->
  length address <= 256 ->
  length message <= 1000 ->
  mix_client_one_hop private_key public_key address message
  = ret (oh_encoded private_key public_key address message).
Proof.
  intros Hp Ha Hm. unfold mix_client_one_hop. rewrite Hp.
  replace (length address <=? 256) with true by (symmetry; apply Nat.leb_le; exact Ha).
  replace (length message <=? 1000) with true by (symmetry; apply Nat.leb_le; exact Hm).
  unfold py_assert. rewrite !bind_ret_l.
  rewrite !pack_envelope by lia. rewrite !bind_ret_l.
  reflexivity.
Qed.

Lemma oh_encoded_accepted (x r : Z) (address message : bytes) :
  length address <= 256 ->
  length message <= 1000 ->
  let msg := oh_encoded x (public_key_of r) address message in
  oh_format_ok msg = true /\
  secure_compare (oh_hmac msg) (oh_expected_mac r msg) = true /\
  oh_delivered r msg = (address, message).
Proof.
  intros Ha Hm msg. subst msg. unfold oh_encoded.
  set (km := sha512 (export (pt_mul x (public_key_of r)))).
  assert (Hk : length km = 64) by apply sha512_length.
  destruct (key_slices_length km Hk) as (Hk1 & Hk2 & Hk3).
  assert (Ekm : relay_key_material r (pt_mul x generator) = km).
  { unfold relay_key_material, km. rewrite shared_element_agree. reflexivity. }
  split; [| split].
  - unfold oh_format_ok.
    cbn [oh_ec_public_key oh_hmac oh_address oh_message].
    rewrite check_point_public.
    rewrite !aes_ctr_length by (assumption || reflexivity).
    rewrite length_firstn, hmac_sha512_length, !envelope_length. reflexivity.
  - unfold oh_expected_mac.
    cbn [oh_ec_public_key oh_hmac oh_address oh_message].
    rewrite Ekm. apply secure_compare_refl.
  - unfold oh_delivered.
    cbn [oh_ec_public_key oh_hmac oh_address oh_message].
    rewrite Ekm.
    rewrite !aes_ctr_involutive by (assumption || reflexivity).
    rewrite !open_envelope_envelope by lia. reflexivity.
Qed.

(** ** Round trip *)

(** C1. For an address of at most 256 bytes, a message of at most 1000 bytes
    and a cascade of 1 to 65537 relay key pairs, the message that
    [mix_client_n_hop] builds for the relays' public keys, passed through
    [mix_server_n_hop] relay by relay in cascade order with [final=True] at
    the last one, comes out as exactly [(address, message)]; and so does the
    message of [mix_client_one_hop] through [mix_server_one_hop]. (65537 is
    the longest cascade whose MAC positions fit the 16-bit positional IV.) *)
Theorem encode_decode_roundtrip (x : Z) (relays : list Z) (address message : bytes) :
  length address <= 256 ->
  length message <= 1000 ->
  relays <> [] ->
  (Z.of_nat (length relays) <= 65537)%Z ->
  (exists enc,
      value (mix_client_n_hop x (map public_key_of relays) address message) = inr enc /\
      value (cascade relays [enc]) = inr [Deliver (address, message)])
  /\
  (forall r, exists enc,
      value (mix_client_one_hop x (public_key_of r) address message) = inr enc /\
      value (mix_server_one_hop r [enc]) = inr [(address, message)]).
Proof.
  intros Ha Hm Hne Hb. split.
  - exists (encoded x (map public_key_of relays) address message). split.
    + apply mix_client_n_hop_value; [exact Ha | exact Hm |].
      rewrite length_map. exact Hb.
    + rewrite encoded_sealed.
      rewrite cascade_sealed.
      * cbn [fst snd]. rewrite !open_envelope_envelope by lia. reflexivity.
      * exact Hne.
      * apply envelope_length.
      * apply envelope_length.
      * cbn [snd length]. lia.
  - intros r. exists (oh_encoded x (public_key_of r) address message). split.
    + rewrite mix_client_one_hop_eq; [reflexivity | | exact Ha | exact Hm].
      apply check_point_public.
    + destruct (oh_encoded_accepted x r address message Ha Hm) as (Hf & Hmac & Hd).
      rewrite mix_server_one_hop_value.
      rewrite (oh_loop_all_decoded r [_] [(address, message)]).
      * reflexivity.
      * constructor; [| constructor].
        rewrite oh_body_accepted by assumption. rewrite Hd. reflexivity.
Qed.

(** ** The blinded key chain *)

Lemma peeled_public_key (r : Z) (msg : NHopMixMessage EcPt) :
  ec_public_key (peeled r msg) = relay_next_public_key r (ec_public_key msg).
Proof. reflexivity. Qed.

Lemma hop_keys (relays : list Z) :
  forall (x : Z) (i : nat) (r : Z),
    nth_error relays i = Some r ->
    exists priv_i : Z,
      let pubs := map public_key_of relays in
      let km := sha512 (export (pt_mul priv_i (public_key_of r))) in
      nth_error (x :: client_private_keys x pubs) i = Some priv_i /\
      nth_error (x :: client_private_keys x pubs) (S i)
        = Some (from_binary (skipn 48 km) * priv_i)%Z /\
      nth_error (client_key_materials x pubs) i = Some km /\
      nth_error (incoming_public_keys (pt_mul x generator) relays) i
        = Some (pt_mul priv_i generator).
Proof.
  induction relays as [| r0 rest IH]; intros x i r Hi.
  - destruct i; discriminate.
  - destruct i as [| i].
    + cbn in Hi. inversion Hi; subst r0. exists x. cbn. auto.
    + cbn [nth_error] in Hi.
      set (x' := (from_binary (skipn 48 (sha512 (export (pt_mul x (public_key_of r0)))))
                  * x)%Z).
      destruct (IH x' i r Hi) as (priv_i & H1 & H2 & H3 & H4).
      exists priv_i. cbv zeta.
      cbn [map client_private_keys client_key_materials nth_error incoming_public_keys].
      fold x'. repeat split; try assumption.
      replace (relay_next_public_key r0 (pt_mul x generator)) with (pt_mul x' generator).
      * exact H4.
      * unfold relay_next_public_key, relay_key_material.
        rewrite (shared_element_agree x r0), pt_mul_mul. reflexivity.
Qed.

(** C2. At every hop [i] of a cascade, the shared element the relay computes
    from the incoming public key equals the one the client computed from its
    private key of that hop and the relay's public key, and the public key the
    relay passes on equals the client's next private key times the generator.
    The incoming public key is the field of the message that the relays
    before hop [i] forward. *)
Theorem blinding_invariant (x : Z) (relays : list Z) (i : nat) (r : Z) :
  nth_error relays i = Some r ->
  let pubs := map public_key_of relays in
  exists (key_materials : list bytes) (private_keys : list Z)
         (priv_i next_priv : Z) (incoming : EcPt),
    key_schedule 0 pubs [] [x] = ret (key_materials, private_keys) /\
    nth_error private_keys i = Some priv_i /\
    nth_error private_keys (S i) = Some next_priv /\
    nth_error (incoming_public_keys (pt_mul x generator) relays) i = Some incoming /\
    relay_shared_element r incoming = pt_mul priv_i (public_key_of r) /\
    nth_error key_materials i = Some (relay_key_material r incoming) /\
    relay_next_public_key r incoming = pt_mul next_priv generator /\
    (forall addr payload,
        length addr <= 256 ->
        length payload <= 1000 ->
        (Z.of_nat (length relays) <= 65537)%Z ->
        exists enc msg_i,
          value (mix_client_n_hop x pubs addr payload) = inr enc /\
          value (relay_chain (firstn i relays) [enc]) = inr [msg_i] /\
          ec_public_key msg_i = incoming).
Proof.
  intros Hi pubs.
  destruct (hop_keys relays x i r Hi) as (priv_i & H1 & H2 & H3 & H4).
  cbv zeta in *. fold pubs in H1, H2, H3.
  set (km := sha512 (export (pt_mul priv_i (public_key_of r)))) in *.
  assert (Ekm : relay_key_material r (pt_mul priv_i generator) = km).
  { unfold relay_key_material, km. rewrite shared_element_agree. reflexivity. }
  exists (client_key_materials x pubs), (x :: client_private_keys x pubs),
    priv_i, (from_binary (skipn 48 km) * priv_i)%Z, (pt_mul priv_i generator).
  repeat split; try assumption.
  - apply (key_schedule_eq pubs 0 [] [] x eq_refl).
  - apply shared_element_agree.
  - rewrite Ekm. exact H3.
  - unfold relay_next_public_key. rewrite Ekm. apply pt_mul_mul.
  - intros addr payload Ha Hm Hb.
    assert (Hlt : i < length relays) by (apply nth_error_Some; congruence).
    exists (encoded x pubs addr payload).
    destruct (relay_chain_sealed (firstn i relays) (skipn i relays) x
                (envelope 256 addr, envelope 1000 payload, []))
      as (x' & Hn & Hv).
    + apply envelope_length.
    + apply envelope_length.
    + rewrite <- length_app, firstn_skipn. cbn [snd length]. lia.
    + rewrite firstn_skipn in Hn, Hv.
      rewrite length_firstn, Nat.min_l in Hn by lia.
      fold pubs in Hn. rewrite H1 in Hn. inversion Hn; subst x'.
      eexists. split; [| split].
      * apply mix_client_n_hop_value; [exact Ha | exact Hm |].
        unfold pubs. rewrite length_map. exact Hb.
      * rewrite encoded_sealed. exact Hv.
      * unfold sealed. destruct (onion _ _) as [[a m] hs]. reflexivity.
Qed.

(** ** Every outcome of the relay's loop body *)

Lemma body_struct_error (r : Z) (final : bool) (msg : NHopMixMessage EcPt) :
  format_ok msg = true ->
  mac_ok r msg = true ->
  (65537 < Z.of_nat (length (hmacs msg)))%Z ->
  mix_server_n_hop_body r final msg = (inl StructError, [server_line r msg]).
Proof.
  intros Hf Hm Hb.
  unfold mac_ok, server_line, expected_mac, relay_key_material in *.
  enter_body Hf.
  destruct (hmacs msg) as [| mac0 rest] eqn:Hh; [discriminate Hf |].
  cbn [index nth_error]. rewrite !bind_ret_l.
  destruct (length mac0 =? 20); [| discriminate Hf].
  cbn [negb orb]. rewrite ?bind_ret_l. cbv zeta.
  rewrite bind_print, ?bind_ret_l, digest_updates.
  cbn [skipn length] in *. rewrite Hm. cbn [negb].
  rewrite decrypt_hmacs_overflow by (cbn [Nat.add]; lia).
  reflexivity.
Qed.

Lemma body_cases (r : Z) (final : bool) (msg : NHopMixMessage EcPt) :
  body_outcome r final msg.
Proof.
  destruct (check_point (ec_public_key msg)) eqn:Hcp.
  - destruct (hmacs msg) as [| mac0 rest] eqn:Hh.
    + apply outcome_index_error; auto using body_no_hmacs.
    + destruct (format_ok msg) eqn:Hf.
      * destruct (mac_ok r msg) eqn:Hm.
        -- destruct (Z_le_gt_dec (Z.of_nat (length (hmacs msg))) 65537) as [Hb | Hb].
           ++ apply outcome_accepted; auto using body_accepted.
           ++ assert (Hb' : (65537 < Z.of_nat (length (hmacs msg)))%Z) by lia.
              apply outcome_struct_error; auto using body_struct_error.
        -- apply outcome_mac_failure; auto using body_mac_failure.
      * apply outcome_malformed; [exact Hf | left; congruence |].
        apply body_bad_length; congruence.
  - apply outcome_malformed.
    + unfold format_ok. rewrite Hcp. reflexivity.
    + right. exact Hcp.
    + apply body_invalid_point. exact Hcp.
Qed.

(** A message the body returns an output for passed every check. *)
Lemma body_inversion (r : Z) (final : bool) (msg : NHopMixMessage EcPt) (out : out_msg EcPt) :
  value (mix_server_n_hop_body r final msg) = inr out ->
  format_ok msg = true /\
  mac_ok r msg = true /\
  out = (if final then Deliver (delivered r msg) else Forward (peeled r msg)).
Proof.
  intros H.
  destruct (body_cases r final msg) as [? ? E | ? ? E | ? ? E | ? ? ? E | ? ? ? E];
    rewrite E in H; try discriminate H.
  cbn in H. inversion H. auto.
Qed.

Lemma format_ok_lengths (msg : NHopMixMessage EcPt) :
  format_ok msg = true ->
  check_point (ec_public_key msg) = true /\
  (exists mac0 rest, hmacs msg = mac0 :: rest /\ length mac0 = 20) /\
  length (address msg) = 258 /\ length (message msg) = 1002.
Proof.
  unfold format_ok. rewrite !andb_true_iff. intros [[[H1 H2] H3] H4].
  split; [exact H1 |]. split.
  - destruct (hmacs msg) as [| mac0 rest]; [discriminate |].
    exists mac0, rest. split; [reflexivity | apply Nat.eqb_eq; exact H2].
  - split; apply Nat.eqb_eq; assumption.
Qed.

Lemma peeled_lengths (r : Z) (msg : NHopMixMessage EcPt) :
  S (length (hmacs (peeled r msg))) = Nat.max 1 (length (hmacs msg)) /\
  length (address (peeled r msg)) = length (address msg) /\
  length (message (peeled r msg)) = length (message msg).
Proof.
  unfold peeled. cbn [hmacs address message].
  destruct (key_slices_length _ (relay_key_material_length r (ec_public_key msg)))
    as (Hk1 & Hk2 & Hk3).
  rewrite crypt_hmacs_length, length_skipn.
  rewrite !aes_ctr_length by (assumption || reflexivity).
  repeat split. lia.
Qed.

(** ** Length invariants *)

Lemma onion_macs_20 (kms : list bytes) (core : layer) :
  Forall (fun km => length km = 64) kms ->
  Forall (fun mac => length mac = 20) (snd core) ->
  Forall (fun mac => length mac = 20) (snd (onion kms core)).
Proof.
  intros Hk Hc. induction Hk as [| km rest Hkm _ IH]; cbn [onion fold_right].
  - exact Hc.
  - fold (onion rest core). destruct (onion rest core) as [[a m] hs].
    cbn [wrap snd] in *.
    destruct (key_slices_length km Hkm) as (Hk1 & _ & _).
    constructor.
    + rewrite length_firstn, hmac_sha512_length. reflexivity.
    + apply crypt_hmacs_entry_length; assumption.
Qed.

(** C7. A one-hop message is [point_size + 20 + 258 + 1002] bytes, where
    [point_size] is the size of the exported client public key; an n-hop
    message built for N relays carries N MACs of 20 bytes each, a 258-byte
    address field and a 1002-byte message field; after the first [k] relays
    of its cascade have forwarded it, it carries [N - k] MACs and fields of
    the same sizes; and whatever message a non-final relay forwards has one
    MAC fewer than the message it received, with a 258-byte address field
    and a 1002-byte message field. *)
Theorem length_invariants (x : Z) (relays : list Z) (addr payload : bytes) :
  length addr <= 256 ->
  length payload <= 1000 ->
  (Z.of_nat (length relays) <= 65537)%Z ->
  (forall pk, check_point pk = true ->
     exists enc,
       value (mix_client_one_hop x pk addr payload) = inr enc /\
       length (oh_hmac enc) = 20 /\
       length (oh_address enc) = 258 /\
       length (oh_message enc) = 1002 /\
       oh_wire_length enc = length (export (oh_ec_public_key enc)) + 20 + 258 + 1002)
  /\
  (forall pubs, (Z.of_nat (length pubs) <= 65537)%Z ->
     exists enc,
       value (mix_client_n_hop x pubs addr payload) = inr enc /\
       length (hmacs enc) = length pubs /\
       Forall (fun mac => length mac = 20) (hmacs enc) /\
       length (address enc) = 258 /\
       length (message enc) = 1002)
  /\
  (forall k, k <= length relays ->
     exists enc msg_k,
       value (mix_client_n_hop x (map public_key_of relays) addr payload) = inr enc /\
       value (relay_chain (firstn k relays) [enc]) = inr [msg_k] /\
       length (hmacs msg_k) = length relays - k /\
       length (address msg_k) = 258 /\
       length (message msg_k) = 1002)
  /\
  (forall r msg out,
     value (mix_server_n_hop_body r false msg) = inr out ->
     exists msg',
       out = Forward msg' /\
       S (length (hmacs msg')) = length (hmacs msg) /\
       length (address msg') = 258 /\
       length (message msg') = 1002).
Proof.
  intros Ha Hm Hb. split; [| split; [| split]].
  - intros pk Hpk. exists (oh_encoded x pk addr payload).
    rewrite mix_client_one_hop_eq by assumption.
    set (km := sha512 (export (pt_mul x pk))).
    destruct (key_slices_length km (sha512_length _)) as (Hk1 & Hk2 & Hk3).
    assert (H20 : length (oh_hmac (oh_encoded x pk addr payload)) = 20).
    { unfold oh_encoded. cbn [oh_hmac].
      rewrite length_firstn, hmac_sha512_length. reflexivity. }
    assert (H258 : length (oh_address (oh_encoded x pk addr payload)) = 258).
    { unfold oh_encoded. cbn [oh_address]. fold km.
      rewrite aes_ctr_length by (assumption || reflexivity). apply envelope_length. }
    assert (H1002 : length (oh_message (oh_encoded x pk addr payload)) = 1002).
    { unfold oh_encoded. cbn [oh_message]. fold km.
      rewrite aes_ctr_length by (assumption || reflexivity). apply envelope_length. }
    repeat split; try assumption.
    unfold oh_wire_length. rewrite H20, H258, H1002. reflexivity.
  - intros pubs Hp. exists (encoded x pubs addr payload).
    split; [apply mix_client_n_hop_value; assumption |].
    rewrite encoded_sealed.
    destruct (sealed_lengths x pubs (envelope 256 addr, envelope 1000 payload, []))
      as (H1 & H2 & H3).
    cbn [fst snd length] in *. rewrite !envelope_length in *.
    repeat split; try assumption.
    + lia.
    + pose proof (onion_macs_20 (client_key_materials x pubs)
                    (envelope 256 addr, envelope 1000 payload, [])
                    (client_key_materials_64 x pubs) (Forall_nil _)) as H.
      unfold sealed. destruct (onion _ _) as [[a m] hs]. exact H.
  - intros k Hk.
    destruct (relay_chain_sealed (firstn k relays) (skipn k relays) x
                (envelope 256 addr, envelope 1000 payload, []))
      as (x' & _ & Hv).
    + apply envelope_length.
    + apply envelope_length.
    + rewrite <- length_app, firstn_skipn. cbn [snd length]. lia.
    + rewrite firstn_skipn in Hv.
      exists (encoded x (map public_key_of relays) addr payload). eexists.
      split; [| split].
      * apply mix_client_n_hop_value; [exact Ha | exact Hm |].
        rewrite length_map. exact Hb.
      * rewrite encoded_sealed. exact Hv.
      * destruct (sealed_lengths x' (map public_key_of (skipn k relays))
                    (envelope 256 addr, envelope 1000 payload, []))
          as (H1 & H2 & H3).
        cbn [fst snd length] in *. rewrite !envelope_length in *.
        rewrite length_map, length_skipn in H1.
        repeat split; try assumption. lia.
  - intros r msg out Hout.
    destruct (body_inversion r false msg out Hout) as (Hf & _ & ->).
    destruct (format_ok_lengths msg Hf) as (_ & (mac0 & rest & Hh & _) & Hla & Hlm).
    destruct (peeled_lengths r msg) as (P1 & P2 & P3).
    exists (peeled r msg). repeat split.
    + rewrite P1, Hh. cbn [length]. lia.
    + congruence.
    + congruence.
Qed.

(** ** sorted() *)

Lemma bytes_compare_antisym (a b : bytes) :
  bytes_compare b a = CompOpp (bytes_compare a b).
Proof.
  revert b. induction a as [| x a IH]; intros [| y b]; cbn; try reflexivity.
  rewrite (N.compare_antisym (Byte.to_N x) (Byte.to_N y)).
  destruct (Byte.to_N x ?= Byte.to_N y)%N; cbn; auto.
Qed.

Lemma tuple_leb_total (s t : bytes * bytes) :
  tuple_leb s t = false -> tuple_leb t s = true.
Proof.
  unfold tuple_leb, tuple_compare.
  rewrite (bytes_compare_antisym (fst s) (fst t)),
    (bytes_compare_antisym (snd s) (snd t)).
  destruct (bytes_compare (fst s) (fst t)), (bytes_compare (snd s) (snd t));
    cbn; congruence.
Qed.

Lemma insort_perm (x : bytes * bytes) (l : list (bytes * bytes)) :
  Permutation (insort x l) (x :: l).
Proof.
  induction l as [| y l IH]; cbn.
  - apply Permutation_refl.
  - destruct (tuple_leb x y).
    + apply Permutation_refl.
    + eapply perm_trans; [apply perm_skip, IH | apply perm_swap].
Qed.

Lemma sorted_perm (l : list (bytes * bytes)) : Permutation (sorted l) l.
Proof.
  induction l as [| x l IH]; cbn.
  - constructor.
  - eapply perm_trans; [apply insort_perm | apply perm_skip, IH].
Qed.

Lemma insort_Sorted (x : bytes * bytes) (l : list (bytes * bytes)) :
  Sorted tuple_le l -> Sorted tuple_le (insort x l).
Proof.
  induction 1 as [| y l Hs IH Hd]; cbn.
  - repeat constructor.
  - destruct (tuple_leb x y) eqn:E.
    + constructor; [constructor; assumption | constructor; exact E].
    + constructor; [exact IH |].
      apply tuple_leb_total in E.
      destruct l as [| z l]; cbn.
      * constructor. exact E.
      * destruct (tuple_leb x z); constructor; [exact E |].
        inversion Hd. assumption.
Qed.

Lemma sorted_Sorted (l : list (bytes * bytes)) : Sorted tuple_le (sorted l).
Proof.
  induction l as [| x l IH]; cbn; [constructor | apply insort_Sorted, IH].
Qed.

(** ** What a batch returns *)

Lemma loop_inversion (r : Z) (final : bool) (batch : list (NHopMixMessage EcPt)) :
  forall (acc queue : list (out_msg EcPt)),
    value (mix_server_n_hop_loop r final batch acc) = inr queue ->
    Forall (fun msg => format_ok msg = true /\ mac_ok r msg = true) batch /\
    queue = acc ++ map (fun msg => if final then Deliver (delivered r msg)
                                   else Forward (peeled r msg)) batch.
Proof.
  induction batch as [| msg rest IH]; intros acc queue H.
  - cbn in H. inversion H. rewrite app_nil_r. split; constructor.
  - rewrite loop_cons_value in H.
    destruct (value (mix_server_n_hop_body r final msg)) as [e | out] eqn:E;
      [discriminate |].
    destruct (body_inversion r final msg out E) as (Hf & Hm & ->).
    destruct (IH _ _ H) as (Hall & Hq).
    split.
    + constructor; auto.
    + rewrite Hq, <- app_assoc. reflexivity.
Qed.

Lemma oh_body_inversion (r : Z) (msg : OneHopMixMessage EcPt) (out : bytes * bytes) :
  value (mix_server_one_hop_body r msg) = inr out ->
  oh_format_ok msg = true /\
  secure_compare (oh_hmac msg) (oh_expected_mac r msg) = true /\
  out = oh_delivered r msg.
Proof.
  intros H.
  destruct (oh_format_ok msg) eqn:Hf.
  - destruct (secure_compare (oh_hmac msg) (oh_expected_mac r msg)) eqn:Hm.
    + rewrite oh_body_accepted in H by assumption. cbn in H. inversion H. auto.
    + rewrite oh_body_mac_failure in H by assumption. discriminate H.
  - rewrite oh_body_malformed in H by assumption. discriminate H.
Qed.

Lemma delivered_lengths (r : Z) (msg : NHopMixMessage EcPt) :
  format_ok msg = true ->
  length (fst (delivered r msg)) <= 256 /\ length (snd (delivered r msg)) <= 1000.
Proof.
  intros Hf. destruct (format_ok_lengths msg Hf) as (_ & _ & Hla & Hlm).
  destruct (peeled_lengths r msg) as (_ & P2 & P3).
  unfold delivered. cbn [fst snd]. split.
  - apply open_envelope_length. rewrite P2. exact Hla.
  - apply open_envelope_length. rewrite P3. exact Hlm.
Qed.

Lemma oh_delivered_lengths (r : Z) (msg : OneHopMixMessage EcPt) :
  oh_format_ok msg = true ->
  length (fst (oh_delivered r msg)) <= 256 /\ length (snd (oh_delivered r msg)) <= 1000.
Proof.
  intros Hf. unfold oh_format_ok in Hf. rewrite !andb_true_iff in Hf.
  destruct Hf as [[_ Hla] Hlm]. apply Nat.eqb_eq in Hla, Hlm.
  destruct (key_slices_length _ (relay_key_material_length r (oh_ec_public_key msg)))
    as (Hk1 & Hk2 & Hk3).
  unfold oh_delivered. cbn [fst snd]. split.
  - apply open_envelope_length.
    rewrite aes_ctr_length by (assumption || reflexivity). exact Hla.
  - apply open_envelope_length.
    rewrite aes_ctr_length by (assumption || reflexivity). exact Hlm.
Qed.

(** ** Final delivery *)

(** C10. At final delivery the emitted address and payload are the decrypted
    256-byte and 1000-byte fields cut to their declared length prefixes
    ([open_envelope]): every tuple of a batch that [mix_server_n_hop] with
    [final=True], or [mix_server_one_hop], returns has an address of at most
    256 bytes and a payload of at most 1000 bytes; a declared length that
    exceeds the field yields the whole field; and a message that passes the
    format and MAC checks is delivered whatever its length prefixes are. *)
Theorem final_delivery_truncates (r : Z) :
  (forall batch outs,
      value (mix_server_n_hop r batch true) = inr outs ->
      outs = map (fun msg => Deliver (delivered r msg)) batch /\
      Forall (fun out => exists a m, out = Deliver (a, m) /\
                                     length a <= 256 /\ length m <= 1000) outs)
  /\
  (forall batch outs,
      value (mix_server_one_hop r batch) = inr outs ->
      Permutation outs (map (oh_delivered r) batch) /\
      Forall (fun t => length (fst t) <= 256 /\ length (snd t) <= 1000) outs)
  /\
  (forall hi lo field,
      open_envelope (hi :: lo :: field)
      = firstn (Z.to_nat (Z_of_byte hi * 256 + Z_of_byte lo)) field /\
      (length field <= Z.to_nat (Z_of_byte hi * 256 + Z_of_byte lo) ->
       open_envelope (hi :: lo :: field) = field))
  /\
  (forall msg,
      format_ok msg = true -> mac_ok r msg = true ->
      (Z.of_nat (length (hmacs msg)) <= 65537)%Z ->
      value (mix_server_n_hop r [msg] true) = inr [Deliver (delivered r msg)])
  /\
  (forall msg,
      oh_format_ok msg = true ->
      secure_compare (oh_hmac msg) (oh_expected_mac r msg) = true ->
      value (mix_server_one_hop r [msg]) = inr [oh_delivered r msg]).
Proof.
  split; [| split; [| split; [| split]]].
  - intros batch outs H. unfold mix_server_n_hop in H.
    destruct (loop_inversion r true batch [] outs H) as (Hall & ->).
    split; [reflexivity |]. cbn [app]. clear H.
    induction Hall as [| msg batch [Hf _] _ IH]; cbn [map]; constructor; [| exact IH].
    destruct (delivered_lengths r msg Hf) as [H1 H2].
    destruct (delivered r msg) as [a m]. exists a, m. auto.
  - intros batch outs H. rewrite mix_server_one_hop_value in H.
    destruct (value (mix_server_one_hop_loop r batch [])) as [e | queue] eqn:E;
      [discriminate |].
    inversion H; subst outs.
    destruct (oh_loop_inversion r batch [] queue E) as (outs & -> & Hall).
    cbn [app].
    assert (Hmap : outs = map (oh_delivered r) batch /\
                   Forall (fun t => length (fst t) <= 256 /\ length (snd t) <= 1000) outs).
    { clear E H. induction Hall as [| msg out batch outs Hm _ [IH1 IH2]].
      - split; constructor.
      - destruct (oh_body_inversion r msg out Hm) as (Hf & _ & ->).
        split; [cbn; f_equal; exact IH1 |].
        constructor; [apply oh_delivered_lengths, Hf | exact IH2]. }
    destruct Hmap as [Hmap Hlen]. split.
    + rewrite <- Hmap. apply sorted_perm.
    + rewrite Forall_forall in *. intros t Ht. apply Hlen.
      eapply Permutation_in; [apply sorted_perm | exact Ht].
  - intros hi lo field. split; [reflexivity |].
    intros Hlen. cbn [open_envelope]. apply firstn_all2. exact Hlen.
  - intros msg Hf Hm Hb. apply mix_server_n_hop_single.
    rewrite body_accepted by assumption. reflexivity.
  - intros msg Hf Hm. rewrite mix_server_one_hop_value.
    rewrite (oh_loop_all_decoded r [msg] [oh_delivered r msg]).
    + reflexivity.
    + constructor; [| constructor]. rewrite oh_body_accepted by assumption. reflexivity.
Qed.

(** ** Failures inside a batch *)

Lemma Forall_decoded_Forall2 {A B} (f : A -> M B) (l : list A) :
  Forall (fun a => exists b, value (f a) = inr b) l ->
  exists outs, Forall2 (fun a b => value (f a) = inr b) l outs.
Proof.
  induction 1 as [| a l [b Hb] _ [outs IH]].
  - exists []. constructor.
  - exists (b :: outs). constructor; assumption.
Qed.

Lemma Forall2_decoded_Forall {A B} (f : A -> M B) (l : list A) (outs : list B) :
  Forall2 (fun a b => value (f a) = inr b) l outs ->
  Forall (fun a => exists b, value (f a) = inr b) l.
Proof.
  induction 1 as [| a b l outs Hab _ IH]; constructor; eauto.
Qed.

Lemma loop_decoded (r : Z) (final : bool) (batch : list (NHopMixMessage EcPt)) :
  forall (acc queue : list (out_msg EcPt)),
    value (mix_server_n_hop_loop r final batch acc) = inr queue ->
    exists outs,
      queue = acc ++ outs /\
      Forall2 (fun msg out => value (mix_server_n_hop_body r final msg) = inr out)
              batch outs.
Proof.
  induction batch as [| msg rest IH]; intros acc queue H.
  - exists []. cbn in H. inversion H. rewrite app_nil_r. split; constructor.
  - rewrite loop_cons_value in H.
    destruct (value (mix_server_n_hop_body r final msg)) as [e | out] eqn:E;
      [discriminate |].
    destruct (IH _ _ H) as (outs & Hq & Hall).
    exists (out :: outs). split.
    + rewrite Hq, <- app_assoc. reflexivity.
    + constructor; assumption.
Qed.

(** C4, as the code has it. An exception raised while one message of a
    batch is decoded ends the whole call: [mix_server_n_hop] and
    [mix_server_one_hop] raise the exception of the first message that
    fails, whatever follows it in the batch and although the messages
    before it decoded, and return no output at all; they return outputs
    only when every message of the batch decodes. *)
Theorem batch_failure_aborts (r : Z) :
  (forall final good bad rest e,
      Forall (fun msg => exists out, value (mix_server_n_hop_body r final msg) = inr out)
             good ->
      value (mix_server_n_hop_body r final bad) = inl e ->
      value (mix_server_n_hop r (good ++ bad :: rest) final) = inl e)
  /\
  (forall final batch outs,
      value (mix_server_n_hop r batch final) = inr outs ->
      Forall (fun msg => exists out, value (mix_server_n_hop_body r final msg) = inr out)
             batch)
  /\
  (forall good bad rest e,
      Forall (fun msg => exists out, value (mix_server_one_hop_body r msg) = inr out)
             good ->
      value (mix_server_one_hop_body r bad) = inl e ->
      value (mix_server_one_hop r (good ++ bad :: rest)) = inl e)
  /\
  (forall batch outs,
      value (mix_server_one_hop r batch) = inr outs ->
      Forall (fun msg => exists out, value (mix_server_one_hop_body r msg) = inr out)
             batch).
Proof.
  split; [| split; [| split]].
  - intros final good bad rest e Hg Hb.
    destruct (Forall_decoded_Forall2 _ _ Hg) as [outs Hg2].
    apply (loop_first_failure r final good outs bad rest e Hg2 Hb).
  - intros final batch outs H. unfold mix_server_n_hop in H.
    destruct (loop_decoded r final batch [] outs H) as (outs' & _ & Hall).
    apply (Forall2_decoded_Forall _ _ _ Hall).
  - intros good bad rest e Hg Hb.
    destruct (Forall_decoded_Forall2 _ _ Hg) as [outs Hg2].
    rewrite mix_server_one_hop_value.
    rewrite (oh_loop_first_failure r good outs bad rest e Hg2 Hb). reflexivity.
  - intros batch outs H. rewrite mix_server_one_hop_value in H.
    destruct (value (mix_server_one_hop_loop r batch [])) as [e | queue] eqn:E;
      [discriminate |].
    destruct (oh_loop_inversion r batch [] queue E) as (outs' & _ & Hall).
    apply (Forall2_decoded_Forall _ _ _ Hall).
Qed.

(** ** Validation of an incoming n-hop message *)

(** C5, at the input where the code departs from it. A message whose MAC
    list is empty and whose public key is a valid point does not fail with
    the "Malformed input message" exception: [msg.hmacs[0]] raises
    [IndexError] while the checks are evaluated. (With an invalid point the
    [or] stops before it reads the MAC list.) *)
Theorem empty_mac_list_index_error (r : Z) (final : bool) (pk : EcPt)
    (a m : bytes) (rest : list (NHopMixMessage EcPt)) :
  mix_server_n_hop r (mkNHop pk [] a m :: rest) final
  = (inl (if check_point pk then IndexError else MalformedInput), []).
Proof.
  unfold mix_server_n_hop. cbn [mix_server_n_hop_loop].
  destruct (check_point pk) eqn:Hcp.
  - rewrite body_no_hmacs by (assumption || reflexivity). reflexivity.
  - rewrite body_invalid_point by assumption. reflexivity.
Qed.

(** Every other violation of the format is the "Malformed input message"
    exception, raised before the relay derives a key or prints anything. *)
Lemma format_violation_malformed (r : Z) (final : bool) (msg : NHopMixMessage EcPt) :
  hmacs msg <> [] ->
  format_ok msg = false ->
  mix_server_n_hop_body r final msg = (inl MalformedInput, []).
Proof. intros Hne Hf. apply body_bad_length; assumption. Qed.

(** ** What the code writes to stdout *)

(** C8, at the inputs where the code departs from it. For every message
    that passes the format checks the relay prints ["Server: "] and the
    first 20 bytes of the MAC it expects, before it compares them with the
    MAC of the message and whatever the comparison gives; and the n-hop
    client ends by printing ["Client: "] and the MAC list of the message it
    returns. *)
Theorem relay_and_client_print (r : Z) :
  (forall final msg,
      printed (mix_server_n_hop_body r final msg)
      = if format_ok msg
        then [[PyStr "Server: "; PyBytes (expected_mac r msg)]]
        else [])
  /\
  (forall x pubs addr payload,
      length addr <= 256 ->
      length payload <= 1000 ->
      (Z.of_nat (length pubs) <= 65537)%Z ->
      exists enc lines,
        value (mix_client_n_hop x pubs addr payload) = inr enc /\
        printed (mix_client_n_hop x pubs addr payload)
        = lines ++ [[PyStr "Client: "; PyList (hmacs enc)]]).
Proof.
  split.
  - intros final msg.
    destruct (body_cases r final msg) as [Hf ? E | Hcp Hh E | Hf ? E | Hf ? ? E | Hf ? ? E];
      rewrite E; try rewrite Hf; try reflexivity.
    unfold format_ok. rewrite Hh, andb_false_r. reflexivity.
  - intros x pubs addr payload Ha Hm Hn.
    exists (encoded x pubs addr payload).
    assert (Hv := mix_client_n_hop_value x pubs addr payload Ha Hm Hn).
    revert Hv. unfold mix_client_n_hop.
    replace (length addr <=? 256) with true by (symmetry; apply Nat.leb_le; exact Ha).
    replace (length payload <=? 1000) with true by (symmetry; apply Nat.leb_le; exact Hm).
    unfold py_assert. rewrite !bind_ret_l.
    rewrite !pack_envelope by lia. rewrite !bind_ret_l.
    pose proof (key_schedule_eq pubs 0 [] [] x eq_refl) as E.
    cbn [app] in E. rewrite E. rewrite bind_ret_l.
    rewrite printed_bind, layering_onion
      by (rewrite client_key_materials_length; exact Hn).
    intros Hv. eexists. split; [exact Hv |]. f_equal.
    unfold encoded. destruct (onion _ _) as [[a m] hs]. reflexivity.
Qed.

(** ** Order of the outputs *)

(** [mix_server_one_hop] returns its queue sorted. *)
Lemma mix_server_one_hop_sorted (r : Z) (batch : list (OneHopMixMessage EcPt))
    (outs : list (bytes * bytes)) :
  value (mix_server_one_hop r batch) = inr outs -> Sorted tuple_le outs.
Proof.
  rewrite mix_server_one_hop_value.
  destruct (value (mix_server_one_hop_loop r batch [])) as [e | queue];
    [discriminate |].
  intros H. inversion H. apply sorted_Sorted.
Qed.

(** C3, at the inputs where the code departs from it. With [final=True],
    [mix_server_n_hop] returns the decoded tuples of a batch in the order
    in which the messages arrived: when the messages of the batch decode to
    [outs], one by one, the call returns [outs] as it is, where
    [mix_server_one_hop] returns [sorted(out_queue)]. *)
Theorem n_hop_final_arrival_order (r : Z) (batch : list (NHopMixMessage EcPt))
    (outs : list (out_msg EcPt)) :
  Forall2 (fun msg out => value (mix_server_n_hop_body r true msg) = inr out)
          batch outs ->
  value (mix_server_n_hop r batch true) = inr outs.
Proof.
  intros H. unfold mix_server_n_hop.
  apply (loop_all_decoded r true batch outs H []).
Qed.

(** ** The client's checks *)

Lemma bind_inl_inv {A B} (m : M A) (f : A -> M B) (e : exn) :
  value (bind m f) = inl e ->
  value m = inl e \/ exists a, value m = inr a /\ value (f a) = inl e.
Proof.
  rewrite value_bind. destruct (value m) as [e' | a]; intros H.
  - left. inversion H. reflexivity.
  - right. exists a. auto.
Qed.

Lemma pack_H14s_error (n : Z) (s : bytes) (e : exn) :
  value (pack_H14s n s) = inl e -> loop_error e.
Proof.
  unfold pack_H14s. destruct (in_H n); cbn; intros H; inversion H. left. reflexivity.
Qed.

Lemma list_pop_error {A} (l : list A) (j : nat) (e : exn) :
  value (list_pop l j) = inl e -> loop_error e.
Proof.
  unfold list_pop. destruct (j <? length l); cbn; intros H; inversion H.
  right. reflexivity.
Qed.

Lemma encrypt_hmacs_error (k : bytes) (snapshot : list bytes) :
  forall (j : nat) (h : Hmac) (hs : list bytes) (e : exn),
    value (encrypt_hmacs k j snapshot h hs) = inl e -> loop_error e.
Proof.
  induction snapshot as [| mac rest IH]; intros j h hs e H; cbn [encrypt_hmacs] in H.
  - discriminate H.
  - apply bind_inl_inv in H. destruct H as [H | (iv & _ & H)].
    + eapply pack_H14s_error, H.
    + cbv zeta in H. apply bind_inl_inv in H. destruct H as [H | (hs' & _ & H)].
      * eapply list_pop_error, H.
      * eapply IH, H.
Qed.

Lemma layering_body_error (n : nat) (st : layer_state) (item : nat * bytes) (e : exn) :
  value (layering_body n st item) = inl e -> loop_error e.
Proof.
  destruct st as [[[a m] hs] c], item as [i km]. unfold layering_body. cbv zeta.
  intros H. rewrite bind_print in H. cbn [value fst] in H.
  apply bind_inl_inv in H. destruct H as [H | ([h hs'] & _ & H)].
  - eapply encrypt_hmacs_error, H.
  - discriminate H.
Qed.

Lemma layering_error (n : nat) (items : list (nat * bytes)) :
  forall (st : layer_state) (e : exn),
    value (layering n items st) = inl e -> loop_error e.
Proof.
  induction items as [| item rest IH]; intros st e H; cbn [layering] in H.
  - discriminate H.
  - apply bind_inl_inv in H. destruct H as [H | (st' & _ & H)].
    + eapply layering_body_error, H.
    + eapply IH, H.
Qed.

(** C9. [mix_client_n_hop] never checks the public keys it is given: for
    every list of points, valid or not, and an address and a message within
    their sizes, it raises no [AssertionError], and for up to 65537 points
    it returns the encoded message; [mix_client_one_hop] raises
    [AssertionError] as soon as its public key fails [check_point]. *)
Theorem n_hop_client_skips_point_check (x : Z) (pubs : list EcPt)
    (addr payload : bytes) :
  length addr <= 256 ->
  length payload <= 1000 ->
  value (mix_client_n_hop x pubs addr payload) <> inl AssertionError
  /\
  ((Z.of_nat (length pubs) <= 65537)%Z ->
   exists enc, value (mix_client_n_hop x pubs addr payload) = inr enc)
  /\
  (forall pk,
      check_point pk = false ->
      value (mix_client_one_hop x pk addr payload) = inl AssertionError).
Proof.
  intros Ha Hm. split; [| split].
  - unfold mix_client_n_hop.
    replace (length addr <=? 256) with true by (symmetry; apply Nat.leb_le; exact Ha).
    replace (length payload <=? 1000) with true by (symmetry; apply Nat.leb_le; exact Hm).
    unfold py_assert. rewrite !bind_ret_l.
    rewrite !pack_envelope by lia. rewrite !bind_ret_l.
    pose proof (key_schedule_eq pubs 0 [] [] x eq_refl) as E.
    cbn [app] in E. rewrite E. rewrite bind_ret_l.
    intros H. apply bind_inl_inv in H. destruct H as [H | ([[[a m] hs] c] & _ & H)].
    + apply layering_error in H. destruct H; discriminate.
    + discriminate H.
  - intros Hn. exists (encoded x pubs addr payload).
    apply mix_client_n_hop_value; assumption.
  - intros pk Hpk. unfold mix_client_one_hop. rewrite Hpk. reflexivity.
Qed.

(** ** Tampered messages *)

Lemma tamper_format_ok (f : field) (i k : nat) (msg : NHopMixMessage EcPt) :
  format_ok (tamper f i k msg) = format_ok msg.
Proof.
  unfold format_ok. destruct f; cbn [tamper ec_public_key hmacs address message];
    rewrite ?flip_bit_at_length; try reflexivity.
  destruct (hmacs msg); [reflexivity |]. rewrite flip_bit_at_length. reflexivity.
Qed.

Lemma mac_ok_eq (r : Z) (msg : NHopMixMessage EcPt) :
  mac_ok r msg = true -> hd [] (hmacs msg) = expected_mac r msg.
Proof.
  unfold mac_ok. destruct (hmacs msg) as [| mac0 rest]; [discriminate |].
  apply secure_compare_eq.
Qed.

Lemma tamper_mac0_mac_ok (r : Z) (i k : nat) (msg : NHopMixMessage EcPt) :
  mac_ok r msg = true ->
  i < field_length Mac0 msg -> k < 8 ->
  mac_ok r (tamper Mac0 i k msg) = false.
Proof.
  intros Hm Hi Hk. pose proof (mac_ok_eq r msg Hm) as E.
  unfold mac_ok, expected_mac, field_length in *.
  cbn [tamper ec_public_key hmacs address message].
  destruct (hmacs msg) as [| mac0 rest]; [reflexivity |].
  cbn [hd skipn] in *. apply secure_compare_neq.
  rewrite <- E. apply flip_bit_at_neq; assumption.
Qed.

Lemma tamper_data_mac_ok (r : Z) (f : field) (i k : nat) (msg : NHopMixMessage EcPt) :
  f <> Mac0 ->
  mac_ok r msg = true ->
  mac_ok r (tamper f i k msg)
  = secure_compare (expected_mac r msg) (expected_mac r (tamper f i k msg)).
Proof.
  intros Hf Hm. pose proof (mac_ok_eq r msg Hm) as E.
  unfold mac_ok in *.
  destruct f; [contradiction | |]; cbn [tamper hmacs];
    (destruct (hmacs msg) as [| mac0 rest]; [discriminate Hm |]);
    cbn [hd] in E; rewrite E; reflexivity.
Qed.

Lemma tamper_hmacs_length (f : field) (i k : nat) (msg : NHopMixMessage EcPt) :
  length (hmacs (tamper f i k msg)) = length (hmacs msg).
Proof.
  destruct f; cbn [tamper hmacs]; try reflexivity.
  destruct (hmacs msg); reflexivity.
Qed.

Lemma mix_server_n_hop_first_failure (r : Z) (final : bool) (msg : NHopMixMessage EcPt)
    (rest : list (NHopMixMessage EcPt)) (e : exn) :
  value (mix_server_n_hop_body r final msg) = inl e ->
  value (mix_server_n_hop r (msg :: rest) final) = inl e.
Proof.
  intros H. unfold mix_server_n_hop. rewrite loop_cons_value, H. reflexivity.
Qed.

Lemma tampered_rejected (r : Z) (final : bool) (f : field) (i k : nat)
    (msg : NHopMixMessage EcPt) :
  format_ok msg = true ->
  mac_ok r (tamper f i k msg) = false ->
  value (mix_server_n_hop r [tamper f i k msg] final) = inl HmacCheckFailure.
Proof.
  intros Hf Hm. apply mix_server_n_hop_first_failure.
  rewrite body_mac_failure; [reflexivity | | exact Hm].
  rewrite tamper_format_ok. exact Hf.
Qed.

Lemma oh_tamper_format_ok (f : field) (i k : nat) (msg : OneHopMixMessage EcPt) :
  oh_format_ok (oh_tamper f i k msg) = oh_format_ok msg.
Proof.
  unfold oh_format_ok.
  destruct f; cbn [oh_tamper oh_ec_public_key oh_hmac oh_address oh_message];
    rewrite ?flip_bit_at_length; reflexivity.
Qed.

Lemma tampered_accepted (r : Z) (final : bool) (f : field) (i k : nat)
    (msg : NHopMixMessage EcPt) :
  format_ok msg = true ->
  (Z.of_nat (length (hmacs msg)) <= 65537)%Z ->
  mac_ok r (tamper f i k msg) = true ->
  value (mix_server_n_hop r [tamper f i k msg] final)
  = inr [if final then Deliver (delivered r (tamper f i k msg))
         else Forward (peeled r (tamper f i k msg))].
Proof.
  intros Hf Hb Hm. apply mix_server_n_hop_single.
  rewrite body_accepted; [reflexivity | | exact Hm |].
  - rewrite tamper_format_ok. exact Hf.
  - rewrite tamper_hmacs_length. exact Hb.
Qed.

Lemma oh_tampered_outcome (r : Z) (f : field) (i k : nat) (msg : OneHopMixMessage EcPt) :
  oh_format_ok msg = true ->
  value (mix_server_one_hop r [oh_tamper f i k msg])
  = if secure_compare (oh_hmac (oh_tamper f i k msg))
                      (oh_expected_mac r (oh_tamper f i k msg))
    then inr [oh_delivered r (oh_tamper f i k msg)]
    else inl HmacCheckFailure.
Proof.
  intros Hf. rewrite mix_server_one_hop_value, oh_loop_cons_value.
  destruct (secure_compare (oh_hmac (oh_tamper f i k msg))
                           (oh_expected_mac r (oh_tamper f i k msg))) eqn:Hm.
  - rewrite oh_body_accepted; [reflexivity | | exact Hm].
    rewrite oh_tamper_format_ok. exact Hf.
  - rewrite oh_body_mac_failure; [reflexivity | | exact Hm].
    rewrite oh_tamper_format_ok. exact Hf.
Qed.

(** X20. Take the message the client encodes for a cascade, or for one hop,
    and flip one bit of it. For a bit of [macs[0]] the first relay raises
    "HMAC check failure" and returns nothing. For a bit of the address or of
    the message ciphertext the comparison of the MACs alone decides: the
    relay raises "HMAC check failure" when the truncated HMAC it computes
    over the changed fields differs from the one over the original fields,
    and otherwise decodes the changed message and forwards or delivers what
    it decrypts from it; no other exception arises. *)
Theorem tampering_outcome (x r : Z) (others : list Z) (addr payload : bytes) :
  length addr <= 256 ->
  length payload <= 1000 ->
  (Z.of_nat (length (r :: others)) <= 65537)%Z ->
  exists enc enc1,
    value (mix_client_n_hop x (map public_key_of (r :: others)) addr payload) = inr enc /\
    value (mix_client_one_hop x (public_key_of r) addr payload) = inr enc1 /\
    (forall i k final,
        i < field_length Mac0 enc -> k < 8 ->
        value (mix_server_n_hop r [tamper Mac0 i k enc] final) = inl HmacCheckFailure) /\
    (forall i k,
        i < oh_field_length Mac0 enc1 -> k < 8 ->
        value (mix_server_one_hop r [oh_tamper Mac0 i k enc1]) = inl HmacCheckFailure) /\
    (forall f i k final,
        f <> Mac0 ->
        value (mix_server_n_hop r [tamper f i k enc] final)
        = if secure_compare (expected_mac r enc) (expected_mac r (tamper f i k enc))
          then inr [if final then Deliver (delivered r (tamper f i k enc))
                    else Forward (peeled r (tamper f i k enc))]
          else inl HmacCheckFailure) /\
    (forall f i k,
        f <> Mac0 ->
        value (mix_server_one_hop r [oh_tamper f i k enc1])
        = if secure_compare (oh_expected_mac r enc1)
                            (oh_expected_mac r (oh_tamper f i k enc1))
          then inr [oh_delivered r (oh_tamper f i k enc1)]
          else inl HmacCheckFailure).
Proof.
  intros Ha Hm Hb.
  exists (encoded x (map public_key_of (r :: others)) addr payload),
    (oh_encoded x (public_key_of r) addr payload).
  assert (Hn : format_ok (encoded x (map public_key_of (r :: others)) addr payload) = true
               /\ mac_ok r (encoded x (map public_key_of (r :: others)) addr payload) = true
               /\ (Z.of_nat (length (hmacs (encoded x (map public_key_of (r :: others))
                                                     addr payload))) <= 65537)%Z).
  { rewrite encoded_sealed. cbn [map].
    destruct (peel_sealed x r (map public_key_of others)
                (envelope 256 addr, envelope 1000 payload, []))
      as (Hf & Hok & _); try apply envelope_length.
    split; [exact Hf |]. split; [exact Hok |].
    destruct (sealed_lengths x (public_key_of r :: map public_key_of others)
                (envelope 256 addr, envelope 1000 payload, [])) as (Hl & _).
    rewrite Hl. cbn [snd length] in *. rewrite length_map. lia. }
  destruct Hn as (Hf & Hok & Hlen).
  destruct (oh_encoded_accepted x r addr payload Ha Hm) as (Hf1 & Hok1 & _).
  split; [| split; [| split; [| split; [| split]]]].
  - apply mix_client_n_hop_value; [exact Ha | exact Hm |].
    rewrite length_map. exact Hb.
  - rewrite mix_client_one_hop_eq; [reflexivity | | exact Ha | exact Hm].
    apply check_point_public.
  - intros i k final Hi Hk.
    apply tampered_rejected; [exact Hf |].
    apply tamper_mac0_mac_ok; assumption.
  - intros i k Hi Hk. rewrite oh_tampered_outcome by exact Hf1.
    rewrite secure_compare_neq; [reflexivity |].
    apply secure_compare_eq in Hok1.
    cbn [oh_tamper oh_hmac]. unfold oh_expected_mac.
    cbn [oh_ec_public_key oh_address oh_message].
    unfold oh_expected_mac in Hok1. rewrite <- Hok1.
    apply flip_bit_at_neq; assumption.
  - intros f i k final Hne.
    rewrite <- (tamper_data_mac_ok r f i k _ Hne Hok).
    destruct (mac_ok r (tamper f i k _)) eqn:E.
    + apply tampered_accepted; assumption.
    + apply tampered_rejected; assumption.
  - intros f i k Hne. rewrite oh_tampered_outcome by exact Hf1.
    apply secure_compare_eq in Hok1.
    destruct f; [contradiction | |]; cbn [oh_tamper oh_hmac]; rewrite Hok1; reflexivity.
Qed.

(** ** Further behaviour of the encoders and decoders *)

(** X1. Both client encoders raise [AssertionError], before they derive a
    key or print anything, when the address is longer than 256 bytes or the
    message longer than 1000 bytes. *)
Theorem clients_reject_oversize (x : Z) (pubs : list EcPt) (pk : EcPt)
    (addr payload : bytes) :
  256 < length addr \/ 1000 < length payload ->
  mix_client_n_hop x pubs addr payload = raise AssertionError /\
  mix_client_one_hop x pk addr payload = raise AssertionError.
Proof.
  intros H. unfold mix_client_n_hop, mix_client_one_hop.
  destruct (check_point pk); destruct (length addr <=? 256) eqn:Ea;
    try (split; reflexivity);
    destruct (length payload <=? 1000) eqn:Em; try (split; reflexivity);
    apply Nat.leb_le in Ea, Em; lia.
Qed.

Lemma encrypt_hmacs_overflow (k : bytes) (snapshot : list bytes) :
  forall (j : nat) (done : list bytes) (h : Hmac),
    length done = j ->
    (Z.of_nat j <= 65536)%Z ->
    (65536 < Z.of_nat (j + length snapshot))%Z ->
    value (encrypt_hmacs k j snapshot h (done ++ snapshot)) = inl StructError.
Proof.
  induction snapshot as [| mac rest IH]; intros j done h Hd Hj Hb;
    cbn [encrypt_hmacs].
  - cbn [length] in Hb. lia.
  - cbn [length] in Hb. unfold pack_H14s.
    destruct (in_H (Z.of_nat j)) eqn:E; [| reflexivity].
    unfold in_H in E. apply andb_true_iff in E. destruct E as [_ E].
    apply Z.leb_le in E. rewrite bind_ret_l. cbv zeta.
    unfold list_pop.
    replace (j <? length (done ++ mac :: rest)) with true.
    2:{ symmetry. apply Nat.ltb_lt. rewrite length_app. cbn [length]. lia. }
    rewrite bind_ret_l. unfold list_insert.
    assert (E1 : firstn j (done ++ mac :: rest) = done).
    { subst j. rewrite firstn_app, firstn_all, Nat.sub_diag. cbn [firstn]. apply app_nil_r. }
    assert (E2 : skipn (S j) (done ++ mac :: rest) = rest).
    { subst j. rewrite skipn_app, skipn_all2 by lia.
      replace (S (length done) - length done) with 1 by lia. reflexivity. }
    rewrite E1, E2.
    assert (E3 : firstn j (done ++ rest) = done).
    { subst j. rewrite firstn_app, firstn_all, Nat.sub_diag. cbn [firstn]. apply app_nil_r. }
    assert (E4 : skipn j (done ++ rest) = rest).
    { subst j. rewrite skipn_app, skipn_all, Nat.sub_diag. reflexivity. }
    rewrite E3, E4.
    set (c := aes_ctr_enc_dec k _ mac).
    replace (done ++ c :: rest) with ((done ++ [c]) ++ rest)
      by (rewrite <- app_assoc; reflexivity).
    apply IH.
    + rewrite length_app. cbn [length]. lia.
    + lia.
    + lia.
Qed.

Lemma layering_body_overflow (n i : nat) (km : bytes) (inner : layer) :
  (65536 < Z.of_nat (length (snd inner)))%Z ->
  value (layering_body n (inner, length (snd inner)) (i, km)) = inl StructError.
Proof.
  destruct inner as [[a m] hs]. cbn [snd layering_body]. intros Hb. cbv zeta.
  rewrite firstn_all, bind_print. cbn [value fst].
  apply bind_value_inl.
  apply (encrypt_hmacs_overflow (slice 0 16 km) hs 0 []); [reflexivity | lia |].
  cbn [Nat.add]. exact Hb.
Qed.

Lemma layering_overflow (n : nat) (items : list (nat * bytes)) :
  forall (inner : layer),
    (Z.of_nat (length (snd inner)) <= 65537)%Z ->
    (65537 < Z.of_nat (length (snd inner) + length items))%Z ->
    value (layering n items (inner, length (snd inner))) = inl StructError.
Proof.
  induction items as [| [i km] rest IH]; intros inner Hc Hb; cbn [layering].
  - cbn [length] in Hb. lia.
  - cbn [length] in Hb.
    destruct (Z_le_gt_dec (Z.of_nat (length (snd inner))) 65536) as [Hle | Hgt].
    + rewrite (bind_value_inr _ _ _ (layering_body_value n i km inner Hle)).
      rewrite <- wrap_hmacs_length with (km := km).
      apply IH; rewrite wrap_hmacs_length; lia.
    + apply bind_value_inl. apply layering_body_overflow. lia.
Qed.

(** X2. For more than 65537 public keys [mix_client_n_hop] raises
    [struct.error]: the position of the 65537th MAC no longer fits the
    16-bit field of the positional IV. *)
Theorem client_cascade_too_long (x : Z) (pubs : list EcPt) (addr payload : bytes) :
  length addr <= 256 ->
  length payload <= 1000 ->
  (65537 < Z.of_nat (length pubs))%Z ->
  value (mix_client_n_hop x pubs addr payload) = inl StructError.
Proof.
  intros Ha Hm Hn. unfold mix_client_n_hop.
  replace (length addr <=? 256) with true by (symmetry; apply Nat.leb_le; exact Ha).
  replace (length payload <=? 1000) with true by (symmetry; apply Nat.leb_le; exact Hm).
  unfold py_assert. rewrite !bind_ret_l.
  rewrite !pack_envelope by lia. rewrite !bind_ret_l.
  pose proof (key_schedule_eq pubs 0 [] [] x eq_refl) as E.
  cbn [app] in E. rewrite E. rewrite bind_ret_l.
  apply bind_value_inl.
  apply (layering_overflow _ _ (envelope 256 addr, envelope 1000 payload, [])).
  - cbn [snd length]. lia.
  - cbn [snd length Nat.add].
    rewrite length_rev, enumerate_length, client_key_materials_length. exact Hn.
Qed.

(** X3. A message that passes the format and MAC checks but carries more
    than 65537 MACs makes [mix_server_n_hop] raise [struct.error] while it
    decrypts the MAC list, after it printed the expected MAC; the rest of
    the batch is not processed. *)
Theorem relay_too_many_macs (r : Z) (final : bool) (msg : NHopMixMessage EcPt)
    (rest : list (NHopMixMessage EcPt)) :
  format_ok msg = true ->
  mac_ok r msg = true ->
  (65537 < Z.of_nat (length (hmacs msg)))%Z ->
  mix_server_n_hop r (msg :: rest) final
  = (inl StructError, [[PyStr "Server: "; PyBytes (expected_mac r msg)]]).
Proof.
  intros Hf Hm Hb. unfold mix_server_n_hop. cbn [mix_server_n_hop_loop].
  rewrite body_struct_error by assumption. reflexivity.
Qed.

(** X4. With an empty list of public keys [mix_client_n_hop] returns a
    message without MACs whose address and message fields are the
    plaintext envelopes: both can be read back without any key. *)
Theorem client_empty_cascade_plaintext (x : Z) (addr payload : bytes) :
  length addr <= 256 ->
  length payload <= 1000 ->
  exists enc,
    value (mix_client_n_hop x [] addr payload) = inr enc /\
    hmacs enc = [] /\
    open_envelope (address enc) = addr /\
    open_envelope (message enc) = payload.
Proof.
  intros Ha Hm. exists (encoded x [] addr payload). split.
  - apply mix_client_n_hop_value; [exact Ha | exact Hm | cbn; lia].
  - cbn [encoded client_key_materials onion fold_right hmacs address message].
    rewrite !open_envelope_envelope by lia. auto.
Qed.

Lemma loop_acc (r : Z) (final : bool) (batch : list (NHopMixMessage EcPt)) :
  forall acc,
    value (mix_server_n_hop_loop r final batch acc) =
    match value (mix_server_n_hop_loop r final batch []) with
    | inl e => inl e
    | inr outs => inr (acc ++ outs)
    end.
Proof.
  induction batch as [| msg rest IH]; intros acc.
  - cbn. rewrite app_nil_r. reflexivity.
  - rewrite !loop_cons_value.
    destruct (value (mix_server_n_hop_body r final msg)) as [e | out]; [reflexivity |].
    rewrite (IH (acc ++ [out])), (IH ([] ++ [out])).
    destruct (value (mix_server_n_hop_loop r final rest [])); [reflexivity |].
    rewrite <- app_assoc. reflexivity.
Qed.

(** X5. Messages are decoded independently of each other: what
    [mix_server_n_hop] returns for two batches in a row is the exception of
    the first batch if it raises, else that of the second if it raises, else
    the outputs of the first followed by the outputs of the second. *)
Theorem batch_concatenation (r : Z) (final : bool)
    (batch1 batch2 : list (NHopMixMessage EcPt)) :
  value (mix_server_n_hop r (batch1 ++ batch2) final) =
  match value (mix_server_n_hop r batch1 final) with
  | inl e => inl e
  | inr outs1 =>
      match value (mix_server_n_hop r batch2 final) with
      | inl e => inl e
      | inr outs2 => inr (outs1 ++ outs2)
      end
  end.
Proof.
  unfold mix_server_n_hop.
  induction batch1 as [| msg rest IH].
  - cbn [app]. cbn [mix_server_n_hop_loop ret value fst].
    destruct (value (mix_server_n_hop_loop r final batch2 [])); reflexivity.
  - cbn [app]. rewrite !loop_cons_value.
    destruct (value (mix_server_n_hop_body r final msg)) as [e | out]; [reflexivity |].
    rewrite (loop_acc r final (rest ++ batch2)), (loop_acc r final rest), IH.
    destruct (value (mix_server_n_hop_loop r final rest [])) as [e | outs1];
      [reflexivity |].
    destruct (value (mix_server_n_hop_loop r final batch2 [])) as [e | outs2];
      [reflexivity |].
    rewrite app_assoc. reflexivity.
Qed.

Lemma from_binary_range (bs : bytes) :
  (0 <= from_binary bs < 256 ^ Z.of_nat (length bs))%Z.
Proof.
  unfold from_binary.
  assert (G : forall acc n, (0 <= acc < 256 ^ Z.of_nat n)%Z ->
            (0 <= fold_left (fun acc b => acc * 256 + Z_of_byte b) bs acc
             < 256 ^ Z.of_nat (n + length bs))%Z).
  { induction bs as [| b bs IH]; intros acc n Hacc; cbn [fold_left length].
    - rewrite Nat.add_0_r. exact Hacc.
    - replace (n + S (length bs)) with (S n + length bs) by lia.
      apply IH.
      assert (Hb : (0 <= Z_of_byte b < 256)%Z).
      { unfold Z_of_byte. pose proof (Byte.to_N_bounded b). lia. }
      rewrite Nat2Z.inj_succ, Z.pow_succ_r by lia. lia. }
  apply (G 0%Z 0). cbn. lia.
Qed.

(** X6. The blinding factor a relay or the client reads from the last 16
    bytes of a key material is an integer in [0, 2^128). *)
Theorem blinding_factor_range (private_key : Z) (pk : EcPt) :
  (0 <= from_binary (skipn 48 (sha512 (export (pt_mul private_key pk)))) < 2 ^ 128)%Z.
Proof.
  pose proof (from_binary_range (skipn 48 (sha512 (export (pt_mul private_key pk)))))
    as H.
  rewrite length_skipn, sha512_length in H.
  replace (64 - 48) with 16 in H by reflexivity.
  change (256 ^ Z.of_nat 16)%Z with (2 ^ 128)%Z in H. exact H.
Qed.

Lemma as_n_hop_format_ok (msg : OneHopMixMessage EcPt) :
  format_ok (as_n_hop msg) = oh_format_ok msg.
Proof. reflexivity. Qed.

Lemma as_n_hop_mac_ok (r : Z) (msg : OneHopMixMessage EcPt) :
  mac_ok r (as_n_hop msg) = secure_compare (oh_hmac msg) (oh_expected_mac r msg).
Proof. reflexivity. Qed.

Lemma as_n_hop_delivered (r : Z) (msg : OneHopMixMessage EcPt) :
  delivered r (as_n_hop msg) = oh_delivered r msg.
Proof. reflexivity. Qed.

(** X7. The one-hop format is the one-relay case of the n-hop format: the
    n-hop client, given a single valid public key, builds the message of the
    one-hop client with its MAC as the only entry of the MAC list; and a
    final n-hop relay treats a one-hop message presented in that form as
    the one-hop relay treats it, raising the same exception or delivering
    the same tuple. *)
Theorem one_hop_is_single_relay_case (x r : Z) :
  (forall pk addr payload,
      check_point pk = true ->
      length addr <= 256 ->
      length payload <= 1000 ->
      exists enc1,
        value (mix_client_one_hop x pk addr payload) = inr enc1 /\
        value (mix_client_n_hop x [pk] addr payload) = inr (as_n_hop enc1))
  /\
  (forall msg,
      value (mix_server_n_hop r [as_n_hop msg] true) =
      match value (mix_server_one_hop r [msg]) with
      | inl e => inl e
      | inr outs => inr (map Deliver outs)
      end).
Proof.
  split.
  - intros pk addr payload Hpk Ha Hm.
    exists (oh_encoded x pk addr payload). split.
    + rewrite mix_client_one_hop_eq by assumption. reflexivity.
    + rewrite mix_client_n_hop_value by (assumption || (cbn; lia)). reflexivity.
  - intros msg. unfold mix_server_n_hop.
    rewrite loop_cons_value, mix_server_one_hop_value, oh_loop_cons_value.
    destruct (oh_format_ok msg) eqn:Hf.
    + destruct (secure_compare (oh_hmac msg) (oh_expected_mac r msg)) eqn:Hm.
      * rewrite body_accepted, oh_body_accepted;
          rewrite ?as_n_hop_format_ok, ?as_n_hop_mac_ok; try assumption.
        -- cbn. rewrite as_n_hop_delivered. reflexivity.
        -- cbn. lia.
      * rewrite body_mac_failure, oh_body_mac_failure;
          rewrite ?as_n_hop_format_ok, ?as_n_hop_mac_ok; try assumption.
        reflexivity.
    + rewrite body_bad_length, oh_body_malformed;
        rewrite ?as_n_hop_format_ok; try assumption; [reflexivity | discriminate].
Qed.

(** ** The order on tuples, and sorted() as a canonical form *)

Lemma to_N_inj (x y : byte) : Byte.to_N x = Byte.to_N y -> x = y.
Proof.
  intros H. pose proof (Byte.of_to_N x) as Hx. rewrite H, Byte.of_to_N in Hx.
  inversion Hx. reflexivity.
Qed.

Lemma bytes_compare_eq (a b : bytes) : bytes_compare a b = Eq -> a = b.
Proof.
  revert b. induction a as [| x a IH]; intros [| y b]; cbn; try discriminate.
  - reflexivity.
  - destruct (Byte.to_N x ?= Byte.to_N y)%N eqn:E; try discriminate.
    intros H. apply N.compare_eq in E. apply to_N_inj in E. subst y.
    f_equal. apply IH, H.
Qed.

Lemma bytes_compare_refl (a : bytes) : bytes_compare a a = Eq.
Proof.
  induction a as [| x a IH]; cbn; [reflexivity |].
  rewrite N.compare_refl. exact IH.
Qed.

Lemma bytes_compare_lt_trans (a b c : bytes) :
  bytes_compare a b = Lt -> bytes_compare b c = Lt -> bytes_compare a c = Lt.
Proof.
  revert b c. induction a as [| x a IH]; intros [| y b] [| z c]; cbn;
    try discriminate; try reflexivity.
  destruct (Byte.to_N x ?= Byte.to_N y)%N eqn:E1; try discriminate;
    destruct (Byte.to_N y ?= Byte.to_N z)%N eqn:E2; try discriminate;
    intros H1 H2.
  - apply N.compare_eq in E1, E2. rewrite E1, E2, N.compare_refl. eapply IH; eassumption.
  - apply N.compare_eq in E1. rewrite E1, E2. reflexivity.
  - apply N.compare_eq in E2. rewrite <- E2, E1. reflexivity.
  - rewrite N.compare_lt_iff in E1, E2.
    replace (Byte.to_N x ?= Byte.to_N z)%N with Lt; [reflexivity |].
    symmetry. apply N.compare_lt_iff. lia.
Qed.

Lemma tuple_compare_eq (s t : bytes * bytes) : tuple_compare s t = Eq -> s = t.
Proof.
  unfold tuple_compare. destruct s as [a1 m1], t as [a2 m2]. cbn [fst snd].
  destruct (bytes_compare a1 a2) eqn:E; try discriminate.
  intros H. apply bytes_compare_eq in E, H. congruence.
Qed.

Lemma tuple_compare_lt_trans (s t u : bytes * bytes) :
  tuple_compare s t = Lt -> tuple_compare t u = Lt -> tuple_compare s u = Lt.
Proof.
  unfold tuple_compare. destruct s as [a1 m1], t as [a2 m2], u as [a3 m3].
  cbn [fst snd].
  destruct (bytes_compare a1 a2) eqn:E1; try discriminate;
    destruct (bytes_compare a2 a3) eqn:E2; try discriminate; intros H1 H2.
  - apply bytes_compare_eq in E1, E2. subst a2 a3. rewrite bytes_compare_refl.
    eapply bytes_compare_lt_trans; eassumption.
  - apply bytes_compare_eq in E1. subst a2. rewrite E2. reflexivity.
  - apply bytes_compare_eq in E2. subst a3. rewrite E1. reflexivity.
  - rewrite (bytes_compare_lt_trans _ _ _ E1 E2). reflexivity.
Qed.

Lemma tuple_compare_antisym (s t : bytes * bytes) :
  tuple_compare t s = CompOpp (tuple_compare s t).
Proof.
  unfold tuple_compare.
  rewrite (bytes_compare_antisym (fst s) (fst t)),
    (bytes_compare_antisym (snd s) (snd t)).
  destruct (bytes_compare (fst s) (fst t)), (bytes_compare (snd s) (snd t));
    reflexivity.
Qed.

Lemma tuple_le_trans (s t u : bytes * bytes) :
  tuple_le s t -> tuple_le t u -> tuple_le s u.
Proof.
  unfold tuple_le, tuple_leb.
  destruct (tuple_compare s t) eqn:E1; try discriminate;
    destruct (tuple_compare t u) eqn:E2; try discriminate; intros _ _.
  - apply tuple_compare_eq in E1. subst t. rewrite E2. reflexivity.
  - apply tuple_compare_eq in E1. subst t. rewrite E2. reflexivity.
  - apply tuple_compare_eq in E2. subst u. rewrite E1. reflexivity.
  - rewrite (tuple_compare_lt_trans _ _ _ E1 E2). reflexivity.
Qed.

Lemma tuple_le_antisym (s t : bytes * bytes) :
  tuple_le s t -> tuple_le t s -> s = t.
Proof.
  unfold tuple_le, tuple_leb. rewrite (tuple_compare_antisym s t).
  destruct (tuple_compare s t) eqn:E; cbn; try discriminate.
  intros _ _. apply tuple_compare_eq, E.
Qed.

Lemma sorted_StronglySorted (l : list (bytes * bytes)) :
  StronglySorted tuple_le (sorted l).
Proof.
  apply Sorted_StronglySorted; [| apply sorted_Sorted].
  intros s t u. apply tuple_le_trans.
Qed.

(** A list has one sorted arrangement. *)
Lemma StronglySorted_unique (l1 : list (bytes * bytes)) :
  forall l2,
    StronglySorted tuple_le l1 -> StronglySorted tuple_le l2 ->
    Permutation l1 l2 -> l1 = l2.
Proof.
  induction l1 as [| x l1 IH]; intros l2 H1 H2 Hp.
  - apply Permutation_nil in Hp. congruence.
  - destruct l2 as [| y l2].
    + apply Permutation_sym, Permutation_nil in Hp. discriminate.
    + inversion H1 as [| ? ? S1 F1]; subst. inversion H2 as [| ? ? S2 F2]; subst.
      assert (x = y).
      { assert (Hy : In y (x :: l1))
          by (eapply Permutation_in; [apply Permutation_sym, Hp | left; reflexivity]).
        assert (Hx : In x (y :: l2))
          by (eapply Permutation_in; [apply Hp | left; reflexivity]).
        destruct Hy as [-> | Hy]; [reflexivity |].
        destruct Hx as [-> | Hx]; [reflexivity |].
        rewrite Forall_forall in F1, F2.
        apply tuple_le_antisym; auto. }
      subst y. f_equal. apply IH; try assumption.
      eapply Permutation_cons_inv, Hp.
Qed.

Lemma sorted_permutation_invariant (l1 l2 : list (bytes * bytes)) :
  Permutation l1 l2 -> sorted l1 = sorted l2.
Proof.
  intros Hp. apply StronglySorted_unique; try apply sorted_StronglySorted.
  eapply perm_trans; [apply sorted_perm |].
  eapply perm_trans; [exact Hp | apply Permutation_sym, sorted_perm].
Qed.

(** X8. When [mix_server_one_hop] returns, its output is sorted by the
    order on tuples, it holds exactly the tuples the messages decode to,
    and it is the same for every arrival order of the batch. *)
Theorem one_hop_output_canonical (r : Z) (batch : list (OneHopMixMessage EcPt))
    (outs : list (bytes * bytes)) :
  value (mix_server_one_hop r batch) = inr outs ->
  StronglySorted tuple_le outs /\
  (exists queue,
      Forall2 (fun msg out => value (mix_server_one_hop_body r msg) = inr out)
              batch queue /\
      Permutation outs queue) /\
  (forall batch',
      Permutation batch batch' ->
      value (mix_server_one_hop r batch') = inr outs).
Proof.
  rewrite mix_server_one_hop_value.
  destruct (value (mix_server_one_hop_loop r batch [])) as [e | queue] eqn:E;
    [discriminate |].
  intros H. inversion H; subst outs. clear H.
  destruct (oh_loop_inversion r batch [] queue E) as (queue' & -> & Hall).
  cbn [app]. split; [apply sorted_StronglySorted |]. split.
  - exists queue'. split; [exact Hall | apply sorted_perm].
  - intros batch' Hp.
    destruct (Permutation_Forall2 Hp Hall) as (queue2 & Hq & Hall2).
    rewrite mix_server_one_hop_value.
    rewrite (oh_loop_all_decoded r batch' queue2 Hall2 []). cbn [app].
    f_equal. apply sorted_permutation_invariant, Permutation_sym, Hq.
Qed.

(** ** Batches through a cascade *)

Lemma forwarded_map_Forward (l : list (NHopMixMessage EcPt)) :
  forwarded (map Forward l) = l.
Proof.
  induction l as [| m l IH]; cbn; [reflexivity |]. f_equal. exact IH.
Qed.

Lemma delivered_sealed_last (x r : Z) (core : layer) :
  length (fst (fst core)) = 258 ->
  length (snd (fst core)) = 1002 ->
  delivered r (sealed x [public_key_of r] core)
  = (open_envelope (fst (fst core)), open_envelope (snd (fst core))).
Proof.
  intros Ha Hm.
  destruct (peel_sealed x r [] core Ha Hm) as (_ & _ & Hp).
  unfold delivered. rewrite Hp. unfold sealed.
  cbn [client_key_materials onion fold_right].
  destruct core as [[a m] hs]. reflexivity.
Qed.

Lemma server_batch_sealed (r : Z) (final : bool) (pubs : list EcPt)
    (items : list (Z * layer)) :
  Forall (fun item => core_ok (S (length pubs)) (snd item)) items ->
  Forall2 (fun msg out => value (mix_server_n_hop_body r final msg) = inr out)
    (map (fun item => sealed (fst item) (public_key_of r :: pubs) (snd item)) items)
    (map (fun item =>
            if final
            then Deliver (delivered r (sealed (fst item) (public_key_of r :: pubs)
                                              (snd item)))
            else Forward (sealed (next_private_key r (fst item)) pubs (snd item)))
         items).
Proof.
  induction 1 as [| [x core] items (Ha & Hm & Hb) _ IH]; cbn [map]; constructor;
    [| exact IH].
  cbn [fst snd] in *.
  destruct (peel_sealed x r pubs core Ha Hm) as (Hf & Hmac & Hp).
  pose proof (sealed_lengths x (public_key_of r :: pubs) core) as (Hl & _ & _).
  cbn [length] in Hl.
  rewrite body_accepted by (assumption || lia).
  cbn [value fst]. rewrite Hp. reflexivity.
Qed.

Lemma cascade_sealed_batch (rs : list Z) :
  forall (items : list (Z * layer)),
    rs <> [] ->
    Forall (fun item => core_ok (length rs) (snd item)) items ->
    value (cascade rs (map (fun item => sealed (fst item) (map public_key_of rs) (snd item))
                           items))
    = inr (map (fun item => Deliver (open_envelope (fst (fst (snd item))),
                                     open_envelope (snd (fst (snd item))))) items).
Proof.
  induction rs as [| r rest IH]; intros items Hne Hok; [contradiction |].
  cbn [map].
  assert (Hok' : Forall (fun item => core_ok (S (length (map public_key_of rest)))
                                             (snd item)) items).
  { rewrite length_map. exact Hok. }
  destruct rest as [| r' rest'].
  - cbn [cascade map]. unfold mix_server_n_hop.
    rewrite (loop_all_decoded r true _ _ (server_batch_sealed r true [] items Hok') []).
    cbn [app]. f_equal. apply map_ext_in. intros [x core] Hin.
    rewrite Forall_forall in Hok. destruct (Hok _ Hin) as (Ha & Hm & _).
    cbn [fst snd] in *. rewrite delivered_sealed_last by assumption. reflexivity.
  - cbn [cascade]. unfold mix_server_n_hop at 1.
    rewrite (bind_value_inr _ _ _
               (loop_all_decoded r false _ _
                  (server_batch_sealed r false _ items Hok') [])).
    cbn [app].
    rewrite <- (map_map (fun item => sealed (next_private_key r (fst item))
                                      (map public_key_of (r' :: rest')) (snd item)) Forward).
    rewrite forwarded_map_Forward.
    replace (map (fun item => sealed (next_private_key r (fst item))
                                      (map public_key_of (r' :: rest')) (snd item)) items)
      with (map (fun item => sealed (fst item) (map public_key_of (r' :: rest')) (snd item))
                (map (fun item => (next_private_key r (fst item), snd item)) items))
      by (rewrite map_map; reflexivity).
    refine (eq_trans (IH (map (fun item => (next_private_key r (fst item), snd item))
                              items) _ _) _).
    + discriminate.
    + rewrite Forall_map. eapply Forall_impl; [| exact Hok].
      intros [x core] (Ha & Hm & Hb). cbn [fst snd length] in *.
      repeat split; try assumption. lia.
    + rewrite map_map. reflexivity.
Qed.

(** X9. A batch of messages, each encoded by [mix_client_n_hop] with its
    own private key for the same cascade of 1 to 65537 relays, comes out of
    the cascade complete and in arrival order: the final relay returns the
    (address, message) pair of every message of the batch. *)
Theorem batch_roundtrip (relays : list Z) (inputs : list (Z * bytes * bytes)) :
  relays <> [] ->
  (Z.of_nat (length relays) <= 65537)%Z ->
  Forall (fun input => length (snd (fst input)) <= 256 /\ length (snd input) <= 1000)
         inputs ->
  exists batch,
    Forall2 (fun input enc =>
               value (mix_client_n_hop (fst (fst input)) (map public_key_of relays)
                                       (snd (fst input)) (snd input)) = inr enc)
            inputs batch /\
    value (cascade relays batch)
    = inr (map (fun input => Deliver (snd (fst input), snd input)) inputs).
Proof.
  intros Hne Hb Hin.
  set (items := map (fun input : Z * bytes * bytes =>
                       (fst (fst input),
                        (envelope 256 (snd (fst input)), envelope 1000 (snd input),
                         @nil bytes))) inputs).
  exists (map (fun item => sealed (fst item) (map public_key_of relays) (snd item)) items).
  split.
  - unfold items. rewrite map_map.
    induction Hin as [| [[x a] m] inputs [Ha Hm] _ IH]; cbn [map]; constructor;
      [| exact IH].
    cbn [fst snd] in *. rewrite <- encoded_sealed.
    apply mix_client_n_hop_value; [exact Ha | exact Hm |].
    rewrite length_map. exact Hb.
  - rewrite cascade_sealed_batch.
    + unfold items. rewrite map_map. f_equal. apply map_ext_in.
      intros [[x a] m] Hi. cbn [fst snd].
      rewrite Forall_forall in Hin. destruct (Hin _ Hi) as [Ha Hm]. cbn [fst snd] in *.
      rewrite !open_envelope_envelope by lia. reflexivity.
    + exact Hne.
    + unfold items. rewrite Forall_map. eapply Forall_impl; [| exact Hin].
      intros [[x a] m] _. cbn [fst snd]. unfold core_ok. cbn [fst snd length].
      rewrite !envelope_length. repeat split. lia.
Qed.

(** ** analyze_trace *)

Lemma py_in_In (x : Z) (l : list Z) : py_in x l = true <-> In x l.
Proof.
  unfold py_in. rewrite existsb_exists. split.
  - intros (y & Hy & E). apply Z.eqb_eq in E. subst y. exact Hy.
  - intros H. exists x. split; [exact H | apply Z.eqb_refl].
Qed.

Lemma analyze_trace_loop_eq (trace : list (list Z * list Z)) (target : Z) :
  forall acc, analyze_trace_loop trace target acc = acc ++ suspects_of trace target.
Proof.
  induction trace as [| [s r] rest IH]; intros acc;
    cbn [analyze_trace_loop suspects_of flat_map fst snd].
  - rewrite app_nil_r. reflexivity.
  - fold (suspects_of rest target).
    destruct (py_in target s); rewrite IH; [rewrite app_assoc |]; reflexivity.
Qed.

Lemma Counter_incr_keys_in (c : list (Z * Z)) (x : Z) :
  In x (map fst c) -> map fst (Counter_incr c x) = map fst c.
Proof.
  induction c as [| [y k] c IH]; cbn [map fst Counter_incr In]; [contradiction |].
  intros H. destruct (Z.eqb y x) eqn:E; [reflexivity |].
  cbn [map fst]. f_equal. apply IH.
  destruct H as [H | H]; [| exact H]. apply Z.eqb_neq in E. contradiction.
Qed.

Lemma Counter_incr_keys_new (c : list (Z * Z)) (x : Z) :
  ~ In x (map fst c) -> map fst (Counter_incr c x) = map fst c ++ [x].
Proof.
  induction c as [| [y k] c IH]; cbn [map fst Counter_incr In app]; [reflexivity |].
  intros H. destruct (Z.eqb y x) eqn:E.
  - apply Z.eqb_eq in E. exfalso. apply H. left. exact E.
  - cbn [map fst]. f_equal. apply IH. intros Hin. apply H. right. exact Hin.
Qed.

Lemma Counter_incr_In (c : list (Z * Z)) (x y k : Z) :
  NoDup (map fst c) ->
  In (y, k) (Counter_incr c x) ->
  (y <> x /\ In (y, k) c) \/
  (y = x /\ ((exists k0, In (x, k0) c /\ k = k0 + 1) \/
             (~ In x (map fst c) /\ k = 1)))%Z.
Proof.
  induction c as [| [z kz] c IH]; cbn [map fst Counter_incr In]; intros Hnd H.
  - destruct H as [H | []]. inversion H. right. split; [reflexivity |].
    right. split; [tauto | reflexivity].
  - inversion Hnd as [| ? ? Hz Hnd']; subst.
    destruct (Z.eqb z x) eqn:E.
    + apply Z.eqb_eq in E. subst z. destruct H as [H | H].
      * inversion H; subst. right. split; [reflexivity |]. left.
        exists kz. split; [left; reflexivity | reflexivity].
      * left. split; [| right; exact H].
        intros ->. apply Hz. apply (in_map fst) in H. exact H.
    + apply Z.eqb_neq in E. destruct H as [H | H].
      * inversion H; subst. left. split; [exact E | left; reflexivity].
      * destruct (IH Hnd' H) as [[Hne Hin] | [-> [(k0 & Hin & ->) | [Hnin ->]]]].
        -- left. split; [exact Hne | right; exact Hin].
        -- right. split; [reflexivity |]. left. exists k0. split; [right; exact Hin | reflexivity].
        -- right. split; [reflexivity |]. right. split; [| reflexivity].
           intros [Hzx | Hin]; [contradiction | apply Hnin, Hin].
Qed.

Lemma Counter_incr_counts (l : list Z) (c : list (Z * Z)) (x : Z) :
  counts_of l c -> counts_of (l ++ [x]) (Counter_incr c x).
Proof.
  intros (Hnd & Hkeys & Hcnt).
  destruct (in_dec Z.eq_dec x (map fst c)) as [Hin | Hnin].
  - split; [| split].
    + rewrite Counter_incr_keys_in by exact Hin. exact Hnd.
    + intros y. rewrite Counter_incr_keys_in by exact Hin.
      rewrite in_app_iff, Hkeys. cbn [In]. split; [tauto |].
      intros [H | [<- | []]]; [exact H | apply Hkeys, Hin].
    + intros y k H. rewrite count_occ_app. cbn [count_occ].
      destruct (Counter_incr_In c x y k Hnd H)
        as [[Hne Hy] | [-> [(k0 & Hy & ->) | [Hn _]]]].
      * destruct (Z.eq_dec x y); [congruence |]. rewrite (Hcnt _ _ Hy). lia.
      * destruct (Z.eq_dec x x); [| congruence]. rewrite (Hcnt _ _ Hy). lia.
      * contradiction.
  - split; [| split].
    + rewrite Counter_incr_keys_new by exact Hnin.
      eapply Permutation_NoDup; [apply Permutation_cons_append |].
      constructor; assumption.
    + intros y. rewrite Counter_incr_keys_new by exact Hnin.
      rewrite !in_app_iff, Hkeys. tauto.
    + intros y k H. rewrite count_occ_app. cbn [count_occ].
      destruct (Counter_incr_In c x y k Hnd H)
        as [[Hne Hy] | [-> [(k0 & Hy & ->) | [_ ->]]]].
      * destruct (Z.eq_dec x y); [congruence |]. rewrite (Hcnt _ _ Hy). lia.
      * exfalso. apply Hnin. apply (in_map fst) in Hy. exact Hy.
      * destruct (Z.eq_dec x x); [| congruence].
        assert (Hx : ~ In x l) by (intros Hx; apply Hnin, Hkeys, Hx).
        apply (count_occ_not_In Z.eq_dec) in Hx. rewrite Hx. reflexivity.
Qed.

Lemma Counter_counts (l : list Z) : counts_of l (Counter l).
Proof.
  unfold Counter.
  assert (G : forall l0 c0, counts_of l0 c0 ->
                            counts_of (l0 ++ l) (fold_left Counter_incr l c0)).
  { induction l as [| x l IH]; intros l0 c0 H; cbn [fold_left].
    - rewrite app_nil_r. exact H.
    - replace (l0 ++ x :: l) with ((l0 ++ [x]) ++ l)
        by (rewrite <- app_assoc; reflexivity).
      apply IH, Counter_incr_counts, H. }
  apply (G [] []). split; [constructor |]. split.
  - intros x. tauto.
  - intros x k [].
Qed.

Lemma insert_by_count_perm (x : Z * Z) (l : list (Z * Z)) :
  Permutation (insert_by_count x l) (x :: l).
Proof.
  induction l as [| y l IH]; cbn [insert_by_count].
  - apply Permutation_refl.
  - destruct (snd x <? snd y)%Z.
    + eapply perm_trans; [apply perm_skip, IH | apply perm_swap].
    + apply Permutation_refl.
Qed.

Lemma sorted_by_count_perm (c : list (Z * Z)) : Permutation (sorted_by_count c) c.
Proof.
  induction c as [| x c IH]; cbn [sorted_by_count fold_right].
  - constructor.
  - eapply perm_trans; [apply insert_by_count_perm | apply perm_skip, IH].
Qed.

Lemma insert_by_count_sorted (x : Z * Z) (l : list (Z * Z)) :
  StronglySorted count_ge l -> StronglySorted count_ge (insert_by_count x l).
Proof.
  induction 1 as [| y l Hs IH Hall]; cbn [insert_by_count].
  - repeat constructor.
  - destruct (snd x <? snd y)%Z eqn:E.
    + apply Z.ltb_lt in E. constructor; [exact IH |].
      eapply Permutation_Forall; [apply Permutation_sym, insert_by_count_perm |].
      constructor; [unfold count_ge; lia | exact Hall].
    + apply Z.ltb_ge in E. constructor; [constructor; assumption |].
      constructor; [exact E |].
      eapply Forall_impl; [| exact Hall]. unfold count_ge. intros z Hz. lia.
Qed.

Lemma sorted_by_count_sorted (c : list (Z * Z)) :
  StronglySorted count_ge (sorted_by_count c).
Proof.
  induction c as [| x c IH]; cbn [sorted_by_count fold_right].
  - constructor.
  - apply insert_by_count_sorted, IH.
Qed.

Lemma StronglySorted_app_cross {A} (R : A -> A -> Prop) (l1 l2 : list A) :
  StronglySorted R (l1 ++ l2) ->
  StronglySorted R l1 /\ forall a b, In a l1 -> In b l2 -> R a b.
Proof.
  induction l1 as [| x l1 IH]; cbn [app]; intros H.
  - split; [constructor | intros a b []].
  - inversion H as [| ? ? Hs Hall]; subst. destruct (IH Hs) as [IH1 IH2]. split.
    + constructor; [exact IH1 |]. apply Forall_app in Hall. tauto.
    + intros a b [<- | Ha] Hb.
      * rewrite Forall_forall in Hall. apply Hall, in_or_app. right. exact Hb.
      * apply IH2; assumption.
Qed.

Lemma most_common_firstn (n : Z) (c : list (Z * Z)) :
  most_common n c = firstn (Z.to_nat n) (sorted_by_count c).
Proof.
  unfold most_common. destruct (n <=? 0)%Z eqn:E; [| reflexivity].
  apply Z.leb_le in E. replace (Z.to_nat n) with 0 by lia. reflexivity.
Qed.

Lemma analyze_trace_eq (trace : list (list Z * list Z)) (n target : Z) :
  analyze_trace trace n target
  = map fst (firstn (Z.to_nat n) (sorted_by_count (Counter (suspects_of trace target)))).
Proof.
  unfold analyze_trace. cbv zeta.
  rewrite analyze_trace_loop_eq, most_common_firstn. reflexivity.
Qed.

(** What the result of [analyze_trace] is, in terms of the suspects and
    their scores. *)
Lemma analyze_trace_facts (trace : list (list Z * list Z)) (n target : Z) :
  let res := analyze_trace trace n target in
  let S := suspects_of trace target in
  NoDup res /\
  (forall x, In x res -> In x S) /\
  length res = Nat.min (Z.to_nat n) (length (nodup Z.eq_dec S)) /\
  StronglySorted (fun a b => (score trace target b <= score trace target a)%Z) res /\
  (forall x y, In x res -> In y S -> ~ In y res ->
               (score trace target y <= score trace target x)%Z).
Proof.
  intros res S. subst res. rewrite analyze_trace_eq. fold S.
  destruct (Counter_counts S) as (Hnd & Hkeys & Hcnt).
  set (c := Counter S) in *.
  set (s := sorted_by_count c).
  assert (Hperm : Permutation s c) by apply sorted_by_count_perm.
  assert (Hs : StronglySorted count_ge s) by apply sorted_by_count_sorted.
  set (k := Z.to_nat n).
  rewrite <- (firstn_skipn k s) in Hs, Hperm.
  destruct (StronglySorted_app_cross _ _ _ Hs) as [Hs1 Hcross].
  assert (Hin_c : forall p, In p (firstn k s ++ skipn k s) -> In p c).
  { intros p Hp. eapply Permutation_in; [exact Hperm | exact Hp]. }
  assert (Hscore : forall p, In p c -> snd p = score trace target (fst p)).
  { intros [x kx] Hp. cbn [fst snd]. unfold score. fold S. apply Hcnt, Hp. }
  assert (Hnd_s : NoDup (map fst (firstn k s ++ skipn k s))).
  { eapply Permutation_NoDup; [apply Permutation_sym, Permutation_map, Hperm | exact Hnd]. }
  split; [| split; [| split; [| split]]].
  - rewrite map_app in Hnd_s. eapply NoDup_app_remove_r, Hnd_s.
  - intros x Hx. apply Hkeys. apply in_map_iff in Hx. destruct Hx as (p & <- & Hp).
    apply in_map, Hin_c, in_or_app. left. exact Hp.
  - rewrite length_map, length_firstn. f_equal.
    transitivity (length (map fst c)).
    + rewrite length_map. unfold s. apply Permutation_length, sorted_by_count_perm.
    + apply Permutation_length, NoDup_Permutation; [exact Hnd | apply NoDup_nodup |].
      intros x. rewrite Hkeys, nodup_In. tauto.
  - assert (Hsub : forall p, In p (firstn k s) -> snd p = score trace target (fst p)).
    { intros p Hp. apply Hscore, Hin_c, in_or_app. left. exact Hp. }
    clear - Hs1 Hsub. induction Hs1 as [| p l Hsl IH Hall]; cbn [map].
    + constructor.
    + constructor.
      * apply IH. intros q Hq. apply Hsub. right. exact Hq.
      * rewrite Forall_map. rewrite Forall_forall in *. intros q Hq.
        specialize (Hall q Hq). unfold count_ge in Hall.
        rewrite <- (Hsub p (or_introl eq_refl)), <- (Hsub q (or_intror Hq)). exact Hall.
  - intros x y Hx Hy Hny.
    apply in_map_iff in Hx. destruct Hx as (p & <- & Hp).
    apply Hkeys in Hy. apply in_map_iff in Hy. destruct Hy as (q & <- & Hq).
    assert (Hq' : In q (firstn k s ++ skipn k s)).
    { eapply Permutation_in; [apply Permutation_sym, Hperm | exact Hq]. }
    apply in_app_or in Hq'. destruct Hq' as [Hq' | Hq'].
    + exfalso. apply Hny. apply in_map, Hq'.
    + rewrite <- (Hscore p), <- (Hscore q).
      * apply (Hcross p q Hp Hq').
      * exact Hq.
      * apply Hin_c, in_or_app. left. exact Hp.
Qed.

Lemma suspects_of_In (trace : list (list Z * list Z)) (target x : Z) :
  In x (suspects_of trace target) <->
  exists senders receivers,
    In (senders, receivers) trace /\ In target senders /\ In x receivers.
Proof.
  unfold suspects_of. rewrite in_flat_map. split.
  - intros ([s r] & Hin & Hx). cbn [fst snd] in Hx.
    destruct (py_in target s) eqn:E; [| contradiction].
    exists s, r. repeat split; try assumption. apply py_in_In, E.
  - intros (s & r & Hin & Ht & Hx). exists (s, r). split; [exact Hin |].
    cbn [fst snd]. apply py_in_In in Ht. rewrite Ht. exact Hx.
Qed.

(** X10. [analyze_trace] returns distinct users, each a receiver of some
    round in which the target was a sender; their number is the requested
    number of friends (none if it is not positive), or the number of
    distinct such receivers if there are fewer. *)
Theorem analyze_trace_suspects (trace : list (list Z * list Z)) (n target : Z) :
  NoDup (analyze_trace trace n target) /\
  (forall x, In x (analyze_trace trace n target) ->
             exists senders receivers,
               In (senders, receivers) trace /\ In target senders /\ In x receivers) /\
  length (analyze_trace trace n target)
  = Nat.min (Z.to_nat n) (length (nodup Z.eq_dec (suspects_of trace target))).
Proof.
  destruct (analyze_trace_facts trace n target) as (H1 & H2 & H3 & _).
  split; [exact H1 |]. split; [| exact H3].
  intros x Hx. apply suspects_of_In, H2, Hx.
Qed.

(** X11. The users [analyze_trace] returns are the most frequent receivers
    of the target's rounds: they come in order of decreasing score, and no
    receiver of those rounds that is left out has a higher score than one
    that is returned. *)
Theorem analyze_trace_most_frequent (trace : list (list Z * list Z)) (n target : Z) :
  StronglySorted (fun a b => (score trace target b <= score trace target a)%Z)
                 (analyze_trace trace n target) /\
  (forall x y,
      In x (analyze_trace trace n target) ->
      In y (suspects_of trace target) ->
      ~ In y (analyze_trace trace n target) ->
      (score trace target y <= score trace target x)%Z).
Proof.
  destruct (analyze_trace_facts trace n target) as (_ & _ & _ & H4 & H5).
  split; assumption.
Qed.

Lemma suspects_of_filter (trace : list (list Z * list Z)) (target : Z) :
  suspects_of (filter (fun round => py_in target (fst round)) trace) target
  = suspects_of trace target.
Proof.
  unfold suspects_of. induction trace as [| [s r] rest IH]; cbn [filter flat_map fst snd].
  - reflexivity.
  - destruct (py_in target s) eqn:E; cbn [flat_map fst snd app]; rewrite ?E, IH; reflexivity.
Qed.

(** X12. Rounds in which the target does not send have no influence on the
    result of [analyze_trace]: it is the result for the trace with those
    rounds dropped; when the target sends in no round, the result is
    empty. *)
Theorem analyze_trace_ignores_other_rounds (trace : list (list Z * list Z))
    (n target : Z) :
  analyze_trace trace n target
  = analyze_trace (filter (fun round => py_in target (fst round)) trace) n target
  /\
  ((forall senders receivers, In (senders, receivers) trace -> ~ In target senders) ->
   analyze_trace trace n target = []).
Proof.
  split.
  - rewrite !analyze_trace_eq, suspects_of_filter. reflexivity.
  - intros H. rewrite analyze_trace_eq.
    assert (E : suspects_of trace target = []).
    { destruct (suspects_of trace target) as [| x l] eqn:E; [reflexivity |].
      assert (Hx : In x (suspects_of trace target)) by (rewrite E; left; reflexivity).
      apply suspects_of_In in Hx. destruct Hx as (s & r & Hin & Ht & _).
      exfalso. exact (H s r Hin Ht). }
    rewrite E. cbn. rewrite firstn_nil. reflexivity.
Qed.

(** X13. A receiver whose score is strictly higher than that of every
    other receiver of the target's rounds is the first user [analyze_trace]
    returns, whenever at least one friend is asked for. *)
Theorem analyze_trace_strict_winner (trace : list (list Z * list Z))
    (n target friend : Z) :
  (1 <= n)%Z ->
  In friend (suspects_of trace target) ->
  (forall y, In y (suspects_of trace target) -> y <> friend ->
             (score trace target y < score trace target friend)%Z) ->
  hd_error (analyze_trace trace n target) = Some friend.
Proof.
  intros Hn Hf Hmax.
  destruct (analyze_trace_facts trace n target) as (_ & H2 & H3 & H4 & H5).
  cbv zeta in *.
  destruct (analyze_trace trace n target) as [| h res] eqn:E.
  - exfalso. cbn [length] in H3.
    assert (Hpos : 0 < length (nodup Z.eq_dec (suspects_of trace target))).
    { destruct (nodup Z.eq_dec (suspects_of trace target)) as [| z l] eqn:En.
      - apply (nodup_In Z.eq_dec) in Hf. rewrite En in Hf. contradiction.
      - cbn. lia. }
    lia.
  - cbn [hd_error]. f_equal.
    destruct (Z.eq_dec h friend) as [-> | Hne]; [reflexivity |].
    exfalso.
    assert (Hh : In h (suspects_of trace target)) by (apply H2; left; reflexivity).
    pose proof (Hmax h Hh Hne) as Hlt.
    destruct (in_dec Z.eq_dec friend (h :: res)) as [Hin | Hnin].
    + destruct Hin as [-> | Hin]; [congruence |].
      inversion H4 as [| ? ? _ Hall]; subst.
      rewrite Forall_forall in Hall. specialize (Hall _ Hin). lia.
    + specialize (H5 h friend (or_introl eq_refl) Hf Hnin). lia.
Qed.

(** ** generate_trace *)

Lemma nd_bind_inr {A B} (m : ND A) (f : A -> ND B) (b : B) :
  nd_bind m f (inr b) -> exists a, m (inr a) /\ f a (inr b).
Proof.
  intros [(e & _ & H) | H]; [discriminate H | exact H].
Qed.

Lemma nd_bind_inl {A B} (m : ND A) (f : A -> ND B) (e : trace_exn) :
  nd_bind m f (inl e) -> m (inl e) \/ exists a, m (inr a) /\ f a (inl e).
Proof.
  intros [(e' & H & E) | H]; [inversion E; subst; left; exact H | right; exact H].
Qed.

Lemma random_sample_inr (population : list Z) (k : Z) (s : list Z) :
  random_sample population k (inr s) <->
  (0 <= k <= Z.of_nat (length population))%Z /\ is_sample population k s.
Proof.
  unfold random_sample.
  destruct ((0 <=? k) && (k <=? Z.of_nat (length population)))%Z eqn:E.
  - apply andb_true_iff in E. rewrite !Z.leb_le in E. split.
    + intros (s' & Es & H). inversion Es; subst. auto.
    + intros [_ H]. exists s. auto.
  - apply andb_false_iff in E. rewrite !Z.leb_gt in E. split.
    + discriminate.
    + intros [H _]. lia.
Qed.

Lemma random_sample_inl (population : list Z) (k : Z) (e : trace_exn) :
  random_sample population k (inl e) <->
  e = ValueError /\ ~ (0 <= k <= Z.of_nat (length population))%Z.
Proof.
  unfold random_sample.
  destruct ((0 <=? k) && (k <=? Z.of_nat (length population)))%Z eqn:E.
  - apply andb_true_iff in E. rewrite !Z.leb_le in E. split.
    + intros (s' & Es & _). discriminate Es.
    + intros [_ H]. contradiction.
  - apply andb_false_iff in E. rewrite !Z.leb_gt in E. split.
    + intros H. inversion H. split; [reflexivity | lia].
    + intros [-> _]. reflexivity.
Qed.

Lemma firstn_is_sample (population : list Z) (k : Z) :
  (0 <= k <= Z.of_nat (length population))%Z ->
  is_sample population k (firstn (Z.to_nat k) population).
Proof.
  intros H. split.
  - rewrite length_firstn. lia.
  - exists (skipn (Z.to_nat k) population). rewrite firstn_skipn. apply Permutation_refl.
Qed.

Lemma is_sample_perm (population : list Z) (k : Z) (s s' : list Z) :
  is_sample population k s -> Permutation s s' -> is_sample population k s'.
Proof.
  intros [Hl (rest & Hp)] Hs. split.
  - rewrite <- (Permutation_length Hs). exact Hl.
  - exists rest. eapply perm_trans; [| exact Hp].
    apply Permutation_app_tail, Permutation_sym, Hs.
Qed.

Lemma is_sample_In (population : list Z) (k : Z) (s : list Z) (x : Z) :
  is_sample population k s -> In x s -> In x population.
Proof.
  intros [_ (rest & Hp)] Hx. eapply Permutation_in; [exact Hp |].
  apply in_or_app. left. exact Hx.
Qed.

Lemma is_sample_NoDup (population : list Z) (k : Z) (s : list Z) :
  NoDup population -> is_sample population k s -> NoDup s.
Proof.
  intros Hnd [_ (rest & Hp)].
  eapply NoDup_app_remove_r, Permutation_NoDup; [apply Permutation_sym, Hp | exact Hnd].
Qed.

Lemma py_range_In (a b x : Z) : In x (py_range a b) <-> (a <= x < b)%Z.
Proof.
  unfold py_range. rewrite in_map_iff. split.
  - intros (i & <- & Hi). apply in_seq in Hi. lia.
  - intros H. exists (Z.to_nat (x - a)). split; [lia |]. apply in_seq. lia.
Qed.

Lemma py_range_length (a b : Z) : Z.of_nat (length (py_range a b)) = Z.max 0 (b - a).
Proof. unfold py_range. rewrite length_map, length_seq. lia. Qed.

Lemma py_range_NoDup (a b : Z) : NoDup (py_range a b).
Proof.
  unfold py_range. generalize (Z.to_nat (b - a)) as n. generalize 0 as start.
  intros start n. revert start. induction n as [| n IH]; intros start; cbn [seq map].
  - constructor.
  - constructor; [| apply IH].
    rewrite in_map_iff. intros (i & E & Hi). apply in_seq in Hi. lia.
Qed.

Lemma insert_int_perm (x : Z) (l : list Z) : Permutation (insert_int x l) (x :: l).
Proof.
  induction l as [| y l IH]; cbn [insert_int].
  - apply Permutation_refl.
  - destruct (x <=? y)%Z.
    + apply Permutation_refl.
    + eapply perm_trans; [apply perm_skip, IH | apply perm_swap].
Qed.

Lemma sorted_int_perm (l : list Z) : Permutation (sorted_int l) l.
Proof.
  induction l as [| x l IH]; cbn [sorted_int fold_right].
  - constructor.
  - eapply perm_trans; [apply insert_int_perm | apply perm_skip, IH].
Qed.

Lemma insert_int_sorted (x : Z) (l : list Z) :
  StronglySorted Z.le l -> StronglySorted Z.le (insert_int x l).
Proof.
  induction 1 as [| y l Hs IH Hall]; cbn [insert_int].
  - repeat constructor.
  - destruct (x <=? y)%Z eqn:E.
    + apply Z.leb_le in E. constructor; [constructor; assumption |].
      constructor; [exact E |]. eapply Forall_impl; [| exact Hall]. intros z Hz. lia.
    + apply Z.leb_gt in E. constructor; [exact IH |].
      eapply Permutation_Forall; [apply Permutation_sym, insert_int_perm |].
      constructor; [lia | exact Hall].
Qed.

Lemma sorted_int_sorted (l : list Z) : StronglySorted Z.le (sorted_int l).
Proof.
  induction l as [| x l IH]; cbn [sorted_int fold_right].
  - constructor.
  - apply insert_int_sorted, IH.
Qed.

Lemma quiet_rounds_outcome (n t : Z) (count : nat) :
  forall trace r,
    quiet_rounds count (py_range 1 n) (py_range 0 n) t trace r ->
    match r with
    | inl e => e = ValueError /\ count <> 0 /\ ~ (0 <= t <= Z.max 0 (n - 1))%Z
    | inr trace' =>
        (count = 0 \/ (0 <= t <= Z.max 0 (n - 1))%Z) /\
        exists new,
          trace' = trace ++ new /\ length new = count /\
          Forall (fun round => quiet_round n t round /\
                               StronglySorted Z.le (fst round) /\
                               StronglySorted Z.le (snd round)) new
    end.
Proof.
  induction count as [| count IH]; intros trace r H; cbn [quiet_rounds] in H.
  - unfold nd_ret in H. subst r. split; [left; reflexivity |].
    exists []. rewrite app_nil_r. repeat split. constructor.
  - destruct r as [e | trace'].
    + apply nd_bind_inl in H. destruct H as [H | (s & Hs & H)].
      * apply random_sample_inl in H. rewrite py_range_length in H.
        destruct H as [-> H]. replace (n - 1 - 0)%Z with (n - 1)%Z in * by lia.
        repeat split; [discriminate | ].
        replace (n - 1)%Z with (n - 1)%Z by lia. intros Hv. apply H. lia.
      * apply random_sample_inr in Hs. rewrite py_range_length in Hs.
        cbv zeta in H. apply nd_bind_inl in H. destruct H as [H | (r0 & Hr & H)].
        -- apply random_sample_inl in H. rewrite py_range_length in H. lia.
        -- apply IH in H. destruct H as (-> & _ & H). lia.
    + apply nd_bind_inr in H. destruct H as (s & Hs & H). cbv zeta in H.
      apply nd_bind_inr in H. destruct H as (r0 & Hr & H).
      apply random_sample_inr in Hs, Hr. rewrite py_range_length in Hs, Hr.
      apply IH in H. destruct H as (_ & new & -> & Hl & Hall).
      split; [right; lia |].
      exists ((sorted_int s, sorted_int r0) :: new). split; [| split].
      * rewrite <- app_assoc. reflexivity.
      * cbn [length]. lia.
      * constructor; [| exact Hall]. cbn [fst snd]. split; [split |].
        -- eapply is_sample_perm; [apply Hs | apply Permutation_sym, sorted_int_perm].
        -- eapply is_sample_perm; [apply Hr | apply Permutation_sym, sorted_int_perm].
        -- split; apply sorted_int_sorted.
Qed.

Lemma quiet_rounds_can_return (n t : Z) (count : nat) :
  (0 <= t <= Z.max 0 (n - 1))%Z ->
  forall trace, exists trace',
    quiet_rounds count (py_range 1 n) (py_range 0 n) t trace (inr trace').
Proof.
  intros Hv. induction count as [| count IH]; intros trace; cbn [quiet_rounds].
  - exists trace. reflexivity.
  - set (s := firstn (Z.to_nat t) (py_range 1 n)).
    set (r0 := firstn (Z.to_nat t) (py_range 0 n)).
    destruct (IH (trace ++ [(sorted_int s, sorted_int r0)])) as [trace' H].
    exists trace'. right. exists s. split.
    + apply random_sample_inr. rewrite py_range_length.
      split; [lia |]. apply firstn_is_sample. rewrite py_range_length. lia.
    + cbv zeta. right. exists r0. split; [| exact H].
      apply random_sample_inr. rewrite py_range_length.
      split; [lia |]. apply firstn_is_sample. rewrite py_range_length. lia.
Qed.

Lemma quiet_rounds_can_raise (n t : Z) (count : nat) (trace : list (list Z * list Z)) :
  ~ (0 <= t <= Z.max 0 (n - 1))%Z ->
  quiet_rounds (S count) (py_range 1 n) (py_range 0 n) t trace (inl ValueError).
Proof.
  intros Hv. cbn [quiet_rounds]. left. exists ValueError. split; [| reflexivity].
  apply random_sample_inl. rewrite py_range_length. split; [reflexivity | lia].
Qed.

Lemma target_rounds_outcome (n t : Z) (friends : list Z) (count : nat) :
  forall trace r,
    target_rounds count (py_range 1 n) (py_range 0 n) t friends trace r ->
    match r with
    | inl e =>
        count <> 0 /\
        ((e = ValueError /\ ~ (1 <= t <= 1 + Z.max 0 (n - 1))%Z) \/
         (e = IndexError_choice /\ (1 <= t <= 1 + Z.max 0 (n - 1))%Z /\ friends = []))
    | inr trace' =>
        (count = 0 \/ ((1 <= t <= 1 + Z.max 0 (n - 1))%Z /\ friends <> [])) /\
        exists new,
          trace' = trace ++ new /\ length new = count /\
          Forall (fun round => target_round n t friends round /\
                               StronglySorted Z.le (fst round) /\
                               StronglySorted Z.le (snd round)) new
    end.
Proof.
  induction count as [| count IH]; intros trace r H; cbn [target_rounds] in H.
  - unfold nd_ret in H. subst r. split; [left; reflexivity |].
    exists []. rewrite app_nil_r. repeat split. constructor.
  - destruct r as [e | trace'].
    + split; [discriminate |].
      apply nd_bind_inl in H. destruct H as [H | (s & Hs & H)].
      * apply random_sample_inl in H. rewrite py_range_length in H.
        destruct H as [-> H]. left. split; [reflexivity | lia].
      * apply random_sample_inr in Hs. rewrite py_range_length in Hs.
        cbv zeta in H. apply nd_bind_inl in H. destruct H as [H | (friend & Hf & H)].
        -- unfold random_choice in H. destruct friends as [| f fs].
           ++ inversion H. right. repeat split; lia.
           ++ destruct H as (x & Hx & _). discriminate Hx.
        -- apply nd_bind_inl in H. destruct H as [H | (r0 & Hr & H)].
           ++ apply random_sample_inl in H. rewrite py_range_length in H. lia.
           ++ apply IH in H. destruct H as (_ & [[-> H] | (-> & H1 & H2)]).
              ** lia.
              ** subst friends. unfold random_choice in Hf. discriminate Hf.
    + apply nd_bind_inr in H. destruct H as (s & Hs & H). cbv zeta in H.
      apply nd_bind_inr in H. destruct H as (friend & Hf & H).
      apply nd_bind_inr in H. destruct H as (r0 & Hr & H).
      apply random_sample_inr in Hs, Hr. rewrite py_range_length in Hs, Hr.
      assert (Hfriend : In friend friends /\ friends <> []).
      { unfold random_choice in Hf. destruct friends as [| f fs]; [discriminate Hf |].
        destruct Hf as (x & Hx & Hin). inversion Hx; subst. split; [exact Hin | discriminate]. }
      apply IH in H. destruct H as (_ & new & -> & Hl & Hall).
      split; [right; split; [lia | tauto] |].
      exists ((sorted_int (0%Z :: s), sorted_int (friend :: r0)) :: new). split; [| split].
      * rewrite <- app_assoc. reflexivity.
      * cbn [length]. lia.
      * constructor; [| exact Hall]. cbn [fst snd]. split.
        -- exists s, friend, r0. cbn [fst snd].
           split; [apply Hs |]. split; [apply Hfriend |]. split; [apply Hr |].
           split; apply sorted_int_perm.
        -- split; apply sorted_int_sorted.
Qed.

Lemma target_rounds_can_return (n t : Z) (friends : list Z) (count : nat) :
  (1 <= t <= 1 + Z.max 0 (n - 1))%Z ->
  friends <> [] ->
  forall trace, exists trace',
    target_rounds count (py_range 1 n) (py_range 0 n) t friends trace (inr trace').
Proof.
  intros Hv Hf. induction count as [| count IH]; intros trace; cbn [target_rounds].
  - exists trace. reflexivity.
  - destruct friends as [| f fs]; [contradiction |].
    set (s := firstn (Z.to_nat (t - 1)) (py_range 1 n)).
    set (r0 := firstn (Z.to_nat (t - 1)) (py_range 0 n)).
    destruct (IH (trace ++ [(sorted_int (0%Z :: s), sorted_int (f :: r0))])) as [trace' H].
    exists trace'. right. exists s. split.
    + apply random_sample_inr. rewrite py_range_length.
      split; [lia |]. apply firstn_is_sample. rewrite py_range_length. lia.
    + cbv zeta. right. exists f. split.
      * exists f. split; [reflexivity | left; reflexivity].
      * right. exists r0. split; [| exact H].
        apply random_sample_inr. rewrite py_range_length.
        split; [lia |]. apply firstn_is_sample. rewrite py_range_length. lia.
Qed.

Lemma target_rounds_can_raise (n t : Z) (friends : list Z) (count : nat)
    (trace : list (list Z * list Z)) :
  target_rounds (S count) (py_range 1 n) (py_range 0 n) t friends trace
    (inl (if ((1 <=? t) && (t <=? 1 + Z.max 0 (n - 1)))%Z
          then IndexError_choice else ValueError)) \/
  ((1 <= t <= 1 + Z.max 0 (n - 1))%Z /\ friends <> []).
Proof.
  destruct ((1 <=? t) && (t <=? 1 + Z.max 0 (n - 1)))%Z eqn:E.
  - apply andb_true_iff in E. rewrite !Z.leb_le in E.
    destruct friends as [| f fs]; [| right; split; [exact E | discriminate]].
    left. cbn [target_rounds]. right.
    exists (firstn (Z.to_nat (t - 1)) (py_range 1 n)). split.
    + apply random_sample_inr. rewrite py_range_length.
      split; [lia |]. apply firstn_is_sample. rewrite py_range_length. lia.
    + cbv zeta. left. exists IndexError_choice. split; reflexivity.
  - apply andb_false_iff in E. rewrite !Z.leb_gt in E.
    left. cbn [target_rounds]. left. exists ValueError. split; [| reflexivity].
    apply random_sample_inl. rewrite py_range_length. split; [reflexivity | lia].
Qed.

Lemma quiet_round_facts (n t : Z) (round : list Z * list Z) :
  quiet_round n t round ->
  Z.of_nat (length (fst round)) = t /\ Z.of_nat (length (snd round)) = t /\
  NoDup (fst round) /\ Forall (fun u => (1 <= u < n)%Z) (fst round) /\
  py_in 0 (fst round) = false.
Proof.
  intros [Hs Hr].
  assert (Hrange : Forall (fun u => (1 <= u < n)%Z) (fst round)).
  { apply Forall_forall. intros u Hu. apply py_range_In.
    eapply is_sample_In; eassumption. }
  split; [apply Hs |]. split; [apply Hr |].
  split; [eapply is_sample_NoDup; [apply py_range_NoDup | exact Hs] |].
  split; [exact Hrange |].
  destruct (py_in 0 (fst round)) eqn:E; [| reflexivity].
  apply py_in_In in E. rewrite Forall_forall in Hrange. specialize (Hrange _ E). lia.
Qed.

Lemma target_round_facts (n t : Z) (friends : list Z) (round : list Z * list Z) :
  target_round n t friends round ->
  Z.of_nat (length (fst round)) = t /\ Z.of_nat (length (snd round)) = t /\
  NoDup (fst round) /\ Forall (fun u => u = 0%Z \/ (1 <= u < n)%Z) (fst round) /\
  py_in 0 (fst round) = true /\
  exists friend r,
    In friend friends /\ NoDup r /\ Permutation (snd round) (friend :: r).
Proof.
  intros (s & friend & r & Hs & Hf & Hr & Hp1 & Hp2).
  assert (Hrange : Forall (fun u => (1 <= u < n)%Z) s).
  { apply Forall_forall. intros u Hu. apply py_range_In.
    eapply is_sample_In; eassumption. }
  split; [rewrite (Permutation_length Hp1); cbn [length]; destruct Hs; lia |].
  split; [rewrite (Permutation_length Hp2); cbn [length]; destruct Hr; lia |].
  split; [| split; [| split]].
  - eapply Permutation_NoDup; [apply Permutation_sym, Hp1 |].
    constructor; [| eapply is_sample_NoDup; [apply py_range_NoDup | exact Hs]].
    intros H0. rewrite Forall_forall in Hrange. specialize (Hrange _ H0). lia.
  - eapply Permutation_Forall; [apply Permutation_sym, Hp1 |].
    constructor; [left; reflexivity |].
    eapply Forall_impl; [| exact Hrange]. intros u Hu. right. exact Hu.
  - apply py_in_In. eapply Permutation_in; [apply Permutation_sym, Hp1 | left; reflexivity].
  - exists friend, r. split; [exact Hf |]. split; [| exact Hp2].
    eapply is_sample_NoDup; [apply py_range_NoDup | exact Hr].
Qed.

(** A returned trace is an arrangement of the rounds of the two loops. *)
Lemma generate_trace_inv (n t rounds : Z) (friends : list Z)
    (trace : list (list Z * list Z)) :
  generate_trace n t rounds friends (inr trace) ->
  exists quiet target,
    Permutation (quiet ++ target) trace /\
    length quiet = Z.to_nat (rounds / 2) /\
    length target = Z.to_nat (rounds / 2) /\
    Forall (fun round => quiet_round n t round /\
                         StronglySorted Z.le (fst round) /\
                         StronglySorted Z.le (snd round)) quiet /\
    Forall (fun round => target_round n t friends round /\
                         StronglySorted Z.le (fst round) /\
                         StronglySorted Z.le (snd round)) target /\
    (Z.to_nat (rounds / 2) = 0 \/ ((1 <= t <= n - 1)%Z /\ friends <> [])).
Proof.
  unfold generate_trace. cbv zeta. intros H.
  apply nd_bind_inr in H. destruct H as (trace1 & H1 & H).
  apply nd_bind_inr in H. destruct H as (trace2 & H2 & H).
  apply quiet_rounds_outcome in H1. destruct H1 as (V1 & quiet & -> & L1 & F1).
  apply target_rounds_outcome in H2. destruct H2 as (V2 & target & -> & L2 & F2).
  destruct H as (l' & E & Hp). inversion E; subst l'.
  exists quiet, target. cbn [app] in Hp. repeat split; try assumption.
  destruct V1 as [V1 | V1]; [left; exact V1 |].
  destruct V2 as [V2 | [V2 Hf]]; [left; exact V2 |].
  right. split; [lia | exact Hf].
Qed.

(** X14. Every trace [generate_trace] returns has [2 * (number_of_rounds //
    2)] rounds; each round has [threshold_size] senders and
    [threshold_size] receivers, both in increasing order, and its senders
    are distinct users among [0 .. number_of_users - 1]. *)
Theorem generated_trace_shape (n t rounds : Z) (friends : list Z)
    (trace : list (list Z * list Z)) :
  generate_trace n t rounds friends (inr trace) ->
  length trace = 2 * Z.to_nat (rounds / 2) /\
  Forall (fun round =>
            Z.of_nat (length (fst round)) = t /\
            Z.of_nat (length (snd round)) = t /\
            StronglySorted Z.le (fst round) /\
            StronglySorted Z.le (snd round) /\
            NoDup (fst round) /\
            Forall (fun u => (0 <= u < n)%Z) (fst round)) trace.
Proof.
  intros H. destruct (generate_trace_inv _ _ _ _ _ H) as (q & tr & Hp & L1 & L2 & F1 & F2 & V).
  split.
  - rewrite <- (Permutation_length Hp), length_app. lia.
  - eapply Permutation_Forall; [exact Hp |]. apply Forall_app. split.
    + eapply Forall_impl; [| exact F1]. intros round (Hq & S1 & S2).
      destruct (quiet_round_facts _ _ _ Hq) as (A & B & C & D & _).
      repeat split; try assumption.
      eapply Forall_impl; [| exact D]. intros u Hu. cbv beta in *. lia.
    + assert (Hn : tr = [] \/ (1 <= t <= n - 1)%Z).
      { destruct V as [V | [V _]]; [| right; exact V]. left.
        destruct tr; [reflexivity | cbn in L2; lia]. }
      destruct Hn as [-> | Hn]; [constructor |].
      eapply Forall_impl; [| exact F2]. intros round (Ht & S1 & S2).
      destruct (target_round_facts _ _ _ _ Ht) as (A & B & C & D & _).
      repeat split; try assumption.
      eapply Forall_impl; [| exact D]. intros u Hu. cbv beta in *. lia.
Qed.

Lemma filter_none {A} (f : A -> bool) (l : list A) :
  Forall (fun x => f x = false) l -> filter f l = [].
Proof.
  induction 1 as [| x l Hx _ IH]; cbn [filter]; [reflexivity |]. rewrite Hx. exact IH.
Qed.

Lemma filter_all {A} (f : A -> bool) (l : list A) :
  Forall (fun x => f x = true) l -> filter f l = l.
Proof.
  induction 1 as [| x l Hx _ IH]; cbn [filter]; [reflexivity |]. rewrite Hx, IH. reflexivity.
Qed.

Lemma filter_length_perm {A} (f : A -> bool) (l l' : list A) :
  Permutation l l' -> length (filter f l) = length (filter f l').
Proof.
  induction 1 as [| x l l' _ IH | x y l | l1 l2 l3 _ IH1 _ IH2]; cbn [filter].
  - reflexivity.
  - destruct (f x); cbn [length]; rewrite IH; reflexivity.
  - destruct (f x), (f y); reflexivity.
  - rewrite IH1. exact IH2.
Qed.

Lemma generated_rounds_of (n t rounds : Z) (friends : list Z)
    (trace : list (list Z * list Z)) :
  generate_trace n t rounds friends (inr trace) ->
  rounds_of 0 trace = Z.to_nat (rounds / 2).
Proof.
  intros H. destruct (generate_trace_inv _ _ _ _ _ H) as (q & tr & Hp & L1 & L2 & F1 & F2 & V).
  unfold rounds_of. rewrite <- (filter_length_perm _ _ _ Hp), filter_app, length_app.
  rewrite filter_none, filter_all.
  - cbn [length]. lia.
  - eapply Forall_impl; [| exact F2]. intros round (Ht & _).
    apply (target_round_facts _ _ _ _ Ht).
  - eapply Forall_impl; [| exact F1]. intros round (Hq & _).
    apply (quiet_round_facts _ _ _ Hq).
Qed.

(** X15. In a trace [generate_trace] returns, user 0 is a sender in
    exactly [number_of_rounds // 2] rounds, and in each of them one of the
    target's friends is among the receivers. *)
Theorem generated_trace_target_rounds (n t rounds : Z) (friends : list Z)
    (trace : list (list Z * list Z)) :
  generate_trace n t rounds friends (inr trace) ->
  rounds_of 0 trace = Z.to_nat (rounds / 2) /\
  Forall (fun round => In 0%Z (fst round) ->
                       exists friend, In friend friends /\ In friend (snd round)) trace.
Proof.
  intros H. destruct (generate_trace_inv _ _ _ _ _ H) as (q & tr & Hp & L1 & L2 & F1 & F2 & V).
  split.
  - exact (generated_rounds_of _ _ _ _ _ H).
  - eapply Permutation_Forall; [exact Hp |]. apply Forall_app. split.
    + eapply Forall_impl; [| exact F1]. intros round (Hq & _) H0.
      destruct (quiet_round_facts _ _ _ Hq) as (_ & _ & _ & _ & E).
      apply py_in_In in H0. congruence.
    + eapply Forall_impl; [| exact F2]. intros round (Ht & _) _.
      destruct (target_round_facts _ _ _ _ Ht) as (_ & _ & _ & _ & _ & f & r & Hf & _ & Hp2).
      exists f. split; [exact Hf |].
      eapply Permutation_in; [apply Permutation_sym, Hp2 | left; reflexivity].
Qed.

Lemma score_cons (round : list Z * list Z) (trace : list (list Z * list Z))
    (target x : Z) :
  score (round :: trace) target x
  = ((if py_in target (fst round)
      then Z.of_nat (count_occ Z.eq_dec (snd round) x) else 0)
     + score trace target x)%Z.
Proof.
  unfold score, suspects_of. cbn [flat_map]. rewrite count_occ_app.
  destruct (py_in target (fst round)); cbn [count_occ]; lia.
Qed.

Lemma score_le (trace : list (list Z * list Z)) (target f y : Z) :
  Forall (fun round => py_in target (fst round) = true ->
                       count_occ Z.eq_dec (snd round) y
                       <= count_occ Z.eq_dec (snd round) f) trace ->
  (score trace target y <= score trace target f)%Z.
Proof.
  induction 1 as [| round trace Hr _ IH].
  - reflexivity.
  - rewrite !score_cons. destruct (py_in target (fst round)); [| lia].
    specialize (Hr eq_refl). lia.
Qed.

Lemma score_ge_rounds (trace : list (list Z * list Z)) (target f : Z) :
  Forall (fun round => py_in target (fst round) = true ->
                       1 <= count_occ Z.eq_dec (snd round) f) trace ->
  (Z.of_nat (rounds_of target trace) <= score trace target f)%Z.
Proof.
  unfold rounds_of. induction 1 as [| round trace Hr _ IH]; cbn [filter].
  - reflexivity.
  - rewrite score_cons. destruct (py_in target (fst round)); [| lia].
    specialize (Hr eq_refl). cbn [length]. lia.
Qed.

(** X16. When the target has a single friend, in every trace
    [generate_trace] returns the friend's score is at least the number of
    rounds of the target and no user has a higher score; asked for at least
    one friend on such a trace with a round of the target, [analyze_trace]
    puts first a user whose score equals the friend's. *)
Theorem generated_trace_friend_on_top (n t rounds friend : Z)
    (trace : list (list Z * list Z)) :
  generate_trace n t rounds [friend] (inr trace) ->
  (Z.of_nat (Z.to_nat (rounds / 2)) <= score trace 0 friend)%Z /\
  (forall y, (score trace 0 y <= score trace 0 friend)%Z) /\
  (forall k, (1 <= k)%Z -> (2 <= rounds)%Z ->
             exists first,
               hd_error (analyze_trace trace k 0) = Some first /\
               score trace 0 first = score trace 0 friend).
Proof.
  intros H.
  destruct (generate_trace_inv _ _ _ _ _ H) as (q & tr & Hp & L1 & L2 & F1 & F2 & V).
  assert (Hround : Forall (fun round =>
            py_in 0 (fst round) = true ->
            1 <= count_occ Z.eq_dec (snd round) friend /\
            forall y, count_occ Z.eq_dec (snd round) y
                      <= count_occ Z.eq_dec (snd round) friend) trace).
  { eapply Permutation_Forall; [exact Hp |]. apply Forall_app. split.
    - eapply Forall_impl; [| exact F1]. intros round (Hq & _) E.
      destruct (quiet_round_facts _ _ _ Hq) as (_ & _ & _ & _ & E'). congruence.
    - eapply Forall_impl; [| exact F2]. intros round (Ht & _) _.
      destruct (target_round_facts _ _ _ _ Ht)
        as (_ & _ & _ & _ & _ & f & r & [Ef | []] & Hnd & Hp2).
      rewrite Ef in *. clear Ef friend.
      assert (Hc : forall y, count_occ Z.eq_dec (snd round) y
                             = count_occ Z.eq_dec (f :: r) y).
      { apply (Permutation_count_occ Z.eq_dec), Hp2. }
      assert (Hf : count_occ Z.eq_dec (f :: r) f = S (count_occ Z.eq_dec r f)).
      { apply count_occ_cons_eq. reflexivity. }
      split; [rewrite Hc, Hf; lia |].
      intros y. rewrite !Hc, Hf.
      destruct (Z.eq_dec f y) as [<- | Hne].
      + rewrite Hf. lia.
      + rewrite count_occ_cons_neq by exact Hne.
        pose proof (proj1 (NoDup_count_occ Z.eq_dec r) Hnd y). lia. }
  assert (Hge : (Z.of_nat (Z.to_nat (rounds / 2)) <= score trace 0 friend)%Z).
  { rewrite <- (generated_rounds_of _ _ _ _ _ H).
    apply score_ge_rounds. eapply Forall_impl; [| exact Hround].
    intros round Hr E. apply (Hr E). }
  assert (Hle : forall y, (score trace 0 y <= score trace 0 friend)%Z).
  { intros y. apply score_le. eapply Forall_impl; [| exact Hround].
    intros round Hr E. apply (Hr E). }
  split; [exact Hge |]. split; [exact Hle |].
  intros k Hk Hrounds.
  assert (Hin : In friend (suspects_of trace 0)).
  { apply (count_occ_In Z.eq_dec).
    assert (1 <= rounds / 2)%Z by (apply Z.div_le_lower_bound; lia).
    unfold score in Hge. lia. }
  destruct (analyze_trace_facts trace k 0) as (_ & H2 & H3 & H4 & H5). cbv zeta in *.
  destruct (analyze_trace trace k 0) as [| h res] eqn:E.
  - exfalso. cbn [length] in H3.
    destruct (nodup Z.eq_dec (suspects_of trace 0)) as [| z l] eqn:En.
    + apply (nodup_In Z.eq_dec) in Hin. rewrite En in Hin. contradiction.
    + cbn [length] in H3. lia.
  - exists h. split; [reflexivity |]. apply Z.le_antisymm; [apply Hle |].
    destruct (in_dec Z.eq_dec friend (h :: res)) as [[-> | Hi] | Hni].
    + lia.
    + inversion H4 as [| ? ? _ Hall]; subst.
      rewrite Forall_forall in Hall. apply (Hall _ Hi).
    + apply (H5 h friend (or_introl eq_refl) Hin Hni).
Qed.

Lemma rounds_half_zero (rounds : Z) :
  Z.to_nat (rounds / 2) = 0 <-> (rounds < 2)%Z.
Proof.
  split; intros H.
  - destruct (Z.lt_ge_cases rounds 2) as [Hlt | Hge]; [exact Hlt |].
    assert (1 <= rounds / 2)%Z by (apply Z.div_le_lower_bound; lia). lia.
  - assert (rounds / 2 < 1)%Z by (apply Z.div_lt_upper_bound; lia). lia.
Qed.

Lemma generate_trace_raises (n t rounds : Z) (friends : list Z) (e : trace_exn) :
  generate_trace n t rounds friends (inl e) ->
  Z.to_nat (rounds / 2) <> 0 /\
  ((e = ValueError /\ ~ (1 <= t <= n - 1)%Z) \/
   (e = IndexError_choice /\ (1 <= t <= n - 1)%Z /\ friends = [])).
Proof.
  unfold generate_trace. cbv zeta. intros H.
  apply nd_bind_inl in H. destruct H as [H1 | (trace1 & H1 & H)].
  - apply quiet_rounds_outcome in H1. destruct H1 as (-> & Hc & Ht).
    split; [exact Hc |]. left. split; [reflexivity | lia].
  - apply quiet_rounds_outcome in H1. destruct H1 as (V1 & _).
    apply nd_bind_inl in H. destruct H as [H2 | (trace2 & _ & H)].
    + apply target_rounds_outcome in H2. destruct H2 as (Hc & H2).
      split; [exact Hc |].
      destruct V1 as [V1 | V1]; [contradiction |].
      destruct H2 as [[-> Ht] | (-> & Ht & Hf)].
      * left. split; [reflexivity | lia].
      * destruct (Z.eq_dec t (1 + Z.max 0 (n - 1))) as [E | E].
        -- lia.
        -- right. split; [reflexivity |]. split; [lia | exact Hf].
    + destruct H as (l' & E & _). discriminate E.
Qed.

Lemma generate_trace_can_return (n t rounds : Z) (friends : list Z) :
  Z.to_nat (rounds / 2) = 0 \/ ((1 <= t <= n - 1)%Z /\ friends <> []) ->
  exists trace, generate_trace n t rounds friends (inr trace).
Proof.
  intros V. unfold generate_trace. cbv zeta.
  destruct V as [V | [V Hf]].
  - rewrite V. exists []. cbn [quiet_rounds target_rounds].
    right. exists []. split; [reflexivity |].
    right. exists []. split; [reflexivity |].
    exists []. split; [reflexivity | apply Permutation_refl].
  - destruct (quiet_rounds_can_return n t (Z.to_nat (rounds / 2))
                ltac:(lia) []) as (trace1 & H1).
    destruct (target_rounds_can_return n t friends (Z.to_nat (rounds / 2))
                ltac:(lia) Hf trace1) as (trace2 & H2).
    exists trace2.
    right. exists trace1. split; [exact H1 |].
    right. exists trace2. split; [exact H2 |].
    exists trace2. split; [reflexivity | apply Permutation_refl].
Qed.

Lemma generate_trace_can_raise (n t rounds : Z) (friends : list Z) :
  Z.to_nat (rounds / 2) <> 0 ->
  (~ (1 <= t <= n - 1)%Z -> generate_trace n t rounds friends (inl ValueError)) /\
  ((1 <= t <= n - 1)%Z -> friends = [] ->
   generate_trace n t rounds friends (inl IndexError_choice)).
Proof.
  intros Hc. unfold generate_trace. cbv zeta.
  destruct (Z.to_nat (rounds / 2)) as [| count] eqn:E; [contradiction |]. split.
  - intros Ht.
    destruct (Z_le_dec 0 t) as [H0 | H0]; [destruct (Z_le_dec t (Z.max 0 (n - 1))) as [H1 | H1] |].
    + destruct (quiet_rounds_can_return n t (S count) (conj H0 H1) []) as (trace1 & H).
      right. exists trace1. split; [exact H |].
      left. exists ValueError. split; [| reflexivity].
      destruct (target_rounds_can_raise n t friends count trace1) as [R | [R _]]; [| lia].
      replace ((1 <=? t) && (t <=? 1 + Z.max 0 (n - 1)))%Z with false in R; [exact R |].
      symmetry. apply andb_false_iff. left. apply Z.leb_gt. lia.
    + left. exists ValueError. split; [| reflexivity].
      apply quiet_rounds_can_raise. lia.
    + left. exists ValueError. split; [| reflexivity].
      apply quiet_rounds_can_raise. lia.
  - intros Ht ->.
    destruct (quiet_rounds_can_return n t (S count) ltac:(lia) []) as (trace1 & H).
    right. exists trace1. split; [exact H |].
    left. exists IndexError_choice. split; [| reflexivity].
    destruct (target_rounds_can_raise n t [] count trace1) as [R | [_ R]];
      [| contradiction].
    replace ((1 <=? t) && (t <=? 1 + Z.max 0 (n - 1)))%Z with true in R; [exact R |].
    symmetry. apply andb_true_iff. rewrite !Z.leb_le. lia.
Qed.

(** X17. Outcomes of [generate_trace].  With [number_of_rounds < 2] it
    returns the empty trace whatever the other arguments.  With at least
    two rounds: when [1 <= threshold_size <= number_of_users - 1] and the
    target has a friend, every run returns a trace; when the threshold is
    outside that range, every run ends in the ValueError of
    [random.sample]; when the threshold is in range and the list of friends
    is empty, every run ends in the IndexError of [random.choice]. *)
Theorem generate_trace_outcomes (n t rounds : Z) (friends : list Z) :
  ((rounds < 2)%Z ->
   forall r, generate_trace n t rounds friends r <-> r = inr []) /\
  ((2 <= rounds)%Z ->
   ((1 <= t <= n - 1)%Z -> friends <> [] ->
    (exists trace, generate_trace n t rounds friends (inr trace)) /\
    forall r, generate_trace n t rounds friends r -> exists trace, r = inr trace) /\
   (~ (1 <= t <= n - 1)%Z ->
    generate_trace n t rounds friends (inl ValueError) /\
    forall r, generate_trace n t rounds friends r -> r = inl ValueError) /\
   ((1 <= t <= n - 1)%Z -> friends = [] ->
    generate_trace n t rounds friends (inl IndexError_choice) /\
    forall r, generate_trace n t rounds friends r -> r = inl IndexError_choice)).
Proof.
  split.
  - intros Hr. apply rounds_half_zero in Hr. intros r. split.
    + destruct r as [e | trace]; intros H.
      * apply generate_trace_raises in H. destruct H as [H _]. contradiction.
      * apply generate_trace_inv in H.
        destruct H as (q & tr & Hp & L1 & L2 & _).
        rewrite Hr in L1, L2.
        destruct q; [| discriminate L1]. destruct tr; [| discriminate L2].
        apply Permutation_nil in Hp. rewrite Hp. reflexivity.
    + intros ->. destruct (generate_trace_can_return n t rounds friends (or_introl Hr))
        as (trace & H).
      pose proof (generate_trace_inv _ _ _ _ _ H) as (q & tr & Hp & L1 & L2 & _).
      rewrite Hr in L1, L2.
      destruct q; [| discriminate L1]. destruct tr; [| discriminate L2].
      apply Permutation_nil in Hp. rewrite <- Hp. exact H.
  - intros Hr.
    assert (Hc : Z.to_nat (rounds / 2) <> 0).
    { intros E. apply rounds_half_zero in E. lia. }
    split; [| split].
    + intros Ht Hf. split.
      * apply generate_trace_can_return. right. split; assumption.
      * intros [e | trace] H; [| exists trace; reflexivity].
        apply generate_trace_raises in H.
        destruct H as (_ & [[_ H] | (_ & _ & H)]); contradiction.
    + intros Ht. split.
      * apply (generate_trace_can_raise n t rounds friends Hc), Ht.
      * intros [e | trace] H.
        -- apply generate_trace_raises in H.
           destruct H as (_ & [[-> _] | (_ & H & _)]); [reflexivity | contradiction].
        -- apply generate_trace_inv in H.
           destruct H as (_ & _ & _ & _ & _ & _ & _ & [V | [V _]]); contradiction.
    + intros Ht Hf. split.
      * subst friends. apply (generate_trace_can_raise n t rounds [] Hc); [exact Ht | reflexivity].
      * intros [e | trace] H.
        -- apply generate_trace_raises in H.
           destruct H as (_ & [[_ H] | (-> & _)]); [contradiction | reflexivity].
        -- apply generate_trace_inv in H.
           destruct H as (_ & _ & _ & _ & _ & _ & _ & [V | [_ V]]); contradiction.
Qed.

(** ** What the one-hop functions never do *)

Lemma printed_bind_nil {A B} (m : M A) (f : A -> M B) :
  printed m = [] -> (forall a, printed (f a) = []) -> printed (bind m f) = [].
Proof.
  intros Hm Hf. rewrite printed_bind, Hm.
  destruct (value m); [reflexivity | apply Hf].
Qed.

Lemma printed_py_assert (b : bool) : printed (py_assert b) = [].
Proof. destruct b; reflexivity. Qed.

Lemma printed_pack_net_H_s (sz : nat) (n : Z) (s : bytes) :
  printed (pack_net_H_s sz n s) = [].
Proof. unfold pack_net_H_s. destruct (in_H n); reflexivity. Qed.

Lemma printed_unpack_net_H_s (sz : nat) (buf : bytes) :
  printed (unpack_net_H_s sz buf) = [].
Proof.
  unfold unpack_net_H_s. destruct (length buf =? 2 + sz); [| reflexivity].
  destruct buf as [| hi [| lo field]]; reflexivity.
Qed.

Lemma oh_body_silent (r : Z) (msg : OneHopMixMessage EcPt) :
  printed (mix_server_one_hop_body r msg) = [].
Proof.
  unfold mix_server_one_hop_body.
  destruct (negb (check_point (oh_ec_public_key msg))
            || negb (length (oh_hmac msg) =? 20)
            || negb (length (oh_address msg) =? 258)
            || negb (length (oh_message msg) =? 1002)); [reflexivity |].
  cbv zeta.
  match goal with |- printed (if ?c then _ else _) = _ => destruct c end;
    [reflexivity |].
  apply printed_bind_nil; [apply printed_unpack_net_H_s |]. intros [al af].
  apply printed_bind_nil; [apply printed_unpack_net_H_s |]. intros [ml mf].
  reflexivity.
Qed.

Lemma oh_loop_silent (r : Z) (batch : list (OneHopMixMessage EcPt)) :
  forall acc, printed (mix_server_one_hop_loop r batch acc) = [].
Proof.
  induction batch as [| msg rest IH]; intros acc; cbn [mix_server_one_hop_loop].
  - reflexivity.
  - apply printed_bind_nil; [apply oh_body_silent |]. intros out. apply IH.
Qed.

(** X18. The one-hop client and the one-hop relay write nothing to standard
    output, whether they return or raise. *)
Theorem one_hop_silent (x r : Z) (pk : EcPt) (addr payload : bytes)
    (batch : list (OneHopMixMessage EcPt)) :
  printed (mix_client_one_hop x pk addr payload) = [] /\
  printed (mix_server_one_hop r batch) = [].
Proof.
  split.
  - unfold mix_client_one_hop.
    apply printed_bind_nil; [apply printed_py_assert |]. intros _.
    apply printed_bind_nil; [apply printed_py_assert |]. intros _.
    apply printed_bind_nil; [apply printed_py_assert |]. intros _.
    apply printed_bind_nil; [apply printed_pack_net_H_s |]. intros a.
    apply printed_bind_nil; [apply printed_pack_net_H_s |]. intros m.
    reflexivity.
  - unfold mix_server_one_hop.
    apply printed_bind_nil; [apply oh_loop_silent |]. intros queue. reflexivity.
Qed.

(** X19. [mix_client_one_hop] asserts that the relay's public key is a point
    of the group: given one that is not, it raises [AssertionError] whatever
    the address and the message. *)
Theorem one_hop_client_checks_point (x : Z) (pk : EcPt) (addr payload : bytes) :
  check_point pk = false ->
  mix_client_one_hop x pk addr payload = raise AssertionError.
Proof.
  intros H. unfold mix_client_one_hop. rewrite H. reflexivity.
Qed.

End Proofs.

(** * The instance: its laws, and the theorems at concrete messages *)

Lemma toy_laws : PrimitivesLaws toy.
Proof.
  constructor; cbn [toy pt_mul check_point generator sha512 hmac_sha512 EcPt].
  - intros a b p. rewrite Z.mul_mod_idemp_r by lia. f_equal. lia.
  - reflexivity.
  - intros a p _. apply andb_true_iff. split.
    + apply Z.leb_le. apply Z.mod_pos_bound. lia.
    + apply Z.ltb_lt. apply Z.mod_pos_bound. lia.
  - intros d. unfold toy_digest. rewrite length_map, length_seq. reflexivity.
  - intros k d. unfold toy_hmac. cbn [length]. rewrite repeat_length. reflexivity.
  - intros k iv x _ _. unfold aes_ctr_enc_dec. cbn [toy enc_update enc_finalize].
    rewrite app_nil_r, length_map. reflexivity.
  - intros k iv x _ _. unfold aes_ctr_enc_dec. cbn [toy enc_update enc_finalize].
    rewrite !app_nil_r, map_map. rewrite <- (map_id x) at 2.
    apply map_ext. intros b. apply byte_xor_involutive.
Qed.

Lemma weak_laws : PrimitivesLaws weak.
Proof.
  constructor; cbn [weak pt_mul check_point generator sha512 hmac_sha512 EcPt].
  - intros a b p. rewrite Z.mul_mod_idemp_r by lia. f_equal. lia.
  - reflexivity.
  - intros a p _. apply andb_true_iff. split.
    + apply Z.leb_le. apply Z.mod_pos_bound. lia.
    + apply Z.ltb_lt. apply Z.mod_pos_bound. lia.
  - intros d. unfold toy_digest. rewrite length_map, length_seq. reflexivity.
  - intros k d. apply repeat_length.
  - intros k iv x _ _. unfold aes_ctr_enc_dec. cbn [weak enc_update enc_finalize].
    rewrite app_nil_r, length_map. reflexivity.
  - intros k iv x _ _. unfold aes_ctr_enc_dec. cbn [weak enc_update enc_finalize].
    rewrite !app_nil_r, map_map. rewrite <- (map_id x) at 2.
    apply map_ext. intros b. apply byte_xor_involutive.
Qed.

Lemma encode_decode_roundtrip_witness :
  (exists enc,
      value (mix_client_n_hop 5 (map public_key_of [11; 13; 17]%Z) alice hi) = inr enc /\
      value (cascade [11; 13; 17]%Z [enc]) = inr [Deliver (alice, hi)])
  /\
  (forall r, exists enc,
      value (mix_client_one_hop 5 (public_key_of r) alice hi) = inr enc /\
      value (mix_server_one_hop r [enc]) = inr [(alice, hi)]).
Proof.
  apply (@encode_decode_roundtrip toy toy_laws 5%Z [11; 13; 17]%Z alice hi).
  - simpl. lia.
  - simpl. lia.
  - discriminate.
  - simpl. lia.
Defined.

Lemma blinding_invariant_witness :
  exists (key_materials : list bytes) (private_keys : list Z)
         (priv_i next_priv : Z) (incoming : EcPt),
    key_schedule 0 (map public_key_of [11; 13; 17]%Z) [] [5%Z]
      = ret (key_materials, private_keys) /\
    nth_error private_keys 1 = Some priv_i /\
    nth_error private_keys 2 = Some next_priv /\
    nth_error (incoming_public_keys (pt_mul 5 generator) [11; 13; 17]%Z) 1
      = Some incoming /\
    relay_shared_element 13 incoming = pt_mul priv_i (public_key_of 13) /\
    nth_error key_materials 1 = Some (relay_key_material 13 incoming) /\
    relay_next_public_key 13 incoming = pt_mul next_priv generator /\
    (forall addr payload,
        length addr <= 256 ->
        length payload <= 1000 ->
        (Z.of_nat (length [11; 13; 17]%Z) <= 65537)%Z ->
        exists enc msg_i,
          value (mix_client_n_hop 5 (map public_key_of [11; 13; 17]%Z) addr payload)
            = inr enc /\
          value (relay_chain (firstn 1 [11; 13; 17]%Z) [enc]) = inr [msg_i] /\
          ec_public_key msg_i = incoming).
Proof.
  apply (@blinding_invariant toy toy_laws 5%Z [11; 13; 17]%Z 1 13%Z).
  reflexivity.
Defined.

Lemma length_invariants_witness :
  (forall pk, check_point pk = true ->
     exists enc,
       value (mix_client_one_hop 5 pk alice hi) = inr enc /\
       length (oh_hmac enc) = 20 /\
       length (oh_address enc) = 258 /\
       length (oh_message enc) = 1002 /\
       oh_wire_length enc = length (export (oh_ec_public_key enc)) + 20 + 258 + 1002)
  /\
  (forall pubs, (Z.of_nat (length pubs) <= 65537)%Z ->
     exists enc,
       value (mix_client_n_hop 5 pubs alice hi) = inr enc /\
       length (hmacs enc) = length pubs /\
       Forall (fun mac => length mac = 20) (hmacs enc) /\
       length (address enc) = 258 /\
       length (message enc) = 1002)
  /\
  (forall k, k <= length [11; 13; 17]%Z ->
     exists enc msg_k,
       value (mix_client_n_hop 5 (map public_key_of [11; 13; 17]%Z) alice hi) = inr enc /\
       value (relay_chain (firstn k [11; 13; 17]%Z) [enc]) = inr [msg_k] /\
       length (hmacs msg_k) = length [11; 13; 17]%Z - k /\
       length (address msg_k) = 258 /\
       length (message msg_k) = 1002)
  /\
  (forall r msg out,
     value (mix_server_n_hop_body r false msg) = inr out ->
     exists msg',
       out = Forward msg' /\
       S (length (hmacs msg')) = length (hmacs msg) /\
       length (address msg') = 258 /\
       length (message msg') = 1002).
Proof.
  apply (@length_invariants toy toy_laws 5%Z [11; 13; 17]%Z alice hi).
  - simpl. lia.
  - simpl. lia.
  - simpl. lia.
Defined.

Lemma n_hop_final_arrival_order_witness :
  value (mix_client_n_hop 5 [public_key_of 11] bob hi) = inr to_bob /\
  value (mix_client_n_hop 7 [public_key_of 11] alice hi) = inr to_alice /\
  value (mix_server_n_hop 11 [to_bob; to_alice] true)
    = inr [Deliver (bob, hi); Deliver (alice, hi)]
  /\ tuple_leb (bob, hi) (alice, hi) = false
  /\ ~ Sorted tuple_le (tuples [Deliver (Pt := EcPt) (bob, hi); Deliver (alice, hi)]).
Proof.
  split; [vm_compute; reflexivity |]. split; [vm_compute; reflexivity |].
  split; [| split].
  - apply (n_hop_final_arrival_order (P := toy) 11%Z [to_bob; to_alice]).
    repeat constructor; vm_compute; reflexivity.
  - vm_compute. reflexivity.
  - intros H. inversion H as [| ? ? _ Hd]. inversion Hd as [| ? ? Hle].
    vm_compute in Hle. discriminate Hle.
Defined.

(** C4 as stated fails: [to_alice] alone is decoded and delivered, but in a
    batch with a malformed or a forged message, before or after it, the
    relay returns no output, only the exception of that message. *)
Lemma batch_failure_counterexample :
  value (mix_client_n_hop 7 [public_key_of 11] alice hi) = inr to_alice /\
  value (mix_client_n_hop 5 [public_key_of 11] bob hi) = inr to_bob /\
  value (mix_server_n_hop 11 [to_alice] true) = inr [Deliver (alice, hi)] /\
  value (mix_server_n_hop 11 [truncated; to_alice] true) = inl MalformedInput /\
  value (mix_server_n_hop 11 [to_alice; truncated] true) = inl MalformedInput /\
  value (mix_server_n_hop 11 [to_alice; forged; to_bob] true) = inl HmacCheckFailure.
Proof.
  repeat split; vm_compute; reflexivity.
Qed.

Lemma batch_failure_aborts_witness :
  value (mix_server_n_hop 11 ([to_alice] ++ forged :: [to_bob]) true)
  = inl HmacCheckFailure.
Proof.
  destruct (batch_failure_aborts (P := toy) 11%Z) as (H & _).
  apply H.
  - repeat constructor. eexists. vm_compute. reflexivity.
  - vm_compute. reflexivity.
Defined.

Lemma relay_and_client_print_witness :
  printed (mix_server_n_hop_body 11 true forged)
    = [[PyStr "Server: "; PyBytes (expected_mac 11 forged)]]
  /\ value (mix_server_n_hop_body 11 true forged) = inl HmacCheckFailure
  /\ exists enc lines,
       value (mix_client_n_hop 7 [public_key_of 11] alice hi) = inr enc /\
       printed (mix_client_n_hop 7 [public_key_of 11] alice hi)
       = lines ++ [[PyStr "Client: "; PyList (hmacs enc)]].
Proof.
  destruct (@relay_and_client_print toy toy_laws 11%Z) as (H1 & H2).
  split; [| split].
  - rewrite H1. vm_compute. reflexivity.
  - vm_compute. reflexivity.
  - apply H2.
    + simpl. lia.
    + simpl. lia.
    + simpl. lia.
Defined.

(** Two points that fail [check_point]. *)
Lemma n_hop_client_skips_point_check_witness :
  check_point 300%Z = false /\ check_point (-4)%Z = false /\
  value (mix_client_n_hop 5 [300; -4]%Z alice hi) <> inl AssertionError /\
  ((Z.of_nat (length [300; -4]%Z) <= 65537)%Z ->
   exists enc, value (mix_client_n_hop 5 [300; -4]%Z alice hi) = inr enc) /\
  (forall pk,
      check_point pk = false ->
      value (mix_client_one_hop 5 pk alice hi) = inl AssertionError).
Proof.
  split; [reflexivity |]. split; [reflexivity |].
  apply (n_hop_client_skips_point_check (P := toy) 5%Z [300; -4]%Z alice hi).
  - simpl. lia.
  - simpl. lia.
Defined.

Lemma final_delivery_truncates_witness :
  value (mix_server_n_hop 11 [oversized] true)
  = inr [Deliver (repeat "A"%byte 256, repeat "B"%byte 1000)].
Proof.
  destruct (@final_delivery_truncates toy toy_laws 11%Z) as (_ & _ & _ & H & _).
  rewrite H.
  - vm_compute. reflexivity.
  - vm_compute. reflexivity.
  - vm_compute. reflexivity.
  - vm_compute. discriminate.
Defined.

(** ** The further properties at concrete inputs *)

Lemma clients_reject_oversize_witness :
  mix_client_n_hop 5 [public_key_of 11] (repeat "a"%byte 257) hi
    = raise AssertionError /\
  mix_client_one_hop 5 (public_key_of 11) (repeat "a"%byte 257) hi
    = raise AssertionError.
Proof.
  apply (clients_reject_oversize (P := toy) 5%Z [public_key_of 11] (public_key_of 11)
           (repeat "a"%byte 257) hi).
  left. simpl. lia.
Defined.

Lemma client_cascade_too_long_witness :
  value (mix_client_n_hop 5 (repeat generator (Z.to_nat 65538)) alice hi)
  = inl StructError.
Proof.
  apply (client_cascade_too_long (P := toy) 5%Z (repeat generator (Z.to_nat 65538))
           alice hi).
  - simpl. lia.
  - simpl. lia.
  - rewrite repeat_length. lia.
Defined.

Lemma relay_too_many_macs_witness :
  mix_server_n_hop 11 [overlong; to_bob] false
  = (inl StructError, [[PyStr "Server: "; PyBytes (expected_mac 11 overlong)]]).
Proof.
  apply (relay_too_many_macs (P := toy) 11%Z false overlong [to_bob]).
  - vm_compute. reflexivity.
  - vm_compute. reflexivity.
  - cbn [overlong padded hmacs length]. rewrite repeat_length. lia.
Defined.

Lemma client_empty_cascade_plaintext_witness :
  exists enc,
    value (mix_client_n_hop 5 [] alice hi) = inr enc /\
    hmacs enc = [] /\
    open_envelope (address enc) = alice /\
    open_envelope (message enc) = hi.
Proof.
  apply (client_empty_cascade_plaintext (P := toy) 5%Z alice hi).
  - simpl. lia.
  - simpl. lia.
Defined.

Lemma blinding_factor_range_witness :
  (0 <= from_binary (skipn 48 (sha512 (export (pt_mul 11 (public_key_of 5)))))
   < 2 ^ 128)%Z.
Proof.
  apply (@blinding_factor_range toy toy_laws 11%Z (public_key_of 5)).
Defined.

Lemma one_hop_is_single_relay_case_witness :
  (exists enc1,
      value (mix_client_one_hop 5 (public_key_of 11) alice hi) = inr enc1 /\
      value (mix_client_n_hop 5 [public_key_of 11] alice hi) = inr (as_n_hop enc1))
  /\
  value (mix_server_n_hop 11 [as_n_hop oh_to_alice] true)
  = match value (mix_server_one_hop 11 [oh_to_alice]) with
    | inl e => inl e
    | inr outs => inr (map Deliver outs)
    end.
Proof.
  destruct (@one_hop_is_single_relay_case toy toy_laws 5%Z 11%Z) as [Hc Hs].
  split.
  - apply (Hc (public_key_of 11) alice hi).
    + vm_compute. reflexivity.
    + simpl. lia.
    + simpl. lia.
  - apply (Hs oh_to_alice).
Defined.

Lemma one_hop_output_canonical_witness :
  value (mix_server_one_hop 11 [oh_to_bob; oh_to_alice]) = inr [(alice, hi); (bob, hi)]
  /\ StronglySorted tuple_le [(alice, hi); (bob, hi)]
  /\ (exists queue,
        Forall2 (fun msg out => value (mix_server_one_hop_body 11 msg) = inr out)
                [oh_to_bob; oh_to_alice] queue /\
        Permutation [(alice, hi); (bob, hi)] queue)
  /\ (forall batch',
        Permutation [oh_to_bob; oh_to_alice] batch' ->
        value (mix_server_one_hop 11 batch') = inr [(alice, hi); (bob, hi)]).
Proof.
  assert (H : value (mix_server_one_hop (P := toy) 11 [oh_to_bob; oh_to_alice])
              = inr [(alice, hi); (bob, hi)]).
  { vm_compute. reflexivity. }
  split; [exact H |].
  apply (one_hop_output_canonical (P := toy) 11%Z [oh_to_bob; oh_to_alice]
           [(alice, hi); (bob, hi)] H).
Defined.

Lemma batch_roundtrip_witness :
  exists batch,
    Forall2 (fun input enc =>
               value (mix_client_n_hop (fst (fst input))
                                       (map public_key_of [11; 13; 17]%Z)
                                       (snd (fst input)) (snd input)) = inr enc)
            [(5%Z, alice, hi); (7%Z, bob, hi)] batch /\
    value (cascade [11; 13; 17]%Z batch)
    = inr (map (fun input => Deliver (snd (fst input), snd input))
               [(5%Z, alice, hi); (7%Z, bob, hi)]).
Proof.
  apply (@batch_roundtrip toy toy_laws [11; 13; 17]%Z [(5%Z, alice, hi); (7%Z, bob, hi)]).
  - discriminate.
  - simpl. lia.
  - repeat constructor; simpl; lia.
Defined.

Lemma analyze_trace_strict_winner_witness :
  hd_error (analyze_trace observed 1 0) = Some 2%Z.
Proof.
  apply (analyze_trace_strict_winner observed 1 0 2).
  - lia.
  - simpl. tauto.
  - intros y Hy Hne. simpl in Hy.
    destruct Hy as [<- | [<- | [<- | [<- | []]]]];
      try (exfalso; apply Hne; reflexivity); vm_compute; reflexivity.
Defined.

Lemma sorted_int_eq_perm (l l' : list Z) :
  sorted_int l = sorted_int l' -> Permutation l l'.
Proof.
  intros E. eapply perm_trans; [apply Permutation_sym, sorted_int_perm |].
  rewrite E. apply sorted_int_perm.
Qed.

Lemma generated_is_generated : generate_trace 4 2 2 [3%Z] (inr generated).
Proof.
  unfold generate_trace. cbv zeta. change (Z.to_nat (2 / 2)) with 1.
  cbn [quiet_rounds target_rounds].
  right. exists [([1; 3], [0; 2])]%Z. split.
  - right. exists [3; 1]%Z. split.
    + apply random_sample_inr. rewrite py_range_length. split; [lia |].
      split; [reflexivity |]. exists [2%Z].
      apply sorted_int_eq_perm. vm_compute. reflexivity.
    + right. exists [2; 0]%Z. split.
      * apply random_sample_inr. rewrite py_range_length. split; [lia |].
        split; [reflexivity |]. exists [1; 3]%Z.
        apply sorted_int_eq_perm. vm_compute. reflexivity.
      * vm_compute. reflexivity.
  - right. exists [([1; 3], [0; 2]); ([0; 2], [1; 3])]%Z. split.
    + right. exists [2%Z]. split.
      * apply random_sample_inr. rewrite py_range_length. split; [lia |].
        split; [reflexivity |]. exists [1; 3]%Z.
        apply sorted_int_eq_perm. vm_compute. reflexivity.
      * right. exists 3%Z. split; [exists 3%Z; split; [reflexivity | left; reflexivity] |].
        right. exists [1%Z]. split.
        -- apply random_sample_inr. rewrite py_range_length. split; [lia |].
           split; [reflexivity |]. exists [0; 2; 3]%Z.
           apply sorted_int_eq_perm. vm_compute. reflexivity.
        -- vm_compute. reflexivity.
    + exists generated. split; [reflexivity | apply perm_swap].
Qed.

Lemma generated_trace_shape_witness :
  length generated = 2 * Z.to_nat (2 / 2) /\
  Forall (fun round =>
            Z.of_nat (length (fst round)) = 2%Z /\
            Z.of_nat (length (snd round)) = 2%Z /\
            StronglySorted Z.le (fst round) /\
            StronglySorted Z.le (snd round) /\
            NoDup (fst round) /\
            Forall (fun u => (0 <= u < 4)%Z) (fst round)) generated.
Proof.
  apply (generated_trace_shape 4 2 2 [3%Z] generated).
  exact generated_is_generated.
Defined.

Lemma generated_trace_target_rounds_witness :
  rounds_of 0 generated = Z.to_nat (2 / 2) /\
  Forall (fun round => In 0%Z (fst round) ->
                       exists friend, In friend [3%Z] /\ In friend (snd round))
         generated.
Proof.
  apply (generated_trace_target_rounds 4 2 2 [3%Z] generated).
  exact generated_is_generated.
Defined.

Lemma generated_trace_friend_on_top_witness :
  (Z.of_nat (Z.to_nat (2 / 2)) <= score generated 0 3)%Z /\
  (forall y, (score generated 0 y <= score generated 0 3)%Z) /\
  (forall k, (1 <= k)%Z -> (2 <= 2)%Z ->
             exists first,
               hd_error (analyze_trace generated k 0) = Some first /\
               score generated 0 first = score generated 0 3).
Proof.
  apply (generated_trace_friend_on_top 4 2 2 3 generated).
  exact generated_is_generated.
Defined.

Lemma analyze_trace_ignores_other_rounds_witness :
  analyze_trace observed 2 0
  = analyze_trace (filter (fun round => py_in 0 (fst round)) observed) 2 0 /\
  analyze_trace observed 2 5 = [].
Proof.
  split.
  - apply (analyze_trace_ignores_other_rounds observed 2 0).
  - apply (analyze_trace_ignores_other_rounds observed 2 5).
    intros senders receivers Hin H5. simpl in Hin.
    destruct Hin as [E | [E | [E | []]]]; inversion E; subst senders;
      simpl in H5; lia.
Defined.

Lemma generate_trace_outcomes_witness :
  (forall r, generate_trace 4 2 1 [3%Z] r <-> r = inr []) /\
  ((exists trace, generate_trace 4 2 2 [3%Z] (inr trace)) /\
   forall r, generate_trace 4 2 2 [3%Z] r -> exists trace, r = inr trace) /\
  (generate_trace 4 4 2 [3%Z] (inl ValueError) /\
   forall r, generate_trace 4 4 2 [3%Z] r -> r = inl ValueError) /\
  (generate_trace 4 0 2 [3%Z] (inl ValueError) /\
   forall r, generate_trace 4 0 2 [3%Z] r -> r = inl ValueError) /\
  (generate_trace 4 2 2 [] (inl IndexError_choice) /\
   forall r, generate_trace 4 2 2 [] r -> r = inl IndexError_choice).
Proof.
  split; [| split; [| split; [| split]]].
  - apply (generate_trace_outcomes 4 2 1 [3%Z]). lia.
  - apply (generate_trace_outcomes 4 2 2 [3%Z]); [lia | lia | discriminate].
  - apply (generate_trace_outcomes 4 4 2 [3%Z]); lia.
  - apply (generate_trace_outcomes 4 0 2 [3%Z]); lia.
  - apply (generate_trace_outcomes 4 2 2 []); [lia | lia | reflexivity].
Defined.

Lemma one_hop_client_checks_point_witness :
  mix_client_one_hop 5 300%Z alice hi = raise AssertionError.
Proof.
  apply (one_hop_client_checks_point (P := toy) 5%Z 300%Z alice hi).
  vm_compute. reflexivity.
Defined.

(** A flipped bit at concrete messages: in the instance [toy] every
    flipped bit below changes the MAC and the relay raises; in the instance
    [weak] the MAC does not change, and the final relay delivers the
    message under an address that is not the sender's. *)
Lemma tampering_outcome_witness :
  (exists enc enc1,
      value (mix_client_n_hop 5 (map public_key_of (11 :: [13; 17])%Z) alice hi) = inr enc /\
      value (mix_client_one_hop 5 (public_key_of 11) alice hi) = inr enc1 /\
      value (mix_server_n_hop 11 [tamper Mac0 19 7 enc] false) = inl HmacCheckFailure /\
      value (mix_server_one_hop 11 [oh_tamper Mac0 0 0 enc1]) = inl HmacCheckFailure /\
      value (mix_server_n_hop 11 [tamper Address 0 0 enc] false) = inl HmacCheckFailure /\
      value (mix_server_one_hop 11 [oh_tamper Message 1001 3 enc1]) = inl HmacCheckFailure)
  /\
  (exists enc,
      value (mix_client_n_hop (P := weak) 5
               (map (public_key_of (P := weak)) (11 :: [])%Z) alice hi) = inr enc /\
      value (mix_server_n_hop (P := weak) 11 [tamper (P := weak) Address 2 0 enc] true)
      = inr [Deliver (["`"; "l"; "i"; "c"; "e"]%byte, hi)]).
Proof.
  split.
  - destruct (@tampering_outcome toy toy_laws 5%Z 11%Z [13; 17]%Z alice hi)
      as (enc & enc1 & E & E1 & H0 & H1 & H & H').
    + simpl. lia.
    + simpl. lia.
    + simpl. lia.
    + exists enc, enc1. split; [exact E |]. split; [exact E1 |].
      assert (En : enc = encoded 5 (map public_key_of (11 :: [13; 17])%Z) alice hi).
      { vm_compute in E. vm_compute. inversion E. reflexivity. }
      assert (En1 : enc1 = oh_encoded 5 (public_key_of 11) alice hi).
      { vm_compute in E1. vm_compute. inversion E1. reflexivity. }
      repeat split.
      * apply H0; [rewrite En; vm_compute; lia | lia].
      * apply H1; [rewrite En1; vm_compute; lia | lia].
      * rewrite H by discriminate. rewrite En. vm_compute. reflexivity.
      * rewrite H' by discriminate. rewrite En1. vm_compute. reflexivity.
  - destruct (@tampering_outcome weak weak_laws 5%Z 11%Z [] alice hi)
      as (enc & _ & E & _ & _ & _ & H & _).
    + simpl. lia.
    + simpl. lia.
    + simpl. lia.
    + exists enc. split; [exact E |].
      assert (En : enc = encoded (P := weak) 5
                           (map (public_key_of (P := weak)) (11 :: [])%Z) alice hi).
      { vm_compute in E. vm_compute. inversion E. reflexivity. }
      rewrite H by discriminate. rewrite En. vm_compute. reflexivity.
Defined.
